(** * UI5Element: the reactive-component runtime of ui5-webcomponents

    A shallow embedding of [packages/base/src/UI5Element.js] and of the
    animation-mode getter, with the properties of the invalidation core,
    the slot distributor, the property accessors and the class registry.

    JavaScript objects live in a store and are referred to by location, so
    that sharing between the cached default state and the instances is
    visible.  The browser (DOM attributes, event dispatch, the custom
    element registry, timers) and the collaborators that are imported from
    other files are either parameters of a section or appear as entries of
    an effect trace. *)

From stdpp Require Import gmap strings list fin_maps sorting pretty.
From Stdlib Require Import ZArith Lia Ascii.

Local Open Scope string_scope.
Local Open Scope Z_scope.
Local Open Scope list_scope.

(** ** JavaScript values *)

Definition loc := positive.
Bind Scope positive_scope with loc.

(** Numbers are the integers plus [NaN] (what [parseInt] gives on a string
    that is no number); objects, arrays and DOM nodes are references. *)
Inductive value :=
| VUndefined
| VNull
| VBool (b : bool)
| VNum (n : Z)
| VNaN
| VStr (s : string)
| VObj (l : loc)
| VNode (n : loc).

#[global] Instance value_eq_dec : EqDecision value.
Proof. solve_decision. Defined.

(** [a === b]: primitives by value, references by identity, and [NaN] is
    different from itself. *)
Definition strict_eq (a b : value) : bool :=
  match a, b with
  | VNaN, _ | _, VNaN => false
  | _, _ => bool_decide (a = b)
  end.

(** [a !== b] *)
Definition strict_neq (a b : value) : bool := negb (strict_eq a b).

(** ToBoolean, as used by [if (x)], [x && y] and [x || y]. *)
Definition truthy (v : value) : bool :=
  match v with
  | VUndefined | VNull | VNaN => false
  | VBool b => b
  | VNum n => negb (Z.eqb n 0)
  | VStr s => negb (String.eqb s "")
  | VObj _ | VNode _ => true
  end.

(** [typeof v === "object"] *)
Definition typeof_object (v : value) : bool :=
  match v with
  | VNull | VObj _ | VNode _ => true
  | _ => false
  end.

(** String(v) for the values an attribute can receive. *)
Definition to_string (v : value) : string :=
  match v with
  | VUndefined => "undefined"
  | VNull => "null"
  | VBool true => "true"
  | VBool false => "false"
  | VNum n => pretty n
  | VNaN => "NaN"
  | VStr s => s
  | VObj _ => "[object Object]"
  | VNode _ => "[object HTMLElement]"
  end.

(** Plain objects and arrays of the store. *)
Inductive obj :=
| OArray (elems : list value)
| OObject (fields : gmap string value).

(** [o[k]] on a plain object: a missing key reads as [undefined]. *)
Definition get_field (fields : gmap string value) (k : string) : value :=
  default VUndefined (fields !! k).

(** ** The animation-mode getter (src/unnamed/part_000) *)

Module AnimationMode.

(** Module state: the [let animationMode] variable, and how often the
    initial configuration was asked. *)
Record state := {
  animationMode : value;
  configurationReads : nat
}.

(** [let animationMode;] *)
Definition initial : state :=
  {| animationMode := VUndefined; configurationReads := 0 |}.

Section WithConfiguration.
(** What [getAnimationMode] of InitialConfiguration.js returns. *)
Variable getConfiguredAnimationMode : value.

(** The call inside the [if] is an expression statement: its result is
    dropped. *)
Definition getAnimationMode (st : state) : value * state :=
  let st' :=
    if strict_eq (animationMode st) VUndefined
    then let _ := getConfiguredAnimationMode in
         {| animationMode := animationMode st;
            configurationReads := S (configurationReads st) |}
    else st in
  (animationMode st', st').

(** [n] calls in a row; the results in call order. *)
Fixpoint calls (n : nat) (st : state) : list value * state :=
  match n with
  | O => ([], st)
  | S n' =>
      let '(v, st1) := getAnimationMode st in
      let '(vs, st2) := calls n' st1 in
      (v :: vs, st2)
  end.
End WithConfiguration.

End AnimationMode.

(** ** Class metadata

    What [getMetadata()] gives for a class: the merged declarations. The
    metadata class itself (UI5ElementMetadata.js) is another file; its
    lookups are plain reads of these records. *)

(** The [type] of a property declaration: the constructors [Boolean],
    [String], [Object], the [Integer] data type, another data type class,
    or a string written where a type was expected. *)
Inductive PropertyType :=
| TBoolean
| TString
| TInteger
| TObject
| TCustom (name : string)
| TLiteral (s : string).

#[global] Instance PropertyType_eq_dec : EqDecision PropertyType.
Proof. solve_decision. Defined.

(** A property declaration. [defaultValue = None]: the key is absent. *)
Record PropertyData := {
  type : PropertyType;
  multiple : bool;
  defaultValue : option value
}.

(** [slotData.type]: [Node] (text may be slotted) or [HTMLElement]. *)
Inductive SlotType := TNode | THTMLElement.

(** [listenFor]: an array of names, or an object with optional [props] and
    [exclude] arrays. *)
Inductive ListenFor :=
| ListenForArray (names : list string)
| ListenForObject (props : option (list string)) (exclude : option (list string)).

Record SlotData := {
  propertyName : option string;
  slotType : SlotType;
  individualSlots : bool;
  listenFor : option ListenFor
}.

(** A component class: identity, tag and merged metadata, and which of the
    optional members it has. Objects keep their keys in insertion order, so
    the declarations are association lists. *)
Record Class := {
  className : string;
  tag : string;
  properties : list (string * PropertyData);
  slots : list (string * SlotData);
  template : bool;
  staticAreaTemplate : bool;
  onDefine : bool;
  onBeforeRendering : bool;
  _onComponentStateFinalized : bool;
  onAfterRendering : bool
}.

(** [o[k]] on a declaration object. *)
Fixpoint entry {A} (k : string) (entries : list (string * A)) : option A :=
  match entries with
  | [] => None
  | (k', a) :: rest => if String.eqb k' k then Some a else entry k rest
  end.

(** [slotData.propertyName || slotName] *)
Definition slotPropertyName (slotName : string) (slotData : SlotData) : string :=
  match propertyName slotData with
  | Some p => if String.eqb p "" then slotName else p
  | None => slotName
  end.

(** ** DOM nodes and component instances *)

Inductive NodeKind :=
| TextNode            (* text, comments: no element *)
| HTMLElementNode     (* instanceof HTMLElement *)
| OtherElementNode.   (* an element that is no HTMLElement, e.g. SVG *)

#[global] Instance NodeKind_eq_dec : EqDecision NodeKind.
Proof. solve_decision. Defined.

(** The entry of [_monitoredChildProps] for a slot. *)
Record MonitoredProps := {
  observedProps : list string;
  notObservedProps : list string
}.

(** The fields a UI5Element instance adds to its node. [shadowRoot] is the
    number of element children of the shadow root, when there is one. *)
Record UI5Data := {
  constructor : Class;
  _state : loc;
  _invalidated : bool;
  _suppressInvalidation : bool;
  _monitoredChildProps : gmap string MonitoredProps;
  shadowRoot : option nat
}.

(** A node of the document. [propertyChangeListener]: whether
    [_invalidateParentOnPropertyUpdate] is registered for "_propertyChange"
    (the function is the one of the prototype, the same for every parent,
    so a node holds it at most once). [ui5] is present when the node is an
    upgraded UI5 element. *)
Record Node := {
  kind : NodeKind;
  localName : string;
  attributes : gmap string string;
  parentNode : option loc;
  childNodes : list loc;
  _individualSlot : option string;
  propertyChangeListener : bool;
  ui5 : option UI5Data
}.

(** ** Effects on the outside *)

Inductive Warning :=
| UnknownSlotName (slotName : string) (child : loc)
| BooleanDefaultValueIgnored
| SkippingDefinition (tag : string).

Inductive Error :=
| InvalidPropertyName (name : string)
| BooleanDefaultValue (prop : string)
| CannotSetSlots
| ListenerTypeError.

Inductive Effect :=
| ConsoleWarn (msg : Warning)
| SetAttribute (el : loc) (name val : string)
| RemoveAttribute (el : loc) (name : string)
| DispatchPropertyChange (target : loc) (name : string) (newValue : value)
| SetTimeout (localName : string) (ms : Z)
| Boot
| OnDefine (cls : string)
| CustomElementsDefine (tag cls : string)
| Hook (el : loc) (hook : string)
| Render (el : loc) (state : gmap string value) (styleToPrepend : bool)
| UpdateFragment (el : loc)
| Uncaught (e : Error).

(** What [Object.defineProperty] put on a prototype. *)
Inductive Accessor :=
| PropertyAccessor (prop : string) (propData : PropertyData)
| SlotAccessor (propertyName : string).

(** ** The world: stores, module-level maps, the registry, the trace *)

Record World := {
  heap : gmap loc obj;
  nodes : gmap loc Node;
  (* static [_defaultState] of each class *)
  _defaultState : gmap string loc;
  (* static [prototype] of each class: the generated accessors *)
  prototype : gmap string (list Accessor);
  DefinitionsSet : gset string;
  elementTimeouts : gmap string Z;
  (* window.customElements: tag to class *)
  customElements : gmap string string;
  (* the clock, in milliseconds *)
  now : Z;
  (* RenderScheduler's pending deferred renders *)
  renderQueue : list loc;
  trace : list Effect
}.

Definition set_heap (h : gmap loc obj) (w : World) : World :=
  {| heap := h; nodes := nodes w; _defaultState := _defaultState w;
     prototype := prototype w; DefinitionsSet := DefinitionsSet w;
     elementTimeouts := elementTimeouts w;
     customElements := customElements w; now := now w;
     renderQueue := renderQueue w; trace := trace w |}.

Definition set_nodes (n : gmap loc Node) (w : World) : World :=
  {| heap := heap w; nodes := n; _defaultState := _defaultState w;
     prototype := prototype w; DefinitionsSet := DefinitionsSet w;
     elementTimeouts := elementTimeouts w;
     customElements := customElements w; now := now w;
     renderQueue := renderQueue w; trace := trace w |}.

Definition set_defaultState (d : gmap string loc) (w : World) : World :=
  {| heap := heap w; nodes := nodes w; _defaultState := d;
     prototype := prototype w; DefinitionsSet := DefinitionsSet w;
     elementTimeouts := elementTimeouts w;
     customElements := customElements w; now := now w;
     renderQueue := renderQueue w; trace := trace w |}.

Definition set_prototype (p : gmap string (list Accessor)) (w : World) : World :=
  {| heap := heap w; nodes := nodes w; _defaultState := _defaultState w;
     prototype := p; DefinitionsSet := DefinitionsSet w;
     elementTimeouts := elementTimeouts w;
     customElements := customElements w; now := now w;
     renderQueue := renderQueue w; trace := trace w |}.

Definition set_definitions (s : gset string) (c : gmap string string) (w : World) : World :=
  {| heap := heap w; nodes := nodes w; _defaultState := _defaultState w;
     prototype := prototype w; DefinitionsSet := s;
     elementTimeouts := elementTimeouts w;
     customElements := c; now := now w;
     renderQueue := renderQueue w; trace := trace w |}.

Definition set_elementTimeouts (t : gmap string Z) (w : World) : World :=
  {| heap := heap w; nodes := nodes w; _defaultState := _defaultState w;
     prototype := prototype w; DefinitionsSet := DefinitionsSet w;
     elementTimeouts := t;
     customElements := customElements w; now := now w;
     renderQueue := renderQueue w; trace := trace w |}.

Definition set_renderQueue (q : list loc) (w : World) : World :=
  {| heap := heap w; nodes := nodes w; _defaultState := _defaultState w;
     prototype := prototype w; DefinitionsSet := DefinitionsSet w;
     elementTimeouts := elementTimeouts w;
     customElements := customElements w; now := now w;
     renderQueue := q; trace := trace w |}.

(** Append to the trace. *)
Definition emit (e : Effect) (w : World) : World :=
  {| heap := heap w; nodes := nodes w; _defaultState := _defaultState w;
     prototype := prototype w; DefinitionsSet := DefinitionsSet w;
     elementTimeouts := elementTimeouts w;
     customElements := customElements w; now := now w;
     renderQueue := renderQueue w; trace := trace w ++ [e] |}.

(** [new Object] / [new Array]: a location the store does not use yet. *)
Definition alloc (o : obj) (w : World) : loc * World :=
  let l := fresh (dom (heap w)) in
  (l, set_heap (<[l := o]> (heap w)) w).

Arguments alloc : simpl never.

Definition update_node (n : loc) (f : Node -> Node) (w : World) : World :=
  match nodes w !! n with
  | Some nd => set_nodes (<[n := f nd]> (nodes w)) w
  | None => w
  end.

Definition with_ui5 (f : UI5Data -> UI5Data) (nd : Node) : Node :=
  {| kind := kind nd; localName := localName nd; attributes := attributes nd;
     parentNode := parentNode nd; childNodes := childNodes nd;
     _individualSlot := _individualSlot nd;
     propertyChangeListener := propertyChangeListener nd;
     ui5 := f <$> ui5 nd |}.

Definition with_individualSlot (s : option string) (nd : Node) : Node :=
  {| kind := kind nd; localName := localName nd; attributes := attributes nd;
     parentNode := parentNode nd; childNodes := childNodes nd;
     _individualSlot := s;
     propertyChangeListener := propertyChangeListener nd;
     ui5 := ui5 nd |}.

Definition with_listener (b : bool) (nd : Node) : Node :=
  {| kind := kind nd; localName := localName nd; attributes := attributes nd;
     parentNode := parentNode nd; childNodes := childNodes nd;
     _individualSlot := _individualSlot nd;
     propertyChangeListener := b;
     ui5 := ui5 nd |}.

Definition with_attributes (a : gmap string string) (nd : Node) : Node :=
  {| kind := kind nd; localName := localName nd; attributes := a;
     parentNode := parentNode nd; childNodes := childNodes nd;
     _individualSlot := _individualSlot nd;
     propertyChangeListener := propertyChangeListener nd;
     ui5 := ui5 nd |}.

Definition with_invalidated (b : bool) (d : UI5Data) : UI5Data :=
  {| constructor := constructor d; _state := _state d; _invalidated := b;
     _suppressInvalidation := _suppressInvalidation d;
     _monitoredChildProps := _monitoredChildProps d;
     shadowRoot := shadowRoot d |}.

Definition with_suppressInvalidation (b : bool) (d : UI5Data) : UI5Data :=
  {| constructor := constructor d; _state := _state d;
     _invalidated := _invalidated d; _suppressInvalidation := b;
     _monitoredChildProps := _monitoredChildProps d;
     shadowRoot := shadowRoot d |}.

Definition with_monitoredChildProps (m : gmap string MonitoredProps) (d : UI5Data) : UI5Data :=
  {| constructor := constructor d; _state := _state d;
     _invalidated := _invalidated d;
     _suppressInvalidation := _suppressInvalidation d;
     _monitoredChildProps := m;
     shadowRoot := shadowRoot d |}.

Definition with_shadowRoot (s : option nat) (d : UI5Data) : UI5Data :=
  {| constructor := constructor d; _state := _state d;
     _invalidated := _invalidated d;
     _suppressInvalidation := _suppressInvalidation d;
     _monitoredChildProps := _monitoredChildProps d;
     shadowRoot := s |}.

(** The instance fields of element [el], when it is a UI5 element. *)
Definition instance (w : World) (el : loc) : option UI5Data :=
  nodes w !! el ≫= ui5.

(** The fields of the [_state] object of [el]. *)
Definition state_fields (w : World) (el : loc) : gmap string value :=
  match instance w el with
  | Some d =>
      match heap w !! _state d with
      | Some (OObject fields) => fields
      | _ => ∅
      end
  | None => ∅
  end.

(** [this._state[prop]] *)
Definition state_get (w : World) (el : loc) (prop : string) : value :=
  get_field (state_fields w el) prop.

(** [this._state[prop] = v] *)
Definition state_set (el : loc) (prop : string) (v : value) (w : World) : World :=
  match instance w el with
  | Some d =>
      match heap w !! _state d with
      | Some (OObject fields) =>
          set_heap (<[_state d := OObject (<[prop := v]> fields)]> (heap w)) w
      | _ => w
      end
  | None => w
  end.

(** ** Invalidation *)

(** [getDomRef()]: nothing without a shadow root or with an empty one;
    else the only child, or the second one (the first is the style). The
    result is the index of the child that is returned. *)
Definition getDomRef (w : World) (el : loc) : option nat :=
  match instance w el with
  | Some d =>
      match shadowRoot d with
      | None | Some O => None
      | Some 1%nat => Some 0%nat
      | Some _ => Some 1%nat
      end
  | None => None
  end.

(** Whether [getDomRef()] gives an element, from the fields. *)
Definition rendered (d : UI5Data) : bool :=
  match shadowRoot d with
  | Some (S _) => true
  | _ => false
  end.

(** Modelled from the spec: RenderScheduler.js is not among the sources.
    [renderDeferred] enqueues a deferred render task for the component; the
    task runs later, not within the triggering call. *)
Definition renderDeferred (el : loc) (w : World) : World :=
  set_renderQueue (renderQueue w ++ [el]) w.

(** [_invalidate()] *)
Definition _invalidate (el : loc) (w : World) : World :=
  match instance w el with
  | Some d =>
      if _invalidated d then w
      else if bool_decide (is_Some (getDomRef w el))
              && negb (_suppressInvalidation d)
      then renderDeferred el (update_node el (with_ui5 (with_invalidated true)) w)
      else w
  | None => w
  end.

(** ** Slot names *)

Definition is_digit (c : ascii) : bool :=
  let n := nat_of_ascii c in (48 <=? n)%nat && (n <=? 57)%nat.

(** What [.] does not match: line feed and carriage return (the strings of
    the model are byte strings). *)
Definition is_line_terminator (c : ascii) : bool :=
  let n := nat_of_ascii c in (n =? 10)%nat || (n =? 13)%nat.

(** The leading digits of a list of characters, and the rest. *)
Fixpoint span_digits (cs : list ascii) : list ascii * list ascii :=
  match cs with
  | c :: cs' =>
      if is_digit c
      then let '(ds, rest) := span_digits cs' in (c :: ds, rest)
      else ([], cs)
  | [] => ([], [])
  end.

(** [slot.match(/^(.+?)-\d+$/)], the first group. The digits at the end
    are the whole run of digits that closes the string, since a dash stands
    before them; so the lazy group has one candidate only. *)
Definition match_numeric_suffix (slot : string) : option string :=
  let '(ds, rest) := span_digits (reverse (String.list_ascii_of_string slot)) in
  match ds, rest with
  | _ :: _, dash :: ((_ :: _) as group) =>
      if Ascii.eqb dash "-" && forallb (λ c, negb (is_line_terminator c)) group
      then Some (String.string_of_list_ascii (reverse group))
      else None
  | _, _ => None
  end.

(** [static _getSlotName(child)] *)
Definition _getSlotName (w : World) (c : loc) : string :=
  match nodes w !! c with
  | Some nd =>
      match kind nd with
      | HTMLElementNode =>
          match attributes nd !! "slot" with
          | Some slot =>
              if String.eqb slot "" then "default"
              else default slot (match_numeric_suffix slot)
          | None => "default"
          end
      | _ => "default"
      end
  | None => "default"
  end.

(** ** Child-change propagation *)

(** [v && v.isUI5Element], with the node when it holds. *)
Definition isUI5Element (w : World) (v : value) : option loc :=
  match v with
  | VNode n => if bool_decide (is_Some (instance w n)) then Some n else None
  | _ => None
  end.

(** [_attachChildPropertyUpdated(child, propData)] *)
Definition _attachChildPropertyUpdated (el c : loc) (propData : SlotData) (w : World) : World :=
  match instance w c with
  | Some cd =>
      let slotName := _getSlotName w c in
      let childProperties := properties (constructor cd) in
      match listenFor propData with
      | None => w
      | Some lf =>
          let m :=
            match lf with
            | ListenForArray names =>
                {| observedProps := names; notObservedProps := [] |}
            | ListenForObject props exclude =>
                {| observedProps := default (childProperties.*1) props;
                   notObservedProps := default [] exclude |}
            end in
          let record (d : UI5Data) :=
            match _monitoredChildProps d !! slotName with
            | Some _ => d
            | None => with_monitoredChildProps (<[slotName := m]> (_monitoredChildProps d)) d
            end in
          update_node c (with_listener true) (update_node el (with_ui5 record) w)
      end
  | None => w
  end.

(** [_detachChildPropertyUpdated(child)] *)
Definition _detachChildPropertyUpdated (c : loc) (w : World) : World :=
  update_node c (with_listener false) w.

(** [_invalidateParentOnPropertyUpdate(prop)], with [this] the node the
    listener is registered on and [name] the [prop.detail.name]. A parent
    that is no UI5 element has no [_getSlotName]: the listener throws. *)
Definition _invalidateParentOnPropertyUpdate (this : loc) (name : string) (w : World) : World :=
  match nodes w !! this with
  | Some nd =>
      match parentNode nd with
      | None => w
      | Some parent =>
          match instance w parent with
          | Some pd =>
              let slotName := _getSlotName w this in
              match _monitoredChildProps pd !! slotName with
              | None => w
              | Some m =>
                  if bool_decide (name ∈ observedProps m)
                     && negb (bool_decide (name ∈ notObservedProps m))
                  then _invalidate parent w
                  else w
              end
          | None => emit (Uncaught ListenerTypeError) w
          end
      end
  | None => w
  end.

(** Modelled from the DOM: what [dispatchEvent] of a "_propertyChange"
    event does at its target, which is to run the listener when it is
    registered there. (The event also bubbles; a listener on an ancestor
    acts on that ancestor's parent.) *)
Definition deliverPropertyChange (target : loc) (name : string) (w : World) : World :=
  match nodes w !! target with
  | Some nd =>
      if propertyChangeListener nd
      then _invalidateParentOnPropertyUpdate target name w
      else w
  | None => w
  end.

(** ** Property accessors *)

Section Accessors.
(** Of UI5ElementMetadata.js and util/StringHelper.js: the validation of
    a value against a declaration ([None]: it throws), whether a property
    has an attribute, and the attribute name of a property. *)
Variable validatePropertyValue : value -> PropertyData -> option value.
Variable hasAttribute : Class -> string -> bool.
Variable camelToKebabCase : string -> string.

(** [_updateAttribute(name, newValue)] *)
Definition _updateAttribute (el : loc) (name : string) (newValue : value) (w : World) : World :=
  match nodes w !! el, instance w el with
  | Some nd, Some d =>
      if negb (hasAttribute (constructor d) name) then w
      else if typeof_object newValue then w
      else
        let attrName := camelToKebabCase name in
        let attrValue := attributes nd !! attrName in
        let setAttribute (s : string) :=
          emit (SetAttribute el attrName s)
            (update_node el (with_attributes (<[attrName := s]> (attributes nd))) w) in
        let removeAttribute :=
          emit (RemoveAttribute el attrName)
            (update_node el (with_attributes (delete attrName (attributes nd))) w) in
        match newValue with
        | VBool b =>
            if b && bool_decide (attrValue = None) then setAttribute ""
            else if negb b && negb (bool_decide (attrValue = None)) then removeAttribute
            else w
        | _ =>
            if strict_neq (from_option VStr VNull attrValue) newValue
            then setAttribute (to_string newValue)
            else w
        end
  | _, _ => w
  end.

(** [_propertyChange(name, value)] *)
Definition _propertyChange (el : loc) (name : string) (v : value) (w : World) : World :=
  emit (DispatchPropertyChange el name v) (_updateAttribute el name v w).

(** The generated getter of property [prop]. The empty array of a
    [multiple] property is a new one at each call. *)
Definition property_get (prop : string) (propData : PropertyData) (el : loc) (w : World) : value * World :=
  if strict_neq (state_get w el prop) VUndefined then (state_get w el prop, w)
  else
    let propDefaultValue := default VUndefined (defaultValue propData) in
    match type propData with
    | TBoolean => (VBool false, w)
    | TString => (propDefaultValue, w)
    | _ =>
        if multiple propData
        then let '(l, w') := alloc (OArray []) w in (VObj l, w')
        else (propDefaultValue, w)
    end.

(** The generated setter of property [prop]. [None]: the validation
    threw, before anything was written. *)
Definition property_set (prop : string) (propData : PropertyData) (v : value) (el : loc) (w : World) : option World :=
  v' ← validatePropertyValue v propData;
  let oldState := state_get w el prop in
  Some (if strict_neq oldState v'
        then _propertyChange el prop v' (_invalidate el (state_set el prop v' w))
        else w).

(** The generated getter of a slot. *)
Definition slot_get (propertyName : string) (el : loc) (w : World) : value * World :=
  if strict_neq (state_get w el propertyName) VUndefined
  then (state_get w el propertyName, w)
  else let '(l, w') := alloc (OArray []) w in (VObj l, w').

(** The generated setter of a slot. *)
Definition slot_set (propertyName : string) (v : value) (el : loc) (w : World) : World + Error :=
  inr CannotSetSlots.



End Accessors.

(** ** Slot distribution *)

(** The elements of a JavaScript array value; anything else is wrapped,
    as [if (!Array.isArray(children)) children = [children]] does. *)
Definition as_array (w : World) (v : value) : list value :=
  match v with
  | VObj l =>
      match heap w !! l with
      | Some (OArray xs) => xs
      | _ => [v]
      end
  | _ => [v]
  end.

(** [_clearSlot(slotName)] *)
Definition _clearSlot (el : loc) (slotName : string) (w : World) : World :=
  match instance w el with
  | Some d =>
      match entry slotName (slots (constructor d)) with
      | Some slotData =>
          let propertyName := slotPropertyName slotName slotData in
          let children := as_array w (state_get w el propertyName) in
          let w1 :=
            foldl (λ w0 c,
                     match isUI5Element w0 c with
                     | Some n => _detachChildPropertyUpdated n w0
                     | None => w0
                     end) w children in
          let '(arr, w2) := alloc (OArray []) w1 in
          _invalidate el (state_set el propertyName (VObj arr) w2)
      | None => w
      end
  | None => w
  end.

(** An entry [{ child, idx }] of [slottedChildrenMap]. *)
Record SlottedChild := {
  child : value;
  idx : nat
}.

(** The comparator [(a, b) => a.idx - b.idx]. *)
Definition compareFn (a b : SlottedChild) : Z :=
  Z.of_nat (idx a) - Z.of_nat (idx b).

(** [a] may stand before [b]. *)
Definition in_order (a b : SlottedChild) : Prop := compareFn a b <= 0.

#[global] Instance in_order_dec a b : Decision (in_order a b).
Proof. unfold in_order. apply _. Defined.

(** [children.sort(compareFn)]: a stable merge sort. *)
Definition sort (children : list SlottedChild) : list SlottedChild :=
  merge_sort in_order children.

(** A JavaScript [Map] with string keys keeps its entries in insertion
    order. *)
Fixpoint map_get {A} (k : string) (m : list (string * A)) : option A :=
  match m with
  | [] => None
  | (k', a) :: rest => if decide (k' = k) then Some a else map_get k rest
  end.

Fixpoint map_set {A} (k : string) (a : A) (m : list (string * A)) : list (string * A) :=
  match m with
  | [] => [(k, a)]
  | (k', a') :: rest =>
      if decide (k' = k) then (k, a) :: rest else (k', a') :: map_set k a rest
  end.

(** [if (map.has(k)) map.get(k).push(x) else map.set(k, [x])] *)
Definition map_push {A} (k : string) (x : A) (m : list (string * list A)) : list (string * list A) :=
  match map_get k m with
  | Some xs => map_set k (xs ++ [x]) m
  | None => map_set k [x] m
  end.

(** Whether [localName.includes("-")]. *)
Definition isCustomElement (localName : string) : bool :=
  existsb (Ascii.eqb "-") (String.list_ascii_of_string localName).

(** Where the callback of a child stands when [map] has called it: it has
    returned (unknown slot), it goes on without a wait, or it waits at
    [Promise.race] for the definition of [localName] or the timeout that
    resolves at [timeout]. *)
Inductive Started :=
| Returned
| Continues (slotName : string) (slotData : SlotData)
| Awaits (slotName : string) (slotData : SlotData) (localName : string) (timeout : Z).

(** A callback that waits. *)
Record Pending := {
  pending_child : loc;
  pending_idx : nat;
  pending_slotName : string;
  pending_slotData : SlotData;
  pending_localName : string;
  pending_timeout : Z
}.



(** No timeout promise of [elementTimeouts] resolves later than a second
    from now. *)
Definition timeouts_bounded (w : World) : Prop :=
  ∀ name t, elementTimeouts w !! name = Some t -> t <= now w + 1000.

Section Distribution.
(** Of UI5ElementMetadata.js: the validation of a child against the
    declaration of its slot ([None]: it throws). *)
Variable validateSlotValue : value -> SlotData -> option value.

(** The order in which the waiting callbacks are resumed. *)
Variable schedule : list Pending -> list Pending.

(** The callback of [domChildren.map], up to its [await]. *)
Definition start (el c : loc) (autoIncrementMap : gmap string nat) (w : World)
  : Started * gmap string nat * World :=
  match instance w el with
  | Some d =>
      let slotsMap := slots (constructor d) in
      let slotName := _getSlotName w c in
      match entry slotName slotsMap with
      | None => (Returned, autoIncrementMap, emit (ConsoleWarn (UnknownSlotName slotName c)) w)
      | Some slotData =>
          let '(autoIncrementMap, w) :=
            if individualSlots slotData then
              let nextId := (default 0 (autoIncrementMap !! slotName) + 1)%nat in
              (<[slotName := nextId]> autoIncrementMap,
               update_node c (with_individualSlot (Some (slotName +:+ "-" +:+ pretty nextId))) w)
            else (autoIncrementMap, w) in
          match nodes w !! c with
          | Some nd =>
              if bool_decide (kind nd = HTMLElementNode)
                 && isCustomElement (localName nd)
                 && negb (bool_decide (is_Some (customElements w !! localName nd)))
              then
                match elementTimeouts w !! localName nd with
                | Some timeoutPromise =>
                    (Awaits slotName slotData (localName nd) timeoutPromise,
                     autoIncrementMap, w)
                | None =>
                    let timeoutPromise := now w + 1000 in
                    (Awaits slotName slotData (localName nd) timeoutPromise,
                     autoIncrementMap,
                     set_elementTimeouts
                       (<[localName nd := timeoutPromise]> (elementTimeouts w))
                       (emit (SetTimeout (localName nd) 1000) w))
                end
              else (Continues slotName slotData, autoIncrementMap, w)
          | None => (Continues slotName slotData, autoIncrementMap, w)
          end
      end
  | None => (Returned, autoIncrementMap, w)
  end.

(** The state of the pass after [map]: the world, the two local maps,
    and whether a callback has thrown. *)
Record Pass := {
  world : World;
  autoIncrementMap : gmap string nat;
  slottedChildrenMap : list (string * list SlottedChild);
  fulfilled : bool
}.

(** The callback from [customElements.upgrade] on. The upgrade itself is
    the browser's; the node of the child holds the instance it gives. *)
Definition finish (el c : loc) (i : nat) (slotName : string) (slotData : SlotData) (p : Pass) : Pass :=
  match validateSlotValue (VNode c) slotData with
  | Some v =>
      let w :=
        match isUI5Element (world p) v with
        | Some n => _attachChildPropertyUpdated el n slotData (world p)
        | None => world p
        end in
      let propertyName := slotPropertyName slotName slotData in
      {| world := w;
         autoIncrementMap := autoIncrementMap p;
         slottedChildrenMap :=
           map_push propertyName {| child := v; idx := i |} (slottedChildrenMap p);
         fulfilled := fulfilled p |}
  | None =>
      {| world := world p;
         autoIncrementMap := autoIncrementMap p;
         slottedChildrenMap := slottedChildrenMap p;
         fulfilled := false |}
  end.

(** [domChildren.map(async (child, idx) => ...)]: each callback runs to
    its first [await] or, when it has none, to its end, in document
    order. The result is the state of the pass and the callbacks that
    wait. [i] is the index of the first child of the list. *)
Fixpoint map_children (el : loc) (domChildren : list loc) (i : nat) (p : Pass)
  : Pass * list Pending :=
  match domChildren with
  | [] => (p, [])
  | c :: rest =>
      let '(st, autoInc, w) := start el c (autoIncrementMap p) (world p) in
      let p1 := {| world := w; autoIncrementMap := autoInc;
                   slottedChildrenMap := slottedChildrenMap p;
                   fulfilled := fulfilled p |} in
      match st with
      | Returned => map_children el rest (S i) p1
      | Continues slotName slotData =>
          map_children el rest (S i) (finish el c i slotName slotData p1)
      | Awaits slotName slotData localName timeout =>
          let '(p2, waiting) := map_children el rest (S i) p1 in
          (p2, {| pending_child := c; pending_idx := i;
                  pending_slotName := slotName; pending_slotData := slotData;
                  pending_localName := localName;
                  pending_timeout := timeout |} :: waiting)
      end
  end.

(** The waiting callbacks, resumed one after the other. *)
Definition resume (el : loc) (waiting : list Pending) (p : Pass) : Pass :=
  foldl (λ p0 t,
           finish el (pending_child t) (pending_idx t)
             (pending_slotName t) (pending_slotData t) p0)
        p waiting.

(** [slottedChildrenMap.forEach((children, slot) => ...)] *)
Definition commit (el : loc) (slotted : list (string * list SlottedChild)) (w : World) : World :=
  foldl (λ w0 '(slot, children),
           let '(arr, w1) := alloc (OArray (child <$> sort children)) w0 in
           state_set el slot (VObj arr) w1)
        w slotted.

(** Whether a child node is in [this.children]. *)
Definition isElement (w : World) (c : loc) : bool :=
  match nodes w !! c with
  | Some nd => negb (bool_decide (kind nd = TextNode))
  | None => false
  end.

(** [Array.from(canSlotText ? this.childNodes : this.children)] *)
Definition domChildren (w : World) (el : loc) : list loc :=
  match nodes w !! el, instance w el with
  | Some nd, Some d =>
      let canSlotText :=
        match entry "default" (slots (constructor d)) with
        | Some slotData =>
            match slotType slotData with TNode => true | THTMLElement => false end
        | None => false
        end in
      if canSlotText then childNodes nd
      else filter (λ c, isElement w c) (childNodes nd)
  | _, _ => []
  end.

(** [_updateSlots()] up to [await Promise.all(allChildrenUpgraded)]: the
    slots are cleared and [map] has called every callback. *)
Definition allChildrenUpgraded (el : loc) (w : World) : Pass * list Pending :=
  match instance w el with
  | Some d =>
      let slotsMap := slots (constructor d) in
      let children := domChildren w el in
      let w1 := foldl (λ w0 '(slotName, _), _clearSlot el slotName w0) w slotsMap in
      map_children el children 0
        {| world := w1; autoIncrementMap := ∅;
           slottedChildrenMap := []; fulfilled := true |}
  | None =>
      ({| world := w; autoIncrementMap := ∅;
          slottedChildrenMap := []; fulfilled := false |}, [])
  end.

(** [_updateSlots()]. The second component tells whether the promise is
    fulfilled; when a callback threw it is rejected, and neither the
    state is written nor the component invalidated. *)
Definition _updateSlots (el : loc) (w : World) : World * bool :=
  let '(p, waiting) := allChildrenUpgraded el w in
  let p' := resume el (schedule waiting) p in
  if fulfilled p'
  then (_invalidate el (commit el (slottedChildrenMap p') (world p')), true)
  else (world p', false).

(** The slot a child goes to: the name and the declaration. *)
Definition slotOf (w : World) (el c : loc) : option (string * SlotData) :=
  d ← instance w el;
  slotData ← entry (_getSlotName w c) (slots (constructor d));
  Some (_getSlotName w c, slotData).

End Distribution.

(** ** The state store *)

(** The value [_getDefaultState] gives to a property. *)
Definition defaultValueOf (propData : PropertyData) (w : World) : value * World :=
  let propDefaultValue := default VUndefined (defaultValue propData) in
  match type propData with
  | TBoolean =>
      (VBool false,
       if strict_neq propDefaultValue VUndefined
       then emit (ConsoleWarn BooleanDefaultValueIgnored) w
       else w)
  | ty =>
      if multiple propData
      then let '(l, w') := alloc (OArray []) w in (VObj l, w')
      else
        match ty, defaultValue propData with
        | TObject, Some dv => (dv, w)
        | TObject, None => let '(l, w') := alloc (OObject ∅) w in (VObj l, w')
        | TString, Some dv => (dv, w)
        | TString, None => (VStr "", w)
        | _, _ => (propDefaultValue, w)
        end
  end.

(** The loop over the properties in [_getDefaultState]: the fields so far
    and the world. *)
Fixpoint defaultProperties (props : list (string * PropertyData))
    (defaultState : gmap string value) (w : World) : gmap string value * World :=
  match props with
  | [] => (defaultState, w)
  | (propName, propData) :: rest =>
      let '(v, w1) := defaultValueOf propData w in
      defaultProperties rest (<[propName := v]> defaultState) w1
  end.

(** The loop over the slots in [_getDefaultState]. *)
Fixpoint defaultSlots (slotsMap : list (string * SlotData))
    (defaultState : gmap string value) (w : World) : gmap string value * World :=
  match slotsMap with
  | [] => (defaultState, w)
  | (slotName, slotData) :: rest =>
      let propertyName := slotPropertyName slotName slotData in
      let '(l, w1) := alloc (OArray []) w in
      defaultSlots rest (<[propertyName := VObj l]> defaultState) w1
  end.

(** [static _getDefaultState()]: the location of the snapshot. The cache is
    looked up by class (the model has no subclass relation, so a cached
    snapshot is never found through a parent class). *)
Definition _getDefaultState (cls : Class) (w : World) : loc * World :=
  match _defaultState w !! className cls with
  | Some l => (l, w)
  | None =>
      let '(l0, w0) := alloc (OObject ∅) w in
      let '(fields1, w1) := defaultProperties (properties cls) ∅ w0 in
      let '(fields2, w2) := defaultSlots (slots cls) fields1 w1 in
      let w3 := set_heap (<[l0 := OObject fields2]> (heap w2)) w2 in
      (l0, set_defaultState (<[className cls := l0]> (_defaultState w3)) w3)
  end.

(** [Object.assign({}, source)] *)
Definition Object_assign_empty (source : loc) (w : World) : loc * World :=
  let fields :=
    match heap w !! source with
    | Some (OObject fields) => fields
    | _ => ∅
    end in
  alloc (OObject fields) w.

(** [_initializeState()]: the location of the new [_state]. *)
Definition _initializeState (cls : Class) (w : World) : loc * World :=
  let '(defaultState, w1) := _getDefaultState cls w in
  Object_assign_empty defaultState w1.

(** The constructor, run on the element [el] of the document: the state,
    the shadow root of a class with a template, and the empty map of
    monitored child properties (the id, the properties set before the
    upgrade and the static area item are left out). *)
Definition new_UI5Element (cls : Class) (el : loc) (w : World) : World :=
  let '(st, w1) := _initializeState cls w in
  update_node el
    (λ nd,
       {| kind := kind nd; localName := localName nd;
          attributes := attributes nd; parentNode := parentNode nd;
          childNodes := childNodes nd; _individualSlot := _individualSlot nd;
          propertyChangeListener := propertyChangeListener nd;
          ui5 := Some {| constructor := cls; _state := st;
                         _invalidated := false;
                         _suppressInvalidation := false;
                         _monitoredChildProps := ∅;
                         shadowRoot := if template cls then Some 0%nat else None |} |})
    w1.

(** [array.push(v)] on an array of the store, as component code may do on
    a value it reads from the state. *)
Definition Array_push (l : loc) (v : value) (w : World) : World :=
  match heap w !! l with
  | Some (OArray xs) => set_heap (<[l := OArray (xs ++ [v])]> (heap w)) w
  | _ => w
  end.

(** [object[k] = v] on a plain object of the store. *)
Definition Object_set (l : loc) (k : string) (v : value) (w : World) : World :=
  match heap w !! l with
  | Some (OObject fields) => set_heap (<[l := OObject (<[k := v]> fields)]> (heap w)) w
  | _ => w
  end.

(** What a reader of [o[k]] sees, arrays by their elements. *)
Definition read (w : World) (o : loc) (k : string) : option (value + list value) :=
  match heap w !! o with
  | Some (OObject fields) =>
      match fields !! k with
      | Some (VObj l) =>
          match heap w !! l with
          | Some (OArray xs) => Some (inr xs)
          | _ => Some (inl (VObj l))
          end
      | Some v => Some (inl v)
      | None => None
      end
  | _ => None
  end.

(** ** Class setup *)

Section Definition_.
(** Of util/isValidPropertyName.js. *)
Variable isValidPropertyName : string -> bool.

(** The loop over the properties in [_generateAccessors]: the accessors
    on the prototype so far, and the error when one is thrown. *)
Fixpoint generatePropertyAccessors (props : list (string * PropertyData))
    (proto : list Accessor) : list Accessor * option Error :=
  match props with
  | [] => (proto, None)
  | (prop, propData) :: rest =>
      if negb (isValidPropertyName prop)
      then (proto, Some (InvalidPropertyName prop))
      else if bool_decide (type propData = TLiteral "boolean")
              && truthy (default VUndefined (defaultValue propData))
      then (proto, Some (BooleanDefaultValue prop))
      else generatePropertyAccessors rest (proto ++ [PropertyAccessor prop propData])
  end.

(** The loop over the slots in [_generateAccessors]. *)
Fixpoint generateSlotAccessors (slotsMap : list (string * SlotData))
    (proto : list Accessor) : list Accessor * option Error :=
  match slotsMap with
  | [] => (proto, None)
  | (slotName, slotData) :: rest =>
      if negb (isValidPropertyName slotName)
      then (proto, Some (InvalidPropertyName slotName))
      else generateSlotAccessors rest
             (proto ++ [SlotAccessor (slotPropertyName slotName slotData)])
  end.

(** [static _generateAccessors()]: the world with the accessors that were
    defined, and the error when one is thrown. *)
Definition _generateAccessors (cls : Class) (w : World) : World * option Error :=
  let proto := default [] (prototype w !! className cls) in
  let '(proto1, e1) := generatePropertyAccessors (properties cls) proto in
  let '(proto2, e2) :=
    match e1 with
    | Some e => (proto1, Some e)
    | None => generateSlotAccessors (slots cls) proto1
    end in
  (set_prototype (<[className cls := proto2]> (prototype w)) w, e2).

(** [static async define()]. An error rejects the promise. *)
Definition define (cls : Class) (w : World) : World * option Error :=
  let w := emit Boot w in
  let w := if onDefine cls then emit (OnDefine (className cls)) w else w in
  let definedLocally := bool_decide (tag cls ∈ DefinitionsSet w) in
  let definedGlobally := bool_decide (is_Some (customElements w !! tag cls)) in
  if definedGlobally && negb definedLocally
  then (emit (ConsoleWarn (SkippingDefinition (tag cls))) w, None)
  else if negb definedGlobally
  then
    match _generateAccessors cls w with
    | (w1, Some e) => (w1, Some e)
    | (w1, None) =>
        (emit (CustomElementsDefine (tag cls) (className cls))
           (set_definitions ({[tag cls]} ∪ DefinitionsSet w1)
              (<[tag cls := className cls]> (customElements w1)) w1),
         None)
    end
  else (w, None).
End Definition_.

(** ** Rendering *)

Section Rendering.
(** Of the browser: whether [document.adoptedStyleSheets] and
    [window.ShadyDOM] exist. *)
Variable adoptedStyleSheets : bool.
Variable ShadyDOM : bool.

(** [_updateShadowRoot()]. Modelled from the spec: the external renderer
    is invoked with the output of the template, built from the state the
    component has then, and the shadow root as its target; afterwards the
    shadow root holds the rendered root element, after the style element
    when a style is prepended. *)
Definition _updateShadowRoot (el : loc) (w : World) : World :=
  let styleToPrepend := negb adoptedStyleSheets && negb ShadyDOM in
  update_node el
    (with_ui5 (with_shadowRoot (Some (if styleToPrepend then 2 else 1)%nat)))
    (emit (Render el (state_fields w el) styleToPrepend) w).

(** [_assignIndividualSlotsToChildren()] *)
Definition _assignIndividualSlotsToChildren (el : loc) (w : World) : World :=
  match nodes w !! el with
  | Some nd =>
      foldl (λ w0 c,
               match nodes w0 !! c with
               | Some cn =>
                   match _individualSlot cn with
                   | Some s =>
                       if String.eqb s "" then w0
                       else emit (SetAttribute c "slot" s)
                              (update_node c (with_attributes (<["slot" := s]> (attributes cn))) w0)
                   | None => w0
                   end
               | None => w0
               end)
            w (filter (λ c, isElement w c) (childNodes nd))
  | None => w
  end.

(** A lifecycle hook of the component class, when the class has it: code
    of the component, recorded as a call. *)
Definition hook (present : bool) (el : loc) (name : string) (w : World) : World :=
  if present then emit (Hook el name) w else w.

(** [_render()] *)
Definition _render (el : loc) (w : World) : World :=
  match instance w el with
  | Some d =>
      let cls := constructor d in
      let w := update_node el (with_ui5 (with_suppressInvalidation true)) w in
      let w := hook (onBeforeRendering cls) el "onBeforeRendering" w in
      let w := hook (_onComponentStateFinalized cls) el "_onComponentStateFinalized" w in
      let w := update_node el (with_ui5 (with_suppressInvalidation false)) w in
      let w := update_node el (with_ui5 (with_invalidated false)) w in
      let w := _updateShadowRoot el w in
      let w := if staticAreaTemplate cls then emit (UpdateFragment el) w else w in
      let w := _assignIndividualSlotsToChildren el w in
      hook (onAfterRendering cls) el "onAfterRendering" w
  | None => w
  end.

End Rendering.

(** ** Sample classes and worlds *)

(** The world before anything is defined or constructed, with the nodes
    that are given. *)
Definition world_of (n : gmap loc Node) : World :=
  {| heap := ∅; nodes := n; _defaultState := ∅; prototype := ∅;
     DefinitionsSet := ∅; elementTimeouts := ∅; customElements := ∅;
     now := 0; renderQueue := []; trace := [] |}.

(** A class with the given tag and declarations, a template and no
    hooks. *)
Definition class_of (name tagName : string)
    (props : list (string * PropertyData)) (slotsMap : list (string * SlotData)) : Class :=
  {| className := name; tag := tagName; properties := props; slots := slotsMap;
     template := true; staticAreaTemplate := false; onDefine := false;
     onBeforeRendering := false; _onComponentStateFinalized := false;
     onAfterRendering := false |}.

(** An element of the light DOM that is not upgraded. *)
Definition element_of (name : string) (attrs : gmap string string)
    (parent : option loc) (children : list loc) : Node :=
  {| kind := HTMLElementNode; localName := name; attributes := attrs;
     parentNode := parent; childNodes := children; _individualSlot := None;
     propertyChangeListener := false; ui5 := None |}.

(** The warnings of a trace. *)
Definition warnings (t : list Effect) : list Warning :=
  omap (λ e, match e with ConsoleWarn m => Some m | _ => None end) t.

(** The renders of a trace. *)
Definition renders (t : list Effect) : list (loc * gmap string value) :=
  omap (λ e, match e with Render el st _ => Some (el, st) | _ => None end) t.

(** A property [active] of type [Boolean] that is declared with the
    default value [true]. *)
Definition booleanWithDefault : Class :=
  class_of "Switch" "ui5-switch"
    [("active", {| type := TBoolean; multiple := false;
                   defaultValue := Some (VBool true) |})] [].

(** A class with a property and a slot. *)
Definition sampleClass : Class :=
  class_of "Button" "ui5-button"
    [("text", {| type := TString; multiple := false; defaultValue := None |})]
    [("default", {| propertyName := None; slotType := TNode;
                    individualSlots := false; listenFor := None |})].

(** A class with a [multiple] property, an [Object] property and a slot. *)
Definition listClass : Class :=
  class_of "List" "ui5-list"
    [("items", {| type := TString; multiple := true; defaultValue := None |});
     ("config", {| type := TObject; multiple := false; defaultValue := None |})]
    [("default", {| propertyName := Some "rows"; slotType := THTMLElement;
                    individualSlots := false; listenFor := None |})].

(** Two elements of that class, constructed one after the other. *)
Definition twoLists : World :=
  new_UI5Element listClass 2
    (new_UI5Element listClass 1
       (world_of {[ 1%positive := element_of "ui5-list" ∅ None [];
                    2%positive := element_of "ui5-list" ∅ None [] ]})).

(** An element of [sampleClass], constructed and not rendered yet, and the
    same after its first render (in a browser with adopted style
    sheets). *)
Definition newButton : World :=
  new_UI5Element sampleClass 1
    (world_of {[ 1%positive := element_of "ui5-button" ∅ None [] ]}).

Definition renderedButton : World := _render true false 1 newButton.

(** The declaration of the property [text] of [sampleClass]. *)
Definition textProperty : PropertyData :=
  {| type := TString; multiple := false; defaultValue := None |}.

(** The instance fields of the rendered button, and the fields of its
    state. *)
Definition renderedButtonData : UI5Data :=
  {| constructor := sampleClass; _state := 3; _invalidated := false;
     _suppressInvalidation := false; _monitoredChildProps := ∅;
     shadowRoot := Some 1%nat |}.

Definition renderedButtonFields : gmap string value :=
  <["default" := VObj 2]> (<["text" := VStr ""]> ∅).

(** A list whose default slot listens for the properties of its items,
    all but [text]; the class of the items. *)
Definition itemClass : Class :=
  class_of "ListItem" "ui5-li"
    [("selected", {| type := TBoolean; multiple := false; defaultValue := None |});
     ("text", {| type := TString; multiple := false; defaultValue := None |})]
    [].

Definition watchedSlot : SlotData :=
  {| propertyName := Some "items"; slotType := THTMLElement;
     individualSlots := false;
     listenFor := Some (ListenForObject None (Some ["text"])) |}.

Definition watchingClass : Class :=
  class_of "WatchingList" "ui5-watching-list" [] [("default", watchedSlot)].

(** A rendered list (node 1) with one item (node 2) in its light DOM,
    both upgraded; and the same after the distribution of the item (with
    a validation that accepts every child). *)
Definition family : World :=
  _render true false 1
    (new_UI5Element itemClass 2
       (new_UI5Element watchingClass 1
          (set_definitions {[ "ui5-li"; "ui5-watching-list" ]}
             {[ "ui5-li" := "ListItem"; "ui5-watching-list" := "WatchingList" ]}
             (world_of {[ 1%positive := element_of "ui5-watching-list" ∅ None [2%positive];
                          2%positive := element_of "ui5-li" ∅ (Some 1%positive) [] ]})))).

Definition distributedFamily : World :=
  (_updateSlots (λ v _, Some v) (λ waiting, waiting) 1 family).1.

(** [w'] has the heap, the clock and the registry of [w], every child
    goes to the slot it went to, and every instance has its class and its
    state object. *)
Definition same_dom (w w' : World) : Prop :=
  heap w' = heap w
  ∧ now w' = now w
  ∧ customElements w' = customElements w
  ∧ (∀ m, _getSlotName w' m = _getSlotName w m)
  ∧ (∀ m, constructor <$> instance w' m = constructor <$> instance w m)
  ∧ (∀ m, _state <$> instance w' m = _state <$> instance w m).

(** ** The plan of a distribution pass *)

(** The entries of a slot property in [slottedChildrenMap]. *)
Definition bucket {A} (k : string) (m : list (string * list A)) : list A :=
  default [] (map_get k m).

(** The entry that the child [c], at index [i], adds for the property
    [p], if it adds one. *)
Definition item (validateSlotValue : value -> SlotData -> option value)
    (w : World) (el : loc) (p : string) (c : loc) (i : nat) : option SlottedChild :=
  '(slotName, slotData) ← slotOf w el c;
  if decide (slotPropertyName slotName slotData = p)
  then v ← validateSlotValue (VNode c) slotData; Some {| child := v; idx := i |}
  else None.

(** The entries of the children [cs], the first at index [i], in document
    order. *)
Fixpoint items (validateSlotValue : value -> SlotData -> option value)
    (w : World) (el : loc) (p : string) (cs : list loc) (i : nat) : list SlottedChild :=
  match cs with
  | [] => []
  | c :: rest =>
      match item validateSlotValue w el p c i with
      | Some x => x :: items validateSlotValue w el p rest (S i)
      | None => items validateSlotValue w el p rest (S i)
      end
  end.

(** The entry that a waiting callback adds for the property [p] when it
    is resumed. *)
Definition pending_item (validateSlotValue : value -> SlotData -> option value)
    (p : string) (t : Pending) : option SlottedChild :=
  if decide (slotPropertyName (pending_slotName t) (pending_slotData t) = p)
  then v ← validateSlotValue (VNode (pending_child t)) (pending_slotData t);
       Some {| child := v; idx := pending_idx t |}
  else None.

(** No key of the map has an empty list. *)
Definition no_empty_bucket {A} (m : list (string * list A)) : Prop :=
  Forall (λ '(_, xs), xs ≠ []) m.

(** The field [p] of a state object holds an empty array of the store. *)
Definition empty_field (w : World) (fields : gmap string value) (p : string) : Prop :=
  ∃ arr, fields !! p = Some (VObj arr) ∧ heap w !! arr = Some (OArray []).


(** A panel with a slot [x] of individual slots and a default slot. Its
    light DOM holds [a] (node 2, slot="x-2"), [b] (node 3, slot="x-1") and
    [c] (node 4, no slot attribute); [a] and [b] are custom elements whose
    type is not defined. *)
Definition slotX : SlotData :=
  {| propertyName := None; slotType := THTMLElement;
     individualSlots := true; listenFor := None |}.

Definition panelClass : Class :=
  class_of "Panel" "ui5-panel" []
    [("x", slotX);
     ("default", {| propertyName := None; slotType := TNode;
                    individualSlots := false; listenFor := None |})].

Definition panel : World :=
  new_UI5Element panelClass 1
    (world_of {[ 1%positive := element_of "ui5-panel" ∅ None [2%positive; 3%positive; 4%positive];
                 2%positive := element_of "my-item" {[ "slot" := "x-2" ]} (Some 1%positive) [];
                 3%positive := element_of "my-item" {[ "slot" := "x-1" ]} (Some 1%positive) [];
                 4%positive := element_of "span" ∅ (Some 1%positive) [] ]}).

(** A validation that accepts every child. *)
Definition acceptAll (v : value) (slotData : SlotData) : option value := Some v.

(** The instance fields of the panel, and the fields of its state. *)
Definition panelData : UI5Data :=
  {| constructor := panelClass; _state := 4; _invalidated := false;
     _suppressInvalidation := false; _monitoredChildProps := ∅;
     shadowRoot := Some 0%nat |}.

Definition panelFields : gmap string value :=
  <["default" := VObj 3]> (<["x" := VObj 2]> ∅).

(** ** Relations between worlds, and the sets of a [listenFor] *)

(** The objects of [w] are still what they were in [w']. *)
Definition extends (w w' : World) : Prop :=
  ∀ l o, heap w !! l = Some o -> heap w' !! l = Some o.

(** Every cached snapshot is an object of the store. *)
Definition snapshots_wf (w : World) : Prop :=
  ∀ c l, _defaultState w !! c = Some l -> ∃ fields, heap w !! l = Some (OObject fields).

(** [w'] shows the same state objects and the same renders as [w]. *)
Definition same_view (w w' : World) : Prop :=
  heap w' = heap w
  ∧ (∀ m, _state <$> instance w' m = _state <$> instance w m)
  ∧ renders (trace w') = renders (trace w).



(** ** Further members of UI5Element *)

Section Ids.
(** Of util/StringHelper.js. *)
Variable kebabToCamelCase : string -> string.

(** [static _nextID()], on the module-level [IDMap]: the id and the new
    map. *)
Definition _nextID (cls : Class) (IDMap : gmap string nat) : string * gmap string nat :=
  let name := kebabToCamelCase (tag cls) in
  let lastNumber := IDMap !! name in
  let nextNumber :=
    match lastNumber with
    | Some n => (n + 1)%nat
    | None => 1%nat
    end in
  ("__" +:+ name +:+ pretty nextNumber, <[name := nextNumber]> IDMap).

(** The ids of [n] instances of a class that are constructed one after
    the other ([_generateId] in the constructor). *)
Fixpoint generateIds (cls : Class) (n : nat) (IDMap : gmap string nat)
  : list string * gmap string nat :=
  match n with
  | O => ([], IDMap)
  | S n' =>
      let '(id, IDMap1) := _nextID cls IDMap in
      let '(ids, IDMap2) := generateIds cls n' IDMap1 in
      (id :: ids, IDMap2)
  end.
End Ids.

Section Events.
(** Of config/NoConflict.js, and the [dispatchEvent] of the element for an
    event of the given type, detail and cancelable flag: [false] when a
    listener prevented the event. *)
Variable skipOriginalEvent : string -> bool.
Variable dispatchEvent : string -> value -> bool -> bool.

(** [fireEvent(name, data, cancelable)]: the result, and the types of the
    events that were dispatched, in order. *)
Definition fireEvent (name : string) (data : value) (cancelable : bool)
  : bool * list string :=
  let compatEventResult := dispatchEvent ("ui5-" +:+ name) data cancelable in
  if skipOriginalEvent name
  then (compatEventResult, ["ui5-" +:+ name])
  else
    let normalEventResult := dispatchEvent name data cancelable in
    (normalEventResult && compatEventResult, ["ui5-" +:+ name; name]).
End Events.

Section SlottedNodes.
(** [curr.assignedNodes({ flatten: true })] of a slot element: the
    browser's. *)
Variable assignedNodes : loc -> list loc.

(** Whether [curr.localName !== "slot"] fails: the value is an element
    with the local name "slot". *)
Definition isSlotElement (w : World) (v : value) : option loc :=
  match v with
  | VNode n =>
      match nodes w !! n with
      | Some nd =>
          if negb (bool_decide (kind nd = TextNode)) && String.eqb (localName nd) "slot"
          then Some n else None
      | None => None
      end
  | _ => None
  end.

(** [item instanceof HTMLElement] *)
Definition isHTMLElement (w : World) (n : loc) : bool :=
  match nodes w !! n with
  | Some nd => bool_decide (kind nd = HTMLElementNode)
  | None => false
  end.

(** The reducer of [getSlottedNodes]. *)
Definition reducer (w : World) (acc : list value) (curr : value) : list value :=
  match isSlotElement w curr with
  | None => acc ++ [curr]
  | Some n => acc ++ (VNode <$> filter (λ item, isHTMLElement w item) (assignedNodes n))
  end.

(** [getSlottedNodes(slotName)], for the accessor of a slot: [None] when
    what the accessor gives is no array ([reduce] is no function). *)
Definition getSlottedNodes (slotName : string) (el : loc) (w : World)
  : option (list value) :=
  let '(v, w') := slot_get slotName el w in
  match v with
  | VObj l =>
      match heap w' !! l with
      | Some (OArray xs) => Some (foldl (reducer w) [] xs)
      | _ => None
      end
  | _ => None
  end.
End SlottedNodes.

Section AttributeChanges.
Variable validatePropertyValue : value -> PropertyData -> option value.
Variable hasAttribute : Class -> string -> bool.
Variable camelToKebabCase : string -> string.
Variable kebabToCamelCase : string -> string.
(** [parseInt(newValue)], on the value of an attribute or [null]. *)
Variable parseInt : option string -> value.

(** [name.replace(/^ui5-/, "")] *)
Definition realName (name : string) : string :=
  match name with
  | String "u" (String "i" (String "5" (String "-" rest))) => rest
  | _ => name
  end.

(** [attributeChangedCallback(name, oldValue, newValue)]; [newValue = None]
    is [null], the attribute was removed. The assignment at the end goes
    through the setter of the property. *)
Definition attributeChangedCallback (name : string) (newValue : option string)
    (el : loc) (w : World) : option World :=
  match instance w el with
  | Some d =>
      let nameInCamelCase := kebabToCamelCase (realName name) in
      match entry nameInCamelCase (properties (constructor d)) with
      | Some propData =>
          let v :=
            match type propData with
            | TBoolean => VBool (bool_decide (is_Some newValue))
            | TInteger => parseInt newValue
            | _ => from_option VStr VNull newValue
            end in
          property_set validatePropertyValue hasAttribute camelToKebabCase
            nameInCamelCase propData v el w
      | None => Some w
      end
  | None => Some w
  end.

(** [_upgradeProperty(prop)], with the own properties that were set on the
    element before its class was defined: such a value is taken off the
    element and assigned again, now through the setter. *)
Definition _upgradeProperty (prop : string) (propData : PropertyData) (el : loc)
    (s : gmap string value * World) : option (gmap string value * World) :=
  match s.1 !! prop with
  | Some v =>
      w' ← property_set validatePropertyValue hasAttribute camelToKebabCase
             prop propData v el s.2;
      Some (delete prop s.1, w')
  | None => Some s
  end.

(** [_upgradeAllProperties()] *)
Definition _upgradeAllProperties (own : gmap string value) (el : loc) (w : World)
  : option (gmap string value * World) :=
  match instance w el with
  | Some d =>
      foldl (λ s '(prop, propData), s ≫= _upgradeProperty prop propData el)
            (Some (own, w)) (properties (constructor d))
  | None => Some (own, w)
  end.
End AttributeChanges.

(** The node of the rendered button. *)
Definition renderedButtonNode : Node :=
  {| kind := HTMLElementNode; localName := "ui5-button"; attributes := ∅;
     parentNode := None; childNodes := []; _individualSlot := None;
     propertyChangeListener := false; ui5 := Some renderedButtonData |}.

(** A switch, constructed and not rendered. *)
Definition newSwitch : World :=
  new_UI5Element booleanWithDefault 1
    (world_of {[ 1%positive := element_of "ui5-switch" ∅ None [] ]}).

Definition newSwitchData : UI5Data :=
  {| constructor := booleanWithDefault; _state := 2; _invalidated := false;
     _suppressInvalidation := false; _monitoredChildProps := ∅;
     shadowRoot := Some 0%nat |}.

Definition newSwitchFields : gmap string value := {[ "active" := VBool false ]}.

(** The instance fields of the button before its first render. *)
Definition newButtonData : UI5Data :=
  {| constructor := sampleClass; _state := 3; _invalidated := false;
     _suppressInvalidation := false; _monitoredChildProps := ∅;
     shadowRoot := Some 0%nat |}.

(** The node [m] after [_assignIndividualSlotsToChildren] has gone through
    the element children [children]: with its individual slot as the slot
    attribute, when it is one of them and has one. *)
Definition assigned (children : list loc) (m : loc) (mn : Node) : Node :=
  match _individualSlot mn with
  | Some s =>
      if bool_decide (m ∈ children) && negb (String.eqb s "")
      then with_attributes (<["slot" := s]> (attributes mn)) mn
      else mn
  | None => mn
  end.

(** A button whose light DOM holds a child for a slot that the class does
    not declare. *)
Definition buttonWithFooter : World :=
  new_UI5Element sampleClass 1
    (world_of {[ 1%positive := element_of "ui5-button" ∅ None [2%positive];
                 2%positive := element_of "span" {[ "slot" := "footer" ]}
                                 (Some 1%positive) [] ]}).

(** The panel after a pass and a render, when the slot attribute of [a]
    (node 2, which has the individual slot "x-1") is then removed: [a] is to
    go to the default slot. *)
Definition movedChild : World :=
  update_node 2 (with_attributes ∅)
    (_render true false 1 (_updateSlots acceptAll (λ waiting, waiting) 1 panel).1).

(** ** What a distribution pass does besides filling the slots *)

(** The flags of an instance that [_invalidate] reads. *)
Definition flags (d : UI5Data) : bool * bool * bool :=
  (_invalidated d, _suppressInvalidation d, rendered d).

(** [w'] has the render queue and the warnings of [w], every instance has
    its flags and every node its individual slot. *)
Definition calm (w w' : World) : Prop :=
  renderQueue w' = renderQueue w
  ∧ warnings (trace w') = warnings (trace w)
  ∧ (∀ m, flags <$> instance w' m = flags <$> instance w m)
  ∧ ∀ m, _individualSlot <$> nodes w' !! m = _individualSlot <$> nodes w !! m.

(** [w'] has the warnings of [w], and every node its individual slot. *)
Definition quiet (w w' : World) : Prop :=
  warnings (trace w') = warnings (trace w)
  ∧ ∀ m, _individualSlot <$> nodes w' !! m = _individualSlot <$> nodes w !! m.

(** Between [w] and [w'], [_invalidate] was called on [el] when [b] says
    so, and nothing else touched the queue or the flags of [el]; [d] holds
    the fields of [el] in [w]. *)
Definition invalidation (el : loc) (d : UI5Data) (b : bool) (w w' : World) : Prop :=
  let enqueues :=
    b && negb (_invalidated d) && rendered d && negb (_suppressInvalidation d) in
  renderQueue w' = renderQueue w ++ (if enqueues then [el] else [])
  ∧ ∃ d', instance w' el = Some d'
          ∧ _invalidated d' = _invalidated d || enqueues
          ∧ _suppressInvalidation d' = _suppressInvalidation d
          ∧ rendered d' = rendered d.

(** What the document shows of a node: its kind, name, attributes, parent
    and children. *)
Definition light (nd : Node)
  : NodeKind * string * gmap string string * option loc * list loc :=
  (kind nd, localName nd, attributes nd, parentNode nd, childNodes nd).

(** [w'] has the document of [w]. *)
Definition same_light (w w' : World) : Prop :=
  ∀ m, light <$> nodes w' !! m = light <$> nodes w !! m.

(** The warning for a child whose slot the class does not declare. *)
Definition unknown (w : World) (el c : loc) : option Warning :=
  match slotOf w el c with
  | None => Some (UnknownSlotName (_getSlotName w c) c)
  | Some _ => None
  end.

(** How many of the children [cs] name the slot [s]. *)
Definition numbered (w : World) (s : string) (cs : list loc) : nat :=
  length (filter (λ c, _getSlotName w c = s) cs).


(** * Properties *)

(** ** The animation mode *)

Lemma getAnimationMode_undefined configured st :
  AnimationMode.animationMode st = VUndefined ->
  (AnimationMode.getAnimationMode configured st).1 = VUndefined
  ∧ AnimationMode.animationMode (AnimationMode.getAnimationMode configured st).2 = VUndefined.
Proof.
  intros H. unfold AnimationMode.getAnimationMode. rewrite H. simpl. by rewrite ?H.
Qed.

(** C10 (as the code has it): whatever the initial configuration holds,
    the getter never stores it: every one of [n] calls in a row returns
    [undefined], the cached variable stays [undefined], and each call asks
    the configuration again. *)
Theorem getAnimationMode_never_initialized (configured : value) (n : nat) :
  (AnimationMode.calls configured n AnimationMode.initial).1 = replicate n VUndefined
  ∧ AnimationMode.animationMode
      (AnimationMode.calls configured n AnimationMode.initial).2 = VUndefined
  ∧ AnimationMode.configurationReads
      (AnimationMode.calls configured n AnimationMode.initial).2 = n.
Proof.
  assert (G : ∀ st, AnimationMode.animationMode st = VUndefined ->
    (AnimationMode.calls configured n st).1 = replicate n VUndefined
    ∧ AnimationMode.animationMode (AnimationMode.calls configured n st).2 = VUndefined
    ∧ AnimationMode.configurationReads (AnimationMode.calls configured n st).2
      = (AnimationMode.configurationReads st + n)%nat).
  { induction n as [|n IH]; intros st Hst.
    - simpl. repeat split; [done | lia].
    - pose proof (getAnimationMode_undefined configured st Hst) as [Hv Hs].
      assert (AnimationMode.configurationReads
                (AnimationMode.getAnimationMode configured st).2
              = S (AnimationMode.configurationReads st)) as Hr.
      { unfold AnimationMode.getAnimationMode. by rewrite Hst. }
      cbn [AnimationMode.calls].
      destruct (AnimationMode.getAnimationMode configured st) as [v st1].
      simpl in Hv, Hs, Hr. subst v.
      specialize (IH st1 Hs).
      destruct (AnimationMode.calls configured n st1) as [vs st2].
      simpl in IH. destruct IH as (IH1 & IH2 & IH3). simpl.
      split; [by rewrite IH1 | split; [done | lia]]. }
  specialize (G AnimationMode.initial eq_refl). simpl in G. exact G.
Qed.

(** ** Class setup *)

(** C7 (as the code has it): for a property of type [Boolean] with the
    default value [true], and with every name valid, accessor generation
    does not throw (the test is against the string "boolean"); the
    accessor is defined, [define] registers the class, and the default
    state holds [false] with a warning. *)
Theorem Boolean_default_is_not_rejected :
  (_generateAccessors (λ _, true) booleanWithDefault (world_of ∅)).2 = None
  ∧ prototype (_generateAccessors (λ _, true) booleanWithDefault (world_of ∅)).1
      !! "Switch"
    = Some [PropertyAccessor "active"
              {| type := TBoolean; multiple := false;
                 defaultValue := Some (VBool true) |}]
  ∧ (define (λ _, true) booleanWithDefault (world_of ∅)).2 = None
  ∧ customElements (define (λ _, true) booleanWithDefault (world_of ∅)).1
      !! "ui5-switch" = Some "Switch"
  ∧ (let '(l, w) := _getDefaultState booleanWithDefault (world_of ∅) in
     read w l "active" = Some (inl (VBool false))
     ∧ warnings (trace w) = [BooleanDefaultValueIgnored]).
Proof. vm_compute. repeat split; reflexivity. Qed.

(** The part of the claim that holds: an invalid property name aborts the
    generation at that property. *)
Lemma invalid_property_name_throws isValid props1 prop propData props2 proto :
  Forall (λ '(p, pd), isValid p = true ∧ type pd ≠ TLiteral "boolean") props1 ->
  isValid prop = false ->
  (generatePropertyAccessors isValid (props1 ++ (prop, propData) :: props2) proto).2
  = Some (InvalidPropertyName prop).
Proof.
  intros H Hinv. revert proto.
  induction H as [|[p pd] props1 [Hv Ht] _ IH]; intros proto; simpl.
  - by rewrite Hinv.
  - rewrite Hv. simpl. rewrite bool_decide_eq_false_2 by done. simpl. apply IH.
Qed.

(** An invalid slot name aborts it as well. *)
Lemma invalid_slot_name_throws isValid slots1 slotName slotData slots2 proto :
  Forall (λ '(s, _), isValid s = true) slots1 ->
  isValid slotName = false ->
  (generateSlotAccessors isValid (slots1 ++ (slotName, slotData) :: slots2) proto).2
  = Some (InvalidPropertyName slotName).
Proof.
  intros H Hinv. revert proto.
  induction H as [|[s sd] slots1 Hv _ IH]; intros proto; simpl.
  - by rewrite Hinv.
  - rewrite Hv. simpl. apply IH.
Qed.

(** No declaration whose type is one of the constructors makes the
    generation throw for its default value. *)
Lemma generatePropertyAccessors_valid isValid props proto :
  Forall (λ '(p, pd), isValid p = true ∧ type pd ≠ TLiteral "boolean") props ->
  generatePropertyAccessors isValid props proto
  = (proto ++ map (λ '(p, pd), PropertyAccessor p pd) props, None).
Proof.
  intros H. revert proto.
  induction H as [|[p pd] props [Hv Ht] _ IH]; intros proto; simpl.
  - by rewrite app_nil_r.
  - rewrite Hv. simpl. rewrite bool_decide_eq_false_2 by done. simpl.
    rewrite IH. by rewrite <- app_assoc.
Qed.

(** The effective default of a Boolean property is [false]. *)
Lemma defaultProperties_other props prop fields w :
  prop ∉ props.*1 ->
  (defaultProperties props fields w).1 !! prop = fields !! prop.
Proof.
  revert fields w. induction props as [|[p pd] props IH]; intros fields w Hnotin; [done|].
  simpl in *. apply not_elem_of_cons in Hnotin as [Hne Hnotin].
  destruct (defaultValueOf pd w) as [v w1].
  rewrite IH by done. by rewrite lookup_insert_ne.
Qed.

Lemma defaultProperties_Boolean props prop propData fields w :
  NoDup (props.*1) ->
  (prop, propData) ∈ props ->
  type propData = TBoolean ->
  (defaultProperties props fields w).1 !! prop = Some (VBool false).
Proof.
  revert fields w. induction props as [|[p pd] props IH]; intros fields w Hnd Hin Hty.
  - by apply elem_of_nil in Hin.
  - simpl in Hnd. apply NoDup_cons in Hnd as [Hnotin Hnd]. simpl.
    destruct (defaultValueOf pd w) as [v w1] eqn:E.
    apply elem_of_cons in Hin as [Heq | Hin].
    + inversion Heq; subst p pd.
      rewrite defaultProperties_other by done. rewrite lookup_insert_eq.
      unfold defaultValueOf in E. rewrite Hty in E. by inversion E.
    + by apply IH.
Qed.

(** A first [define] of a tag that is not registered, when no name is
    rejected: the accessors are on the prototype, the tag is in the local
    set and in the registry of the window. *)
Lemma define_first isValid cls w w1 :
  customElements w !! tag cls = None ->
  define isValid cls w = (w1, None) ->
  tag cls ∈ DefinitionsSet w1
  ∧ customElements w1 !! tag cls = Some (className cls)
  ∧ is_Some (prototype w1 !! className cls).
Proof.
  intros Hnone. unfold define.
  set (w0 := if onDefine cls then _ else _).
  assert (customElements w0 = customElements w) as Hc.
  { subst w0. by destruct (onDefine cls). }
  rewrite Hc, Hnone. rewrite (bool_decide_eq_false_2 (is_Some None)) by (by intros [? ?]).
  simpl. unfold _generateAccessors.
  destruct (generatePropertyAccessors _ _ _) as [proto1 [e1|]];
    [intros [= <-]; discriminate|].
  destruct (generateSlotAccessors _ _ _) as [proto2 [e2|]]; [intros [=]|].
  intros [= <-]. simpl. split; [set_solver|].
  by rewrite !lookup_insert_eq.
Qed.

(** C8 (amended): [define] for a tag that the window has registered
    already changes neither the prototype, nor the local set, nor the
    registry, and throws nothing; boot and the [onDefine] hook run again.
    It warns exactly when the tag is not in the local set of definitions
    (the tag was defined by another copy of the library); a second
    [define] of the same class finds its tag in the local set and is
    silent. *)
Theorem define_registered_tag isValid cls w :
  is_Some (customElements w !! tag cls) ->
  (define isValid cls w).2 = None
  ∧ prototype (define isValid cls w).1 = prototype w
  ∧ DefinitionsSet (define isValid cls w).1 = DefinitionsSet w
  ∧ customElements (define isValid cls w).1 = customElements w
  ∧ heap (define isValid cls w).1 = heap w
  ∧ nodes (define isValid cls w).1 = nodes w
  ∧ trace (define isValid cls w).1
    = trace w ++ [Boot]
      ++ (if onDefine cls then [OnDefine (className cls)] else [])
      ++ (if bool_decide (tag cls ∈ DefinitionsSet w) then []
          else [ConsoleWarn (SkippingDefinition (tag cls))]).
Proof.
  intros Hdef. unfold define.
  set (w0 := if onDefine cls then _ else _).
  assert (customElements w0 = customElements w ∧ DefinitionsSet w0 = DefinitionsSet w
          ∧ prototype w0 = prototype w ∧ heap w0 = heap w ∧ nodes w0 = nodes w
          ∧ trace w0 = trace w ++ [Boot]
              ++ (if onDefine cls then [OnDefine (className cls)] else []))
    as (Hc & Hd & Hp & Hh & Hn & Ht).
  { subst w0. destruct (onDefine cls); simpl; rewrite <- ?app_assoc;
      repeat split; by rewrite ?app_nil_r. }
  rewrite Hc, Hd. rewrite (bool_decide_eq_true_2 _ Hdef).
  destruct (bool_decide (tag cls ∈ DefinitionsSet w)); simpl.
  - rewrite Ht, app_nil_r. by repeat split.
  - rewrite Ht, <- !app_assoc. by repeat split.
Qed.

(** The second [define] of a class, after its first one. *)
Lemma define_registered_tag_witness :
  let w1 := (define (λ _, true) sampleClass (world_of ∅)).1 in
  is_Some (customElements w1 !! tag sampleClass)
  ∧ (define (λ _, true) sampleClass w1).2 = None
  ∧ prototype (define (λ _, true) sampleClass w1).1 = prototype w1
  ∧ trace (define (λ _, true) sampleClass w1).1 = trace w1 ++ [Boot].
Proof.
  assert (is_Some (customElements (define (λ _, true) sampleClass (world_of ∅)).1
                     !! tag sampleClass)) as H.
  { vm_compute. eauto. }
  split; [exact H|].
  destruct (define_registered_tag (λ _, true) sampleClass _ H)
    as (He & Hp & _ & _ & _ & _ & Ht).
  split; [exact He|]. split; [exact Hp|]. rewrite Ht. reflexivity.
Defined.

(** C8 (as stated, refuted): the second [define] of the same class under
    the same tag emits no warning: the trace of the two calls holds the
    two boots and the one registration, and nothing else. *)
Lemma define_twice_no_warning :
  let w1 := (define (λ _, true) sampleClass (world_of ∅)).1 in
  let w2 := (define (λ _, true) sampleClass w1).1 in
  warnings (trace w2) = []
  ∧ trace w2 = [Boot; CustomElementsDefine "ui5-button" "Button"; Boot]
  ∧ ¬ (∃ msg, ConsoleWarn msg ∈ trace w2).
Proof.
  split; [vm_compute; reflexivity|]. split; [vm_compute; reflexivity|].
  intros [msg H].
  assert (trace (define (λ _, true) sampleClass
                   (define (λ _, true) sampleClass (world_of ∅)).1).1
          = [Boot; CustomElementsDefine "ui5-button" "Button"; Boot]) as E
    by (vm_compute; reflexivity).
  cbv zeta in H. rewrite E in H.
  repeat (apply elem_of_cons in H as [H|H]; [discriminate|]).
  by apply elem_of_nil in H.
Qed.

(** ** The state store *)

Lemma alloc_fresh o w :
  heap w !! (alloc o w).1 = None
  ∧ heap (alloc o w).2 = <[(alloc o w).1 := o]> (heap w)
  ∧ nodes (alloc o w).2 = nodes w
  ∧ _defaultState (alloc o w).2 = _defaultState w
  ∧ renderQueue (alloc o w).2 = renderQueue w
  ∧ trace (alloc o w).2 = trace w.
Proof.
  unfold alloc. simpl. repeat split.
  apply not_elem_of_dom. apply is_fresh.
Qed.

Lemma extends_refl w : extends w w.
Proof. by intros l o. Qed.

Lemma extends_trans w1 w2 w3 : extends w1 w2 -> extends w2 w3 -> extends w1 w3.
Proof. intros H1 H2 l o H. by apply H2, H1. Qed.

Lemma extends_alloc o w : extends w (alloc o w).2.
Proof.
  intros l o' H. destruct (alloc_fresh o w) as (Hf & -> & _).
  rewrite lookup_insert_ne; [done|]. intros <-. congruence.
Qed.

Lemma extends_emit e w : extends w (emit e w).
Proof. by intros l o. Qed.

Lemma defaultValueOf_extends pd w :
  extends w (defaultValueOf pd w).2
  ∧ _defaultState (defaultValueOf pd w).2 = _defaultState w.
Proof.
  unfold defaultValueOf.
  destruct (type pd); simpl;
    repeat match goal with
    | |- context [if ?b then _ else _] => destruct b; simpl
    | |- context [match defaultValue pd with _ => _ end] =>
        destruct (defaultValue pd); simpl
    end;
    split; try done; try apply extends_refl;
    try (apply (extends_alloc _ w)); try apply extends_emit.
Qed.

Lemma defaultProperties_extends props fields w :
  extends w (defaultProperties props fields w).2
  ∧ _defaultState (defaultProperties props fields w).2 = _defaultState w.
Proof.
  revert fields w.
  induction props as [|[p pd] props IH]; intros fields w; cbn [defaultProperties].
  - split; [apply extends_refl | done].
  - pose proof (defaultValueOf_extends pd w) as [H1 H2].
    destruct (defaultValueOf pd w) as [v w1]. simpl in H1, H2.
    destruct (IH (<[p:=v]> fields) w1) as [H3 H4].
    split; [by eapply extends_trans | congruence].
Qed.

Lemma defaultSlots_extends slotsMap fields w :
  extends w (defaultSlots slotsMap fields w).2
  ∧ _defaultState (defaultSlots slotsMap fields w).2 = _defaultState w.
Proof.
  revert fields w.
  induction slotsMap as [|[s sd] slotsMap IH]; intros fields w; cbn [defaultSlots].
  - split; [apply extends_refl | done].
  - pose proof (extends_alloc (OArray []) w) as H1.
    pose proof (alloc_fresh (OArray []) w) as (_ & _ & _ & H2 & _).
    destruct (alloc (OArray []) w) as [l w1]. simpl in H1, H2.
    destruct (IH (<[slotPropertyName s sd:=VObj l]> fields) w1) as [H3 H4].
    split; [by eapply extends_trans | congruence].
Qed.

(** [_getDefaultState] returns the cached snapshot of the class, an object
    of the store, and keeps what the store held. *)
Lemma _getDefaultState_spec cls w :
  snapshots_wf w ->
  extends w (_getDefaultState cls w).2
  ∧ _defaultState (_getDefaultState cls w).2 !! className cls
    = Some (_getDefaultState cls w).1
  ∧ ∃ fields, heap (_getDefaultState cls w).2 !! (_getDefaultState cls w).1
              = Some (OObject fields).
Proof.
  intros Hwf. unfold _getDefaultState.
  destruct (_defaultState w !! className cls) as [l|] eqn:E.
  - split; [apply extends_refl|]. split; [done|]. by eapply Hwf.
  - pose proof (extends_alloc (OObject ∅) w) as H0.
    pose proof (alloc_fresh (OObject ∅) w) as (Hf & _).
    destruct (alloc (OObject ∅) w) as [l0 w0]. cbn [fst snd] in H0, Hf.
    pose proof (defaultProperties_extends (properties cls) ∅ w0) as [H1 _].
    destruct (defaultProperties (properties cls) ∅ w0) as [fields1 w1].
    cbn [fst snd] in H1.
    pose proof (defaultSlots_extends (slots cls) fields1 w1) as [H2 _].
    destruct (defaultSlots (slots cls) fields1 w1) as [fields2 w2].
    cbn [fst snd] in *. cbn [set_defaultState set_heap heap _defaultState].
    split; [|split].
    + intros l o Hl. cbn. rewrite lookup_insert_ne; [by apply H2, H1, H0|].
      intros <-. congruence.
    + by rewrite lookup_insert_eq.
    + exists fields2. by rewrite lookup_insert_eq.
Qed.

(** C6 (amended): the state of a new instance is a new object of the
    store, different from the cached snapshot of the class and from every
    object that existed, and it holds the same value under every key as the
    snapshot (a shallow copy: arrays and objects among the values are the
    ones of the snapshot). Writing a key of the state of the instance
    changes no other object of the store: not the snapshot, not the state
    of another instance. *)
Theorem state_is_shallow_copy cls w :
  snapshots_wf w ->
  ∃ ds fields,
    _defaultState (_initializeState cls w).2 !! className cls = Some ds
    ∧ heap (_initializeState cls w).2 !! ds = Some (OObject fields)
    ∧ heap (_initializeState cls w).2 !! (_initializeState cls w).1
      = Some (OObject fields)
    ∧ (_initializeState cls w).1 ≠ ds
    ∧ heap w !! (_initializeState cls w).1 = None
    ∧ ∀ k v l,
        l ≠ (_initializeState cls w).1 ->
        heap (Object_set (_initializeState cls w).1 k v (_initializeState cls w).2) !! l
        = heap (_initializeState cls w).2 !! l.
Proof.
  intros Hwf. unfold _initializeState.
  pose proof (_getDefaultState_spec cls w Hwf) as (Hext & Hds & fields & Hfields).
  destruct (_getDefaultState cls w) as [ds w1]. simpl in Hext, Hds, Hfields.
  unfold Object_assign_empty. rewrite Hfields.
  pose proof (alloc_fresh (OObject fields) w1) as (Hf & Hh & _ & Hd & _).
  destruct (alloc (OObject fields) w1) as [st w2]. simpl in *.
  exists ds, fields.
  assert (st ≠ ds) as Hne by (intros ->; congruence).
  split; [congruence|]. split; [by rewrite Hh, lookup_insert_ne|].
  split; [by rewrite Hh, lookup_insert_eq|]. split; [done|].
  split.
  - destruct (heap w !! st) as [o|] eqn:E; [|done].
    apply Hext in E. congruence.
  - intros k v l Hl. unfold Object_set.
    assert (heap w2 !! st = Some (OObject fields)) as ->
      by (by rewrite Hh, lookup_insert_eq).
    simpl. by rewrite lookup_insert_ne.
Qed.

(** The invariant holds at the start and a construction keeps it. *)
Lemma snapshots_wf_initial n : snapshots_wf (world_of n).
Proof. intros c l H. simpl in H. by rewrite lookup_empty in H. Qed.

Lemma _initializeState_wf cls w :
  snapshots_wf w -> snapshots_wf (_initializeState cls w).2.
Proof.
  intros Hwf. unfold _initializeState.
  pose proof (_getDefaultState_spec cls w Hwf) as (Hext & Hds & fields & Hfields).
  assert (snapshots_wf (_getDefaultState cls w).2) as Hwf1.
  { intros c l Hc.
    assert (c = className cls ∧ l = (_getDefaultState cls w).1
            ∨ _defaultState w !! c = Some l) as [[-> ->]|Hc'].
    { revert Hc. unfold _getDefaultState.
      destruct (_defaultState w !! className cls) as [l'|] eqn:E; [by right|].
      pose proof (alloc_fresh (OObject ∅) w) as (_ & _ & _ & D0 & _).
      destruct (alloc (OObject ∅) w) as [l0 w0].
      pose proof (defaultProperties_extends (properties cls) ∅ w0) as [_ D1].
      destruct (defaultProperties (properties cls) ∅ w0) as [fields1 w1].
      pose proof (defaultSlots_extends (slots cls) fields1 w1) as [_ D2].
      destruct (defaultSlots (slots cls) fields1 w1) as [fields2 w2].
      cbn [fst snd] in *. cbn. intros Hc.
      destruct (decide (className cls = c)) as [<-|Hne].
      - rewrite lookup_insert_eq in Hc. left. by inversion Hc.
      - rewrite lookup_insert_ne in Hc by done. right. congruence. }
    - by exists fields.
    - destruct (Hwf c l Hc') as [f Hf]. exists f. by apply Hext. }
  destruct (_getDefaultState cls w) as [ds w1]. cbn [fst snd] in *.
  unfold Object_assign_empty.
  pose proof (extends_alloc
                (OObject match heap w1 !! ds with
                         | Some (OObject fields) => fields
                         | _ => ∅
                         end) w1) as Hx.
  pose proof (alloc_fresh
                (OObject match heap w1 !! ds with
                         | Some (OObject fields) => fields
                         | _ => ∅
                         end) w1) as (_ & _ & _ & Hd & _).
  destruct (alloc _ w1) as [st w2]. cbn [fst snd] in *.
  intros c l Hc. rewrite Hd in Hc. destruct (Hwf1 c l Hc) as [f Hf].
  exists f. by apply Hx.
Qed.

(** At the first construction of a class. *)
Lemma state_is_shallow_copy_witness :
  snapshots_wf (world_of ∅)
  ∧ ∃ ds fields,
      _defaultState (_initializeState listClass (world_of ∅)).2 !! "List" = Some ds
      ∧ heap (_initializeState listClass (world_of ∅)).2 !! ds = Some (OObject fields)
      ∧ heap (_initializeState listClass (world_of ∅)).2
          !! (_initializeState listClass (world_of ∅)).1 = Some (OObject fields)
      ∧ (_initializeState listClass (world_of ∅)).1 ≠ ds.
Proof.
  split; [apply snapshots_wf_initial|].
  destruct (state_is_shallow_copy listClass (world_of ∅) (snapshots_wf_initial ∅))
    as (ds & fields & H1 & H2 & H3 & H4 & _).
  exists ds, fields. repeat split; assumption.
Defined.

(** C6 (as stated, refuted): two instances of a class with a [multiple]
    property, an [Object] property and a slot. Their states are different
    objects, but the array under [items], the object under [config] and the
    array under [rows] are each one object of the store, held by the
    snapshot and by both states; a push through the first instance and a
    key written into its [config] are seen through the second instance and
    through the snapshot. *)
Lemma default_values_are_shared :
  ∃ st1 st2 ds items config,
    (_state <$> instance twoLists 1) = Some st1
    ∧ (_state <$> instance twoLists 2) = Some st2
    ∧ _defaultState twoLists !! "List" = Some ds
    ∧ st1 ≠ st2 ∧ st1 ≠ ds ∧ st2 ≠ ds
    ∧ state_get twoLists 1 "items" = VObj items
    ∧ state_get twoLists 2 "items" = VObj items
    ∧ state_get twoLists 1 "rows" = state_get twoLists 2 "rows"
    ∧ state_get twoLists 1 "config" = VObj config
    ∧ read twoLists st2 "items" = Some (inr [])
    ∧ read twoLists ds "items" = Some (inr [])
    ∧ read (Array_push items (VStr "x") twoLists) st2 "items" = Some (inr [VStr "x"])
    ∧ read (Array_push items (VStr "x") twoLists) ds "items" = Some (inr [VStr "x"])
    ∧ match state_get (Object_set config "k" (VNum 1) twoLists) 2 "config" with
      | VObj c => read (Object_set config "k" (VNum 1) twoLists) c "k"
                  = Some (inl (VNum 1))
      | _ => False
      end.
Proof.
  do 5 eexists.
  repeat match goal with |- _ ∧ _ => split end;
    try (vm_compute; reflexivity); try (vm_compute; discriminate).
Qed.

(** ** Reading the world after an update *)

Lemma nodes_update_node n f w m :
  nodes (update_node n f w) !! m
  = if decide (n = m) then f <$> nodes w !! m else nodes w !! m.
Proof.
  unfold update_node. destruct (nodes w !! n) as [nd|] eqn:E.
  - cbn. destruct (decide (n = m)) as [<-|Hne].
    + by rewrite lookup_insert_eq, E.
    + by rewrite lookup_insert_ne.
  - destruct (decide (n = m)) as [<-|Hne]; [by rewrite E | done].
Qed.

Lemma update_node_frame n f w :
  heap (update_node n f w) = heap w
  ∧ renderQueue (update_node n f w) = renderQueue w
  ∧ trace (update_node n f w) = trace w
  ∧ elementTimeouts (update_node n f w) = elementTimeouts w
  ∧ customElements (update_node n f w) = customElements w
  ∧ now (update_node n f w) = now w.
Proof. unfold update_node. by destruct (nodes w !! n). Qed.

Lemma instance_update_ui5 n f w m :
  instance (update_node n (with_ui5 f) w) m
  = if decide (n = m) then f <$> instance w m else instance w m.
Proof.
  unfold instance. rewrite nodes_update_node.
  destruct (decide (n = m)); [|done].
  destruct (nodes w !! m) as [nd|]; [|done]. cbn. by destruct (ui5 nd).
Qed.

(** An update of a node that keeps its [ui5] fields keeps every
    instance. *)
Lemma instance_update_node n f w m :
  (∀ nd, ui5 (f nd) = ui5 nd) ->
  instance (update_node n f w) m = instance w m.
Proof.
  intros Hf. unfold instance. rewrite nodes_update_node.
  destruct (decide (n = m)); [|done].
  destruct (nodes w !! m) as [nd|]; [|done]. cbn. by rewrite Hf.
Qed.

Lemma getDomRef_rendered w el d :
  instance w el = Some d ->
  bool_decide (is_Some (getDomRef w el)) = rendered d.
Proof.
  intros H. unfold getDomRef, rendered. rewrite H.
  destruct (shadowRoot d) as [[|[|n]]|]; reflexivity.
Qed.

(** An invalidation request enqueues a deferred render, and marks the
    instance, exactly when the instance is not marked yet, has rendered
    output and is not suppressed; otherwise it does nothing. *)
Lemma _invalidate_spec w el d :
  instance w el = Some d ->
  _invalidate el w
  = if negb (_invalidated d) && rendered d && negb (_suppressInvalidation d)
    then renderDeferred el (update_node el (with_ui5 (with_invalidated true)) w)
    else w.
Proof.
  intros H. unfold _invalidate. rewrite H, (getDomRef_rendered w el d H).
  destruct (_invalidated d); [done|]. simpl.
  by destruct (rendered d), (_suppressInvalidation d).
Qed.

Lemma _invalidate_frame w el :
  heap (_invalidate el w) = heap w
  ∧ trace (_invalidate el w) = trace w
  ∧ elementTimeouts (_invalidate el w) = elementTimeouts w
  ∧ customElements (_invalidate el w) = customElements w
  ∧ now (_invalidate el w) = now w.
Proof.
  unfold _invalidate. destruct (instance w el) as [d|]; [|done].
  destruct (_invalidated d); [done|].
  destruct (_ && _); [|done].
  unfold renderDeferred. cbn.
  by destruct (update_node_frame el (with_ui5 (with_invalidated true)) w)
    as (-> & _ & -> & -> & -> & ->).
Qed.

(** ** Property writes *)

Section PropertyWrites.
Variable validatePropertyValue : value -> PropertyData -> option value.
Variable hasAttribute : Class -> string -> bool.
Variable camelToKebabCase : string -> string.

Lemma _updateAttribute_frame el name v w :
  heap (_updateAttribute hasAttribute camelToKebabCase el name v w) = heap w
  ∧ renderQueue (_updateAttribute hasAttribute camelToKebabCase el name v w)
    = renderQueue w
  ∧ ∀ m, instance (_updateAttribute hasAttribute camelToKebabCase el name v w) m
         = instance w m.
Proof.
  unfold _updateAttribute.
  destruct (nodes w !! el) as [nd|]; [|done].
  destruct (instance w el) as [d|]; [|done].
  destruct (negb _); [done|]. destruct (typeof_object v); [done|].
  assert (∀ a e,
    heap (emit e (update_node el (with_attributes a) w)) = heap w
    ∧ renderQueue (emit e (update_node el (with_attributes a) w)) = renderQueue w
    ∧ ∀ m, instance (emit e (update_node el (with_attributes a) w)) m
           = instance w m) as G.
  { intros a e.
    destruct (update_node_frame el (with_attributes a) w) as (Hh & Hq & _).
    cbn. rewrite Hh, Hq. repeat split.
    intros m. by apply (instance_update_node el (with_attributes a) w m). }
  destruct v; repeat match goal with
    | |- context [if ?b then _ else _] => destruct b
    end; first [ apply G | done ].
Qed.

Lemma _propertyChange_frame el name v w :
  heap (_propertyChange hasAttribute camelToKebabCase el name v w) = heap w
  ∧ renderQueue (_propertyChange hasAttribute camelToKebabCase el name v w)
    = renderQueue w
  ∧ ∀ m, instance (_propertyChange hasAttribute camelToKebabCase el name v w) m
         = instance w m.
Proof.
  unfold _propertyChange.
  destruct (_updateAttribute_frame el name v w) as (Hh & Hq & Hi).
  cbn. rewrite Hh, Hq. by repeat split.
Qed.

(** C3: a write whose validated value is identical ([===]) to the stored
    one leaves the world as it is: the state, the invalidation flag and
    the queue of deferred renders are unchanged, and nothing is added to
    the trace (no attribute update, no "_propertyChange" event). *)
Theorem setter_same_value_is_noop prop propData v v' el w :
  validatePropertyValue v propData = Some v' ->
  strict_eq (state_get w el prop) v' = true ->
  property_set validatePropertyValue hasAttribute camelToKebabCase
    prop propData v el w = Some w.
Proof.
  intros Hv Heq. unfold property_set. rewrite Hv. cbn.
  unfold strict_neq. by rewrite Heq.
Qed.

(** One write, on an instance whose state is an object of the store. *)
Lemma property_set_step prop propData v v' el w d fields :
  instance w el = Some d ->
  heap w !! _state d = Some (OObject fields) ->
  validatePropertyValue v propData = Some v' ->
  ∃ w',
    property_set validatePropertyValue hasAttribute camelToKebabCase
      prop propData v el w = Some w'
    ∧ let changed := strict_neq (get_field fields prop) v' in
      let schedules :=
        changed && negb (_invalidated d) && rendered d
        && negb (_suppressInvalidation d) in
      instance w' el = Some (if schedules then with_invalidated true d else d)
      ∧ heap w' !! _state d
        = Some (OObject (if changed then <[prop := v']> fields else fields))
      ∧ renderQueue w' = renderQueue w ++ (if schedules then [el] else []).
Proof.
  intros Hi Hh Hv. unfold property_set. rewrite Hv. cbn.
  eexists. split; [reflexivity|].
  assert (state_get w el prop = get_field fields prop) as ->.
  { unfold state_get, state_fields. by rewrite Hi, Hh. }
  destruct (strict_neq (get_field fields prop) v') eqn:Hc; cbv zeta; cbn [andb].
  - set (w1 := state_set el prop v' w).
    assert (instance w1 el = Some d ∧ renderQueue w1 = renderQueue w
            ∧ heap w1 !! _state d = Some (OObject (<[prop:=v']> fields)))
      as (Hi1 & Hq1 & Hh1).
    { subst w1. unfold state_set. rewrite Hi, Hh. cbn.
      repeat split; [done|]. by rewrite lookup_insert_eq. }
    destruct (_propertyChange_frame el prop v' (_invalidate el w1)) as (Ph & Pq & Pi).
    rewrite Ph, Pq, Pi. rewrite (_invalidate_spec w1 el d Hi1).
    destruct (negb (_invalidated d) && rendered d && negb (_suppressInvalidation d))
      eqn:Hs.
    + destruct (update_node_frame el (with_ui5 (with_invalidated true)) w1)
        as (Uh & Uq & _).
      unfold renderDeferred. cbn [heap renderQueue set_renderQueue].
      rewrite Uh, Uq, Hq1. split; [|done].
      change (instance (update_node el (with_ui5 (with_invalidated true)) w1) el
              = Some (with_invalidated true d)).
      rewrite instance_update_ui5, decide_True by done. by rewrite Hi1.
    + by rewrite app_nil_r.
  - by rewrite app_nil_r.
Qed.
Lemma strict_eq_eq a b : strict_eq a b = true -> a = b.
Proof.
  unfold strict_eq. destruct a, b; try done; intros H; by apply bool_decide_eq_true_1 in H.
Qed.



End PropertyWrites.

(** ** Rendering *)

Lemma same_view_refl w : same_view w w.
Proof. by repeat split. Qed.

Lemma same_view_trans w1 w2 w3 :
  same_view w1 w2 -> same_view w2 w3 -> same_view w1 w3.
Proof.
  intros (H1 & H2 & H3) (H4 & H5 & H6). repeat split; [congruence| |congruence].
  intros m. by rewrite H5, H2.
Qed.



Lemma same_view_update_node n f w :
  (∀ nd, ui5 (f nd) = ui5 nd) ->
  same_view w (update_node n f w).
Proof.
  intros Hf. destruct (update_node_frame n f w) as (Hh & _ & Ht & _).
  split; [done|]. split; [|by rewrite Ht].
  intros m. by rewrite instance_update_node.
Qed.

Lemma same_view_emit e w :
  (∀ el st b, e ≠ Render el st b) ->
  same_view w (emit e w).
Proof.
  intros He. repeat split. cbn. unfold renders. rewrite omap_app. cbn.
  destruct e; try by rewrite app_nil_r. by destruct (He el state styleToPrepend).
Qed.


Lemma same_view_assignIndividualSlots el w :
  same_view w (_assignIndividualSlotsToChildren el w).
Proof.
  unfold _assignIndividualSlotsToChildren.
  destruct (nodes w !! el) as [nd|]; [|apply same_view_refl].
  generalize (filter (λ c, isElement w c) (childNodes nd)). intros cs.
  assert (∀ w0, same_view w w0 ->
    same_view w (foldl (λ w1 c,
      match nodes w1 !! c with
      | Some cn =>
          match _individualSlot cn with
          | Some s =>
              if String.eqb s "" then w1
              else emit (SetAttribute c "slot" s)
                     (update_node c (with_attributes (<["slot":=s]> (attributes cn))) w1)
          | None => w1
          end
      | None => w1
      end) w0 cs)) as G.
  { induction cs as [|c cs IH]; intros w0 H0; [done|]. cbn [foldl]. apply IH.
    destruct (nodes w0 !! c) as [cn|]; [|done].
    destruct (_individualSlot cn) as [s|]; [|done].
    destruct (String.eqb s ""); [done|].
    eapply same_view_trans; [exact H0|].
    eapply same_view_trans; [|by apply same_view_emit].
    by apply same_view_update_node. }
  apply G, same_view_refl.
Qed.





(** A write of the empty string over the empty string. *)
Lemma setter_same_value_is_noop_witness :
  strict_eq (state_get renderedButton 1 "text") (VStr "") = true
  ∧ property_set (λ v _, Some v) (λ _ _, true) (λ s, s)
      "text" textProperty (VStr "") 1 renderedButton = Some renderedButton.
Proof.
  split; [vm_compute; reflexivity|].
  apply (setter_same_value_is_noop (λ v _, Some v) (λ _ _, true) (λ s, s)
           "text" textProperty (VStr "") (VStr "") 1 renderedButton);
    [reflexivity | vm_compute; reflexivity].
Defined.

(** ** Child-change propagation *)

(** An update of a node that keeps its kind and its attributes keeps
    every slot name. *)
Lemma _getSlotName_update_node n f w c :
  (∀ nd, kind (f nd) = kind nd ∧ attributes (f nd) = attributes nd) ->
  _getSlotName (update_node n f w) c = _getSlotName w c.
Proof.
  intros Hf. unfold _getSlotName. rewrite nodes_update_node.
  destruct (decide (n = c)); [|done].
  destruct (nodes w !! c) as [nd|]; [|done]. cbn.
  destruct (Hf nd) as [-> ->]. done.
Qed.



(** What [_clearSlot] does to each child of the slot. *)
Lemma detach_children_spec cs : ∀ w,
  let w' := foldl (λ w0 c,
                     match isUI5Element w0 c with
                     | Some n => _detachChildPropertyUpdated n w0
                     | None => w0
                     end) w cs in
  heap w' = heap w
  ∧ renderQueue w' = renderQueue w
  ∧ trace w' = trace w
  ∧ (∀ m, instance w' m = instance w m)
  ∧ (∀ m, _getSlotName w' m = _getSlotName w m)
  ∧ (∀ m, parentNode <$> nodes w' !! m = parentNode <$> nodes w !! m)
  ∧ (∀ c, is_Some (instance w c) ->
          VNode c ∈ cs ∨ propertyChangeListener <$> nodes w !! c = Some false ->
          propertyChangeListener <$> nodes w' !! c = Some false).
Proof.
  induction cs as [|x cs IH]; intros w; cbn [foldl].
  - cbv zeta. repeat split; try done. intros c _ [H|H]; [|done].
    by apply elem_of_nil in H.
  - set (w1 := match isUI5Element w x with
               | Some n => _detachChildPropertyUpdated n w
               | None => w
               end).
    assert (heap w1 = heap w ∧ renderQueue w1 = renderQueue w ∧ trace w1 = trace w
            ∧ (∀ m, instance w1 m = instance w m)
            ∧ (∀ m, _getSlotName w1 m = _getSlotName w m)
            ∧ (∀ m, parentNode <$> nodes w1 !! m = parentNode <$> nodes w !! m)
            ∧ (∀ c, propertyChangeListener <$> nodes w !! c = Some false ->
                    propertyChangeListener <$> nodes w1 !! c = Some false)
            ∧ (∀ c, is_Some (instance w c) -> x = VNode c ->
                    propertyChangeListener <$> nodes w1 !! c = Some false))
      as (Hh & Hq & Ht & Hi & Hs & Hp & Hkeep & Hoff).
    { subst w1. destruct (isUI5Element w x) as [n|] eqn:E.
      - unfold _detachChildPropertyUpdated.
        destruct (update_node_frame n (with_listener false) w) as (-> & -> & -> & _).
        repeat split.
        + intros m. by apply instance_update_node.
        + intros m. apply _getSlotName_update_node. by intros [].
        + intros m. rewrite nodes_update_node. destruct (decide (n = m)); [|done].
          by destruct (nodes w !! m).
        + intros c Hc. rewrite nodes_update_node. destruct (decide (n = c)); [|done].
          destruct (nodes w !! c); [done|discriminate].
        + intros c [d Hd] ->. cbn in E. rewrite Hd in E.
          rewrite bool_decide_eq_true_2 in E by eauto. injection E as <-.
          rewrite nodes_update_node, decide_True by done.
          unfold instance in Hd. destruct (nodes w !! c); [done|discriminate].
      - repeat split; try done. intros c [d Hd] ->. cbn in E. rewrite Hd in E.
        rewrite bool_decide_eq_true_2 in E by eauto. discriminate. }
    destruct (IH w1) as (Ih & Iq & It & Ii & Is & Ip & Il). cbv zeta in *.
    split; [congruence|]. split; [congruence|]. split; [congruence|].
    split; [intros m; by rewrite Ii|]. split; [intros m; by rewrite Is|].
    split; [intros m; by rewrite Ip|].
    intros c Hc Hin. apply Il; [by rewrite Hi|].
    destruct Hin as [Hin|Hoff0]; [|right; by apply Hkeep].
    apply elem_of_cons in Hin as [Hx|Hin];
      [right; apply Hoff; [exact Hc | by symmetry] | by left].
Qed.

(** C5 (amended): when a slot is cleared, the "_propertyChange" listener
    is removed from every UI5 element that the slot held, so a later
    property change of such a child runs no listener and leaves the world,
    and with it the former parent, as it is. The record of the parent for
    the slot in [_monitoredChildProps] is kept. *)
Theorem clearSlot_detaches el slotName w d slotData c :
  instance w el = Some d ->
  entry slotName (slots (constructor d)) = Some slotData ->
  VNode c ∈ as_array w (state_get w el (slotPropertyName slotName slotData)) ->
  is_Some (instance w c) ->
  propertyChangeListener <$> nodes (_clearSlot el slotName w) !! c = Some false
  ∧ (∀ name, deliverPropertyChange c name (_clearSlot el slotName w)
             = _clearSlot el slotName w)
  ∧ _monitoredChildProps <$> instance (_clearSlot el slotName w) el
    = Some (_monitoredChildProps d).
Proof.
  intros Hi He Hin Hc. unfold _clearSlot. rewrite Hi, He.
  set (cs := as_array w _) in *.
  destruct (detach_children_spec cs w) as (Hh & Hq & Ht & Hi1 & _ & _ & Hl1).
  cbv zeta in *.
  set (w1 := foldl _ w cs) in *.
  specialize (Hl1 c Hc (or_introl Hin)).
  pose proof (alloc_fresh (OArray []) w1) as (_ & _ & Hn2 & _).
  destruct (alloc (OArray []) w1) as [arr w2]. cbn [fst snd] in Hn2.
  set (w3 := state_set el (slotPropertyName slotName slotData) (VObj arr) w2).
  assert (nodes w3 = nodes w1) as Hn3.
  { subst w3. unfold state_set. destruct (instance w2 el) as [d2|]; [|done].
    by destruct (heap w2 !! _state d2) as [[]|]. }
  assert (instance w3 el = Some d) as Hi3.
  { unfold instance. rewrite Hn3. fold (instance w1 el). by rewrite Hi1. }
  assert (propertyChangeListener <$> nodes (_invalidate el w3) !! c = Some false
          ∧ _monitoredChildProps <$> instance (_invalidate el w3) el
            = Some (_monitoredChildProps d)) as [Hl Hm].
  { rewrite (_invalidate_spec w3 el d Hi3).
    destruct (negb (_invalidated d) && rendered d && negb (_suppressInvalidation d)).
    - unfold renderDeferred.
      change (propertyChangeListener
                <$> nodes (update_node el (with_ui5 (with_invalidated true)) w3) !! c
              = Some false
              ∧ _monitoredChildProps
                  <$> instance (update_node el (with_ui5 (with_invalidated true)) w3) el
                = Some (_monitoredChildProps d)).
      rewrite instance_update_ui5, decide_True by done.
      rewrite nodes_update_node, Hi3, Hn3. split; [|done].
      destruct (decide (el = c)); [|done].
      destruct (nodes w1 !! c); [done|discriminate].
    - by rewrite Hi3, Hn3. }
  split; [exact Hl|]. split; [|exact Hm].
  intros name. unfold deliverPropertyChange.
  destruct (nodes (_invalidate el w3) !! c) as [ndc|]; [|done].
  cbn in Hl. injection Hl as ->. done.
Qed.

(** The list clears the slot that holds its item. *)
Lemma clearSlot_detaches_witness :
  propertyChangeListener <$> nodes distributedFamily !! 2%positive = Some true
  ∧ propertyChangeListener
      <$> nodes (_clearSlot 1 "default" distributedFamily) !! 2%positive
    = Some false
  ∧ deliverPropertyChange 2 "selected" (_clearSlot 1 "default" distributedFamily)
    = _clearSlot 1 "default" distributedFamily.
Proof.
  eassert (instance distributedFamily 1 = Some _) as H1 by (vm_compute; reflexivity).
  assert (as_array distributedFamily (state_get distributedFamily 1 "items")
          = [VNode 2]) as H3 by (vm_compute; reflexivity).
  assert (is_Some (instance distributedFamily 2)) as H4 by (vm_compute; eauto).
  split; [vm_compute; reflexivity|].
  destruct (clearSlot_detaches 1 "default" distributedFamily _ watchedSlot 2
              H1 eq_refl) as (Hl & Hd & _).
  - change (slotPropertyName "default" watchedSlot) with "items".
    rewrite H3. apply list_elem_of_here.
  - exact H4.
  - split; [exact Hl | exact (Hd "selected")].
Defined.

(** C5 (as stated, refuted): the list has a record for its default slot
    once its item is distributed; after the slot is cleared the slot is
    empty and the item has no listener, but the record is still there. *)
Lemma clearSlot_keeps_the_record :
  (instance distributedFamily 1 ≫= λ d, _monitoredChildProps d !! "default")
  = Some {| observedProps := ["selected"; "text"]; notObservedProps := ["text"] |}
  ∧ as_array distributedFamily (state_get distributedFamily 1 "items") = [VNode 2]
  ∧ as_array (_clearSlot 1 "default" distributedFamily)
      (state_get (_clearSlot 1 "default" distributedFamily) 1 "items") = []
  ∧ (instance (_clearSlot 1 "default" distributedFamily) 1
       ≫= λ d, _monitoredChildProps d !! "default")
    = Some {| observedProps := ["selected"; "text"]; notObservedProps := ["text"] |}.
Proof. repeat split; vm_compute; reflexivity. Qed.

(** ** Slot distribution: what a pass keeps *)

Lemma same_dom_refl w : same_dom w w.
Proof. by repeat split. Qed.

Lemma same_dom_trans w1 w2 w3 : same_dom w1 w2 -> same_dom w2 w3 -> same_dom w1 w3.
Proof.
  intros (A1 & A2 & A3 & A4 & A5 & A6) (B1 & B2 & B3 & B4 & B5 & B6).
  split; [congruence|]. split; [congruence|]. split; [congruence|].
  split; [|split]; intros m.
  - by rewrite B4.
  - by rewrite B5.
  - by rewrite B6.
Qed.

Lemma same_dom_update_node n f w :
  (∀ nd, kind (f nd) = kind nd ∧ attributes (f nd) = attributes nd
         ∧ constructor <$> ui5 (f nd) = constructor <$> ui5 nd
         ∧ _state <$> ui5 (f nd) = _state <$> ui5 nd) ->
  same_dom w (update_node n f w).
Proof.
  intros Hf.
  destruct (update_node_frame n f w) as (Hh & _ & _ & _ & Hc & Hn).
  split; [done|]. split; [done|]. split; [done|]. split; [|split]; intros m.
  - apply _getSlotName_update_node. intros nd. by destruct (Hf nd) as (? & ? & _).
  - unfold instance. rewrite nodes_update_node. destruct (decide (n = m)); [|done].
    destruct (nodes w !! m) as [nd|]; [|done]. cbn. by destruct (Hf nd) as (_ & _ & ? & _).
  - unfold instance. rewrite nodes_update_node. destruct (decide (n = m)); [|done].
    destruct (nodes w !! m) as [nd|]; [|done]. cbn. by destruct (Hf nd) as (_ & _ & _ & ?).
Qed.

Lemma same_dom_with_ui5 n f w :
  (∀ d, constructor (f d) = constructor d ∧ _state (f d) = _state d) ->
  same_dom w (update_node n (with_ui5 f) w).
Proof.
  intros Hf. apply same_dom_update_node. intros nd. cbn.
  destruct (ui5 nd) as [d|]; cbn; [|done]. by destruct (Hf d) as [-> ->].
Qed.

Lemma same_dom_slotOf w w' el c :
  same_dom w w' -> slotOf w' el c = slotOf w el c.
Proof.
  intros (_ & _ & _ & Hs & Hc & _). unfold slotOf. rewrite Hs.
  specialize (Hc el).
  destruct (instance w' el) as [d'|], (instance w el) as [d|]; cbn in *; try done.
  injection Hc as ->. done.
Qed.

Lemma same_dom_attach el c slotData w :
  same_dom w (_attachChildPropertyUpdated el c slotData w)
  ∧ elementTimeouts (_attachChildPropertyUpdated el c slotData w) = elementTimeouts w.
Proof.
  unfold _attachChildPropertyUpdated.
  destruct (instance w c) as [cd|]; [|split; [apply same_dom_refl | done]].
  destruct (listenFor slotData) as [lf|]; [|split; [apply same_dom_refl | done]].
  split.
  - match goal with
    | |- same_dom w (update_node ?a ?f (update_node ?b (with_ui5 ?g) w)) =>
        apply (same_dom_trans w (update_node b (with_ui5 g) w));
          [apply same_dom_with_ui5 | apply same_dom_update_node; by intros []]
    end.
    intros d. by destruct (_monitoredChildProps d !! _getSlotName w c).
  - match goal with |- elementTimeouts (update_node ?a ?f (update_node ?b ?g w)) = _ =>
      destruct (update_node_frame a f (update_node b g w)) as (_ & _ & _ & -> & _);
      by destruct (update_node_frame b g w) as (_ & _ & _ & -> & _)
    end.
Qed.

(** The callback of a child, up to its [await]. *)
Lemma start_spec el c autoInc w :
  same_dom w (start el c autoInc w).2
  ∧ elementTimeouts w ⊆ elementTimeouts (start el c autoInc w).2
  ∧ (timeouts_bounded w -> timeouts_bounded (start el c autoInc w).2)
  ∧ match (start el c autoInc w).1.1 with
    | Returned => slotOf w el c = None
    | Continues slotName slotData => slotOf w el c = Some (slotName, slotData)
    | Awaits slotName slotData name timeout =>
        slotOf w el c = Some (slotName, slotData)
        ∧ elementTimeouts (start el c autoInc w).2 !! name = Some timeout
    end.
Proof.
  unfold start, slotOf.
  destruct (instance w el) as [d|] eqn:Hi; cbn [mbind option_bind];
    [|cbn; split; [apply same_dom_refl|]; done].
  destruct (entry (_getSlotName w c) (slots (constructor d))) as [slotData|] eqn:He;
    cbn [mbind option_bind]; [|cbn; split; [by repeat split|]; done].
  set (aw := if individualSlots slotData then _ else _).
  assert (same_dom w aw.2 ∧ elementTimeouts aw.2 = elementTimeouts w) as [Hd Ht].
  { subst aw. destruct (individualSlots slotData); cbn [snd];
      [|split; [apply same_dom_refl | done]].
    split; [apply same_dom_update_node; by intros []|].
    match goal with |- elementTimeouts (update_node ?a ?f w) = _ =>
      by destruct (update_node_frame a f w) as (_ & _ & _ & -> & _) end. }
  destruct aw as [autoInc1 w1]. cbn [fst snd] in *.
  assert (now w1 = now w) as Hnow by (by destruct Hd as (_ & ? & _)).
  destruct (nodes w1 !! c) as [nd|]; cbn [fst snd];
    [|split; [done|]; split; [by rewrite Ht|]; split; [|done];
      intros Hb name t Hn; rewrite Hnow; apply (Hb name t); by rewrite <- Ht].
  destruct (_ && _); cbn [fst snd];
    [|split; [done|]; split; [by rewrite Ht|]; split; [|done];
      intros Hb name t Hn; rewrite Hnow; apply (Hb name t); by rewrite <- Ht].
  destruct (elementTimeouts w1 !! localName nd) as [timeoutPromise|] eqn:Hto;
    cbn [fst snd].
  - split; [done|]. split; [by rewrite Ht|]. split; [|done].
    intros Hb name t Hn. rewrite Hnow. apply (Hb name t). by rewrite <- Ht.
  - split; [|split; [|split]].
    + eapply same_dom_trans; [exact Hd|]. by repeat split.
    + cbn. rewrite <- Ht. by apply insert_subseteq.
    + intros Hb name t. cbn. rewrite Hnow. intros Hn.
      destruct (decide (localName nd = name)) as [<-|Hne].
      * rewrite lookup_insert_eq in Hn. injection Hn as <-. lia.
      * rewrite lookup_insert_ne in Hn by done. apply (Hb name t). by rewrite <- Ht.
    + split; [done|]. cbn. by rewrite lookup_insert_eq.
Qed.

(** ** The map of slotted children *)

Lemma map_get_set {A} k (a : A) m q :
  map_get q (map_set k a m) = if decide (k = q) then Some a else map_get q m.
Proof.
  induction m as [|[k' a'] m IH]; cbn.
  - by destruct (decide (k = q)).
  - destruct (decide (k' = k)) as [->|Hne]; cbn.
    + by destruct (decide (k = q)).
    + destruct (decide (k' = q)) as [->|Hne'].
      * by rewrite decide_False by done.
      * exact IH.
Qed.

Lemma map_set_keys {A} k (a : A) m :
  (map_set k a m).*1 = if decide (k ∈ m.*1) then m.*1 else m.*1 ++ [k].
Proof.
  induction m as [|[k' a'] m IH]; cbn.
  - rewrite decide_False; [done|]. apply not_elem_of_nil.
  - destruct (decide (k' = k)) as [->|Hne]; cbn.
    + rewrite decide_True; [done|]. apply list_elem_of_here.
    + rewrite IH. destruct (decide (k ∈ m.*1)) as [Hin|Hnotin].
      * rewrite decide_True; [done|]. by apply elem_of_cons; right.
      * rewrite decide_False; [done|]. intros [?|?]%elem_of_cons; congruence.
Qed.

Lemma map_get_None {A} k (m : list (string * A)) : map_get k m = None ↔ k ∉ m.*1.
Proof.
  induction m as [|[k' a'] m IH]; cbn.
  - split; [intros _; apply not_elem_of_nil | done].
  - destruct (decide (k' = k)) as [->|Hne].
    + split; [done|]. intros H. destruct H. apply list_elem_of_here.
    + rewrite IH, not_elem_of_cons.
      split; [intros ?; split; [congruence | done] | by intros [_ ?]].
Qed.

Lemma map_push_keys {A} k (x : A) m :
  NoDup (m.*1) -> NoDup ((map_push k x m).*1).
Proof.
  intros Hnd. unfold map_push.
  destruct (map_get k m) as [xs|] eqn:E; rewrite map_set_keys.
  - destruct (decide (k ∈ m.*1)) as [|Hn]; [done|].
    apply map_get_None in Hn. congruence.
  - apply map_get_None in E. rewrite decide_False by done.
    apply NoDup_app. split; [done|]. split; [|apply NoDup_singleton].
    intros y Hy Hy'. apply list_elem_of_singleton in Hy'. by subst.
Qed.

Lemma map_set_no_empty {A} k (xs : list A) m :
  xs ≠ [] -> no_empty_bucket m -> no_empty_bucket (map_set k xs m).
Proof.
  intros Hx. unfold no_empty_bucket.
  induction m as [|[k' a'] m IH]; cbn; intros H.
  - by constructor.
  - apply Forall_cons in H as [H1 H2].
    destruct (decide (k' = k)); constructor; auto.
Qed.

Lemma map_push_no_empty {A} k (x : A) m :
  no_empty_bucket m -> no_empty_bucket (map_push k x m).
Proof.
  intros H. unfold map_push.
  destruct (map_get k m) as [xs|]; apply map_set_no_empty; try done.
  by destruct xs.
Qed.

Lemma bucket_push {A} k (x : A) m q :
  bucket q (map_push k x m) = if decide (k = q) then bucket q m ++ [x] else bucket q m.
Proof.
  unfold bucket, map_push.
  destruct (map_get k m) as [xs|] eqn:E; rewrite map_get_set;
    destruct (decide (k = q)) as [<-|]; try done; by rewrite E.
Qed.

(** ** Slot distribution: the callbacks *)

Section DistributionFacts.
Variable validateSlotValue : value -> SlotData -> option value.

Lemma finish_spec el c i slotName slotData p :
  same_dom (world p) (world (finish validateSlotValue el c i slotName slotData p))
  ∧ elementTimeouts (world (finish validateSlotValue el c i slotName slotData p))
    = elementTimeouts (world p)
  ∧ slottedChildrenMap (finish validateSlotValue el c i slotName slotData p)
    = match validateSlotValue (VNode c) slotData with
      | Some v => map_push (slotPropertyName slotName slotData)
                    {| child := v; idx := i |} (slottedChildrenMap p)
      | None => slottedChildrenMap p
      end.
Proof.
  unfold finish. destruct (validateSlotValue (VNode c) slotData) as [v|]; cbn;
    [|split; [apply same_dom_refl | done]].
  destruct (isUI5Element (world p) v) as [n|];
    [|split; [apply same_dom_refl | done]].
  destruct (same_dom_attach el n slotData (world p)) as [H1 H2].
  split; [exact H1|]. split; [exact H2 | done].
Qed.

(** What [finish] adds to the entries of a property. *)
Lemma finish_bucket el c i slotName slotData p q w :
  slotOf w el c = Some (slotName, slotData) ->
  bucket q (slottedChildrenMap (finish validateSlotValue el c i slotName slotData p))
  = bucket q (slottedChildrenMap p)
    ++ from_option (λ x, [x]) [] (item validateSlotValue w el q c i).
Proof.
  intros Hs. destruct (finish_spec el c i slotName slotData p) as (_ & _ & ->).
  unfold item. rewrite Hs. cbn.
  destruct (validateSlotValue (VNode c) slotData) as [v|]; cbn.
  - rewrite bucket_push.
    destruct (decide (slotPropertyName slotName slotData = q)); cbn;
      [done | by rewrite app_nil_r].
  - destruct (decide (slotPropertyName slotName slotData = q)); cbn;
      by rewrite app_nil_r.
Qed.

Lemma finish_keys el c i slotName slotData p :
  (NoDup (slottedChildrenMap p).*1 ->
   NoDup (slottedChildrenMap (finish validateSlotValue el c i slotName slotData p)).*1)
  ∧ (no_empty_bucket (slottedChildrenMap p) ->
     no_empty_bucket
       (slottedChildrenMap (finish validateSlotValue el c i slotName slotData p))).
Proof.
  destruct (finish_spec el c i slotName slotData p) as (_ & _ & ->).
  destruct (validateSlotValue (VNode c) slotData); [|done].
  split; [apply map_push_keys | apply map_push_no_empty].
Qed.

Lemma timeouts_bounded_same w w' :
  now w' = now w -> elementTimeouts w' = elementTimeouts w ->
  timeouts_bounded w -> timeouts_bounded w'.
Proof. intros Hn Ht Hb name t. rewrite Hn, Ht. apply Hb. Qed.

(** The state of the pass after [map], for a pass that runs in a world with
    the slots of [w]. *)
Lemma map_children_spec w el cs : ∀ i p,
  same_dom w (world p) ->
  let r := map_children validateSlotValue el cs i p in
  same_dom w (world r.1)
  ∧ elementTimeouts (world p) ⊆ elementTimeouts (world r.1)
  ∧ (timeouts_bounded (world p) -> timeouts_bounded (world r.1))
  ∧ Forall (λ t, elementTimeouts (world r.1) !! pending_localName t
                 = Some (pending_timeout t)) r.2
  ∧ (NoDup (slottedChildrenMap p).*1 -> NoDup (slottedChildrenMap r.1).*1)
  ∧ (no_empty_bucket (slottedChildrenMap p) -> no_empty_bucket (slottedChildrenMap r.1))
  ∧ ∀ q, bucket q (slottedChildrenMap r.1) ++ omap (pending_item validateSlotValue q) r.2
         ≡ₚ bucket q (slottedChildrenMap p) ++ items validateSlotValue w el q cs i.
Proof.
  induction cs as [|c cs IH]; intros i p Hd; cbn [map_children].
  - cbv zeta. cbn [fst snd omap items].
    split; [exact Hd|]. split; [done|]. split; [done|]. split; [constructor|].
    split; [done|]. split; [done|]. intros q. reflexivity.
  - pose proof (start_spec el c (autoIncrementMap p) (world p)) as (Sd & St & Sb & Ss).
    destruct (start el c (autoIncrementMap p) (world p)) as [[st autoInc] w1].
    cbn [fst snd] in Sd, St, Sb, Ss.
    set (p1 := {| world := w1; autoIncrementMap := autoInc;
                  slottedChildrenMap := slottedChildrenMap p;
                  fulfilled := fulfilled p |}).
    assert (same_dom w w1) as Hd1 by (by eapply same_dom_trans).
    assert (slotOf w el c = slotOf (world p) el c) as Hso
      by (symmetry; by apply same_dom_slotOf).
    destruct st as [|slotName slotData|slotName slotData name timeout].
    + destruct (IH (S i) p1 Hd1) as (I1 & I2 & I3 & I4 & I5 & I6 & I7).
      cbv zeta in *. cbn [items]. unfold item at 1. rewrite Hso, Ss. cbn.
      split; [done|]. split; [by etrans|]. split; [by auto|].
      split; [done|]. split; [done|]. split; [done|]. exact I7.
    + set (p2 := finish validateSlotValue el c i slotName slotData p1).
      destruct (finish_spec el c i slotName slotData p1) as (Fd & Ft & _).
      destruct (finish_keys el c i slotName slotData p1) as (Fk & Fe).
      fold p2 in Fd, Ft, Fk, Fe.
      destruct (IH (S i) p2 (same_dom_trans _ _ _ Hd1 Fd))
        as (I1 & I2 & I3 & I4 & I5 & I6 & I7).
      cbv zeta in *.
      split; [done|]. split; [rewrite Ft in I2; by etrans|].
      split.
      { intros Hb. apply I3. apply (timeouts_bounded_same w1); [|done|by auto].
        destruct Fd as (_ & -> & _). done. }
      split; [done|]. split; [by auto|]. split; [by auto|].
      intros q. rewrite (I7 q). subst p2.
      rewrite (finish_bucket el c i slotName slotData p1 q w) by congruence.
      cbn [items]. destruct (item validateSlotValue w el q c i); cbn;
        [by rewrite <- app_assoc | by rewrite app_nil_r].
    + destruct Ss as [Ss Sto].
      destruct (IH (S i) p1 Hd1) as (I1 & I2 & I3 & I4 & I5 & I6 & I7).
      cbv zeta in *.
      destruct (map_children validateSlotValue el cs (S i) p1) as [p2 waiting].
      cbn [fst snd] in *.
      split; [done|]. split; [by etrans|]. split; [by auto|].
      split.
      { constructor; [|done]. cbn. by eapply lookup_weaken. }
      split; [done|]. split; [done|].
      intros q. cbn [omap list_omap items].
      assert (pending_item validateSlotValue q
                {| pending_child := c; pending_idx := i; pending_slotName := slotName;
                   pending_slotData := slotData; pending_localName := name;
                   pending_timeout := timeout |}
              = item validateSlotValue w el q c i) as ->.
      { unfold pending_item, item. rewrite Hso, Ss. by cbn. }
      destruct (item validateSlotValue w el q c i) as [x|]; [|apply I7].
      rewrite <- !Permutation_middle. by rewrite (I7 q).
Qed.
End DistributionFacts.

(** ** Slot distribution: clearing the slots *)

Lemma detach_children_clock cs : ∀ w,
  let w' := foldl (λ w0 c,
                     match isUI5Element w0 c with
                     | Some n => _detachChildPropertyUpdated n w0
                     | None => w0
                     end) w cs in
  elementTimeouts w' = elementTimeouts w ∧ now w' = now w
  ∧ customElements w' = customElements w.
Proof.
  induction cs as [|x cs IH]; intros w; cbn [foldl]; [done|].
  destruct (IH (match isUI5Element w x with
                | Some n => _detachChildPropertyUpdated n w
                | None => w
                end)) as (-> & -> & ->).
  destruct (isUI5Element w x) as [n|]; [|done].
  unfold _detachChildPropertyUpdated.
  by destruct (update_node_frame n (with_listener false) w) as (_ & _ & _ & -> & -> & ->).
Qed.

Lemma state_set_spec el p v w d fields :
  instance w el = Some d ->
  heap w !! _state d = Some (OObject fields) ->
  nodes (state_set el p v w) = nodes w
  ∧ heap (state_set el p v w) = <[_state d := OObject (<[p := v]> fields)]> (heap w)
  ∧ elementTimeouts (state_set el p v w) = elementTimeouts w
  ∧ now (state_set el p v w) = now w
  ∧ customElements (state_set el p v w) = customElements w.
Proof. intros Hi Hh. unfold state_set. by rewrite Hi, Hh. Qed.

(** One call of [_clearSlot], on an instance whose state is an object of
    the store. *)
Lemma clearSlot_spec el slotName w d fields :
  instance w el = Some d ->
  heap w !! _state d = Some (OObject fields) ->
  ∃ d' fields',
    instance (_clearSlot el slotName w) el = Some d'
    ∧ constructor d' = constructor d ∧ _state d' = _state d
    ∧ heap (_clearSlot el slotName w) !! _state d = Some (OObject fields')
    ∧ (∀ m, _getSlotName (_clearSlot el slotName w) m = _getSlotName w m)
    ∧ (∀ m, constructor <$> instance (_clearSlot el slotName w) m
            = constructor <$> instance w m)
    ∧ elementTimeouts (_clearSlot el slotName w) = elementTimeouts w
    ∧ now (_clearSlot el slotName w) = now w
    ∧ customElements (_clearSlot el slotName w) = customElements w
    ∧ (∀ slotData, entry slotName (slots (constructor d)) = Some slotData ->
         empty_field (_clearSlot el slotName w) fields'
           (slotPropertyName slotName slotData))
    ∧ (∀ p, empty_field w fields p -> empty_field (_clearSlot el slotName w) fields' p).
Proof.
  intros Hi Hh. unfold _clearSlot. rewrite Hi.
  destruct (entry slotName (slots (constructor d))) as [slotData|] eqn:He.
  2:{ exists d, fields. by repeat split. }
  set (cs := as_array w _).
  destruct (detach_children_spec cs w) as (Dh & _ & _ & Di & Ds & _ & _).
  destruct (detach_children_clock cs w) as (Dt & Dn & Dc).
  cbv zeta in Dh, Di, Ds, Dt, Dn, Dc. set (w1 := foldl _ w cs) in *.
  pose proof (alloc_fresh (OArray []) w1) as (Af & Ah & An & _).
  assert (elementTimeouts (alloc (OArray []) w1).2 = elementTimeouts w1
          ∧ now (alloc (OArray []) w1).2 = now w1
          ∧ customElements (alloc (OArray []) w1).2 = customElements w1)
    as (At & Anow & Ac) by done.
  destruct (alloc (OArray []) w1) as [arr w2]. cbn [fst snd] in *.
  assert (instance w2 el = Some d) as Hi2.
  { unfold instance. rewrite An. fold (instance w1 el). by rewrite Di. }
  assert (heap w2 !! _state d = Some (OObject fields)) as Hh2.
  { rewrite Ah, lookup_insert_ne; [by rewrite Dh|].
    intros Heq. rewrite Heq, Dh in Af. congruence. }
  set (p := slotPropertyName slotName slotData).
  destruct (state_set_spec el p (VObj arr) w2 d fields Hi2 Hh2)
    as (Sn & Sh & St & Snow & Sc).
  set (w3 := state_set el p (VObj arr) w2) in *.
  assert (instance w3 el = Some d) as Hi3.
  { unfold instance. rewrite Sn. exact Hi2. }
  assert (∀ m, instance w3 m = instance w m) as Hi3'.
  { intros m. unfold instance. rewrite Sn, An. apply Di. }
  assert (∀ m, _getSlotName w3 m = _getSlotName w m) as Hs3.
  { intros m. unfold _getSlotName. rewrite Sn, An. apply Ds. }
  destruct (_invalidate_frame w3 el) as (Ih & _ & It & Ic & Inow).
  assert (same_dom w3 (_invalidate el w3)) as Hsd.
  { rewrite (_invalidate_spec w3 el d Hi3).
    destruct (_ && _); [|apply same_dom_refl].
    unfold renderDeferred.
    pose proof (same_dom_with_ui5 el (with_invalidated true) w3) as G.
    destruct G as (G1 & G2 & G3 & G4 & G5 & G6); [done|]. by repeat split. }
  destruct Hsd as (_ & _ & _ & I4 & I5 & I6).
  pose proof (I5 el) as I5el. pose proof (I6 el) as I6el. rewrite Hi3 in I5el, I6el.
  destruct (instance (_invalidate el w3) el) as [d'|] eqn:Hi4; [|done].
  cbn in I5el, I6el. injection I5el as I5el. injection I6el as I6el.
  assert (arr ≠ _state d) as Hne.
  { intros Heq. rewrite Heq, Dh in Af. congruence. }
  exists d', (<[p := VObj arr]> fields).
  split; [done|]. split; [done|]. split; [done|].
  split; [by rewrite Ih, Sh, lookup_insert_eq|].
  split; [intros m; by rewrite I4, Hs3|].
  split; [intros m; by rewrite I5, Hi3'|].
  split; [congruence|]. split; [congruence|]. split; [congruence|].
  split.
  - intros sd [= <-]. exists arr. split; [by rewrite lookup_insert_eq|].
    rewrite Ih, Sh, lookup_insert_ne by done. by rewrite Ah, lookup_insert_eq.
  - intros q (arr0 & Hq & Harr0).
    destruct (decide (p = q)) as [<-|Hpq].
    + exists arr. split; [by rewrite lookup_insert_eq|].
      rewrite Ih, Sh, lookup_insert_ne by done. by rewrite Ah, lookup_insert_eq.
    + exists arr0. split; [by rewrite lookup_insert_ne|].
      rewrite Ih, Sh. rewrite lookup_insert_ne by (intros Heq; congruence).
      rewrite Ah, lookup_insert_ne; [by rewrite Dh|].
      intros Heq. rewrite Heq, Dh in Af. congruence.
Qed.

Lemma entry_elem_of {A} k (a : A) entries : entry k entries = Some a -> (k, a) ∈ entries.
Proof.
  induction entries as [|[k' a'] entries IH]; cbn; [done|].
  destruct (String.eqb k' k) eqn:E.
  - intros [= ->]. apply String.eqb_eq in E as ->. apply list_elem_of_here.
  - intros H. apply elem_of_cons. right. by apply IH.
Qed.

(** The loop over the slots at the start of [_updateSlots]. *)
Lemma clearSlots_spec el (names : list (string * SlotData)) : ∀ w d fields,
  instance w el = Some d ->
  heap w !! _state d = Some (OObject fields) ->
  let w' := foldl (λ w0 '(slotName, _), _clearSlot el slotName w0) w names in
  ∃ d' fields',
    instance w' el = Some d'
    ∧ constructor d' = constructor d ∧ _state d' = _state d
    ∧ heap w' !! _state d = Some (OObject fields')
    ∧ (∀ m, _getSlotName w' m = _getSlotName w m)
    ∧ (∀ m, constructor <$> instance w' m = constructor <$> instance w m)
    ∧ elementTimeouts w' = elementTimeouts w
    ∧ now w' = now w
    ∧ customElements w' = customElements w
    ∧ (∀ slotName sd0 slotData,
         (slotName, sd0) ∈ names ->
         entry slotName (slots (constructor d)) = Some slotData ->
         empty_field w' fields' (slotPropertyName slotName slotData))
    ∧ (∀ p, empty_field w fields p -> empty_field w' fields' p).
Proof.
  induction names as [|[slotName sd0] names IH]; intros w d fields Hi Hh; cbn [foldl].
  - exists d, fields. repeat split; try done. intros ? ? ? H. by apply elem_of_nil in H.
  - destruct (clearSlot_spec el slotName w d fields Hi Hh)
      as (d1 & fields1 & Hi1 & Hc1 & Hs1 & Hh1 & Hg1 & Hk1 & Ht1 & Hn1 & Hr1 & He1 & Hp1).
    rewrite <- Hs1 in Hh1.
    destruct (IH (_clearSlot el slotName w) d1 fields1 Hi1 Hh1)
      as (d2 & fields2 & Hi2 & Hc2 & Hs2 & Hh2 & Hg2 & Hk2 & Ht2 & Hn2 & Hr2 & He2 & Hp2).
    cbv zeta in *. exists d2, fields2.
    split; [done|]. split; [congruence|]. split; [congruence|].
    split; [by rewrite <- Hs1|].
    split; [intros m; by rewrite Hg2|]. split; [intros m; by rewrite Hk2|].
    split; [congruence|]. split; [congruence|]. split; [congruence|].
    split.
    + intros sn sd sdata Hin Hent. apply elem_of_cons in Hin as [[= -> ->]|Hin].
      * apply Hp2. by apply He1.
      * apply (He2 sn sd); [done|]. by rewrite Hc1.
    + intros p Hp. by apply Hp2, Hp1.
Qed.

(** ** Slot distribution: sorting and writing *)

#[local] Instance in_order_total : Total in_order.
Proof. intros a b. unfold in_order, compareFn. lia. Qed.

#[local] Instance in_order_trans : Transitive in_order.
Proof. intros a b c. unfold in_order, compareFn. lia. Qed.





Section DistributionOrder.
Variable validateSlotValue : value -> SlotData -> option value.

Lemma resume_spec el ts : ∀ p,
  same_dom (world p) (world (resume validateSlotValue el ts p))
  ∧ elementTimeouts (world (resume validateSlotValue el ts p)) = elementTimeouts (world p)
  ∧ (NoDup (slottedChildrenMap p).*1 ->
     NoDup (slottedChildrenMap (resume validateSlotValue el ts p)).*1)
  ∧ (no_empty_bucket (slottedChildrenMap p) ->
     no_empty_bucket (slottedChildrenMap (resume validateSlotValue el ts p)))
  ∧ ∀ q, bucket q (slottedChildrenMap (resume validateSlotValue el ts p))
         = bucket q (slottedChildrenMap p) ++ omap (pending_item validateSlotValue q) ts.
Proof.
  unfold resume. induction ts as [|t ts IH]; intros p; cbn [foldl].
  - split; [apply same_dom_refl|]. split; [done|]. split; [done|]. split; [done|].
    intros q. cbn. by rewrite app_nil_r.
  - set (p1 := finish validateSlotValue el (pending_child t) (pending_idx t)
                 (pending_slotName t) (pending_slotData t) p).
    destruct (finish_spec validateSlotValue el (pending_child t) (pending_idx t)
                (pending_slotName t) (pending_slotData t) p) as (Fd & Ft & Fs).
    destruct (finish_keys validateSlotValue el (pending_child t) (pending_idx t)
                (pending_slotName t) (pending_slotData t) p) as (Fk & Fe).
    fold p1 in Fd, Ft, Fs, Fk, Fe.
    destruct (IH p1) as (I1 & I2 & I3 & I4 & I5).
    split; [by eapply same_dom_trans|]. split; [congruence|].
    split; [by auto|]. split; [by auto|].
    intros q. rewrite I5, Fs. cbn [omap list_omap]. unfold pending_item at 2.
    destruct (validateSlotValue (VNode (pending_child t)) (pending_slotData t)) as [v|];
      cbn.
    + rewrite bucket_push.
      destruct (decide (slotPropertyName (pending_slotName t) (pending_slotData t) = q));
        cbn; [by rewrite <- app_assoc | done].
    + by destruct (decide (slotPropertyName (pending_slotName t) (pending_slotData t) = q)).
Qed.






(** A pass whose validation accepts every child is fulfilled. *)
Lemma finish_fulfilled el c i slotName slotData p :
  is_Some (validateSlotValue (VNode c) slotData) ->
  fulfilled (finish validateSlotValue el c i slotName slotData p) = fulfilled p.
Proof. intros [v Hv]. unfold finish. by rewrite Hv. Qed.

Lemma map_children_fulfilled el cs : ∀ i p,
  (∀ v slotData, is_Some (validateSlotValue v slotData)) ->
  fulfilled (map_children validateSlotValue el cs i p).1 = fulfilled p.
Proof.
  induction cs as [|c cs IH]; intros i p Hv; cbn [map_children]; [done|].
  destruct (start el c (autoIncrementMap p) (world p)) as [[st autoInc] w1].
  destruct st as [|slotName slotData|slotName slotData name timeout].
  - by rewrite IH.
  - rewrite IH by done. by rewrite finish_fulfilled.
  - specialize (IH (S i) {| world := w1; autoIncrementMap := autoInc;
                            slottedChildrenMap := slottedChildrenMap p;
                            fulfilled := fulfilled p |} Hv).
    by destruct (map_children validateSlotValue el cs (S i) _).
Qed.

Lemma resume_fulfilled el ts : ∀ p,
  (∀ v slotData, is_Some (validateSlotValue v slotData)) ->
  fulfilled (resume validateSlotValue el ts p) = fulfilled p.
Proof.
  unfold resume. induction ts as [|t ts IH]; intros p Hv; cbn [foldl]; [done|].
  rewrite IH by done. by apply finish_fulfilled.
Qed.

Lemma _updateSlots_fulfilled schedule el w d :
  (∀ v slotData, is_Some (validateSlotValue v slotData)) ->
  instance w el = Some d ->
  (_updateSlots validateSlotValue schedule el w).2 = true.
Proof.
  intros Hv Hi. unfold _updateSlots, allChildrenUpgraded. rewrite Hi.
  match goal with |- context [map_children validateSlotValue el ?cs 0 ?p0] =>
    pose proof (map_children_fulfilled el cs 0 p0 Hv) as Hm;
    destruct (map_children validateSlotValue el cs 0 p0) as [p waiting]
  end.
  cbn [fst fulfilled] in Hm.
  pose proof (resume_fulfilled el (schedule waiting) p Hv) as Hr.
  rewrite Hm in Hr. by rewrite Hr.
Qed.

End DistributionOrder.



(** ** Slot distribution: the wait for undefined elements *)







(** * Further properties *)

(** ** Slot names *)

Lemma list_ascii_of_string_app s1 s2 :
  String.list_ascii_of_string (s1 +:+ s2)
  = String.list_ascii_of_string s1 ++ String.list_ascii_of_string s2.
Proof.
  induction s1 as [|a s1 IH]; [done|].
  change (String a s1 +:+ s2) with (String a (s1 +:+ s2)). cbn. by rewrite IH.
Qed.

Lemma span_digits_app ds rest :
  Forall (λ c, is_digit c = true) ds ->
  match rest with [] => True | c :: _ => is_digit c = false end ->
  span_digits (ds ++ rest) = (ds, rest).
Proof.
  induction 1 as [|d ds Hd _ IH]; intros Hrest.
  - destruct rest as [|c rest]; [done|]. cbn [app span_digits]. by rewrite Hrest.
  - cbn [app span_digits]. rewrite Hd, IH by done. done.
Qed.

Lemma pretty_N_char_digit x : is_digit (pretty_N_char x) = true.
Proof. unfold pretty_N_char. by repeat case_match. Qed.

Lemma pretty_N_go_digits x : ∀ s,
  Forall (λ c, is_digit c = true) (String.list_ascii_of_string s) ->
  Forall (λ c, is_digit c = true) (String.list_ascii_of_string (pretty_N_go x s)).
Proof.
  induction (N.lt_wf_0 x) as [x _ IH]; intros s Hs.
  assert (x = 0 ∨ 0 < x)%N as [->|Hx] by lia.
  - by rewrite pretty_N_go_0.
  - rewrite pretty_N_go_step by done. apply IH; [by apply N.div_lt|].
    cbn. constructor; [apply pretty_N_char_digit | done].
Qed.

Lemma pretty_N_go_nonempty x : ∀ s, s ≠ "" -> pretty_N_go x s ≠ "".
Proof.
  induction (N.lt_wf_0 x) as [x _ IH]; intros s Hs.
  assert (x = 0 ∨ 0 < x)%N as [->|Hx] by lia.
  - by rewrite pretty_N_go_0.
  - rewrite pretty_N_go_step by done. apply IH; [by apply N.div_lt | done].
Qed.

(** The decimal form of a number is a non-empty run of digits. *)
Lemma pretty_nat_digits (n : nat) :
  Forall (λ c, is_digit c = true) (String.list_ascii_of_string (pretty n))
  ∧ pretty n ≠ "".
Proof.
  unfold pretty, pretty_nat, pretty, pretty_N.
  destruct (decide (N.of_nat n = 0%N)) as [_|Hn].
  - split; [by repeat constructor | done].
  - split; [by apply pretty_N_go_digits; constructor|].
    rewrite pretty_N_go_step by lia. by apply pretty_N_go_nonempty.
Qed.

Lemma list_ascii_of_string_nil s : String.list_ascii_of_string s = [] -> s = "".
Proof. by destruct s. Qed.

(** The name of an individual slot leads back to the slot: the group of
    the regular expression, on the name a pass gives to a child, is the
    slot name, when that is not empty and holds no line break. *)
Lemma match_numeric_suffix_individual slotName (n : nat) :
  slotName ≠ "" ->
  forallb (λ c, negb (is_line_terminator c)) (String.list_ascii_of_string slotName) = true ->
  match_numeric_suffix (slotName +:+ "-" +:+ pretty n) = Some slotName.
Proof.
  intros Hne Hlt. unfold match_numeric_suffix.
  destruct (pretty_nat_digits n) as [Hd Hp].
  rewrite !list_ascii_of_string_app, !reverse_app. cbn [String.list_ascii_of_string].
  rewrite <- app_assoc. rewrite reverse_singleton. cbn [app].
  rewrite span_digits_app; [| |done].
  2:{ apply Forall_reverse. exact Hd. }
  destruct (reverse (String.list_ascii_of_string (pretty n))) as [|d ds] eqn:Ed.
  { apply (f_equal reverse) in Ed. rewrite reverse_involutive in Ed.
    by apply list_ascii_of_string_nil in Ed. }
  destruct (reverse (String.list_ascii_of_string slotName)) as [|g gs] eqn:Eg.
  { apply (f_equal reverse) in Eg. rewrite reverse_involutive in Eg.
    by apply list_ascii_of_string_nil in Eg. }
  assert (forallb (λ c, negb (is_line_terminator c)) (g :: gs) = true) as Hg.
  { rewrite <- Eg. apply forallb_forall. intros c Hc.
    rewrite forallb_forall in Hlt. apply Hlt.
    rewrite <- list_elem_of_In in Hc |- *. by rewrite elem_of_reverse in Hc. }
  rewrite Hg. cbn [Ascii.eqb Bool.eqb andb].
  rewrite <- Eg, reverse_involutive. by rewrite String.string_of_list_ascii_of_string.
Qed.

(** [_getSlotName] on a child that carries the name of an individual slot
    in its slot attribute gives the slot. *)
Theorem _getSlotName_individual w c nd slotName (n : nat) :
  nodes w !! c = Some nd ->
  kind nd = HTMLElementNode ->
  attributes nd !! "slot" = Some (slotName +:+ "-" +:+ pretty n) ->
  slotName ≠ "" ->
  forallb (λ c, negb (is_line_terminator c)) (String.list_ascii_of_string slotName) = true ->
  _getSlotName w c = slotName.
Proof.
  intros Hc Hk Ha Hne Hlt. unfold _getSlotName. rewrite Hc, Hk, Ha.
  rewrite match_numeric_suffix_individual by done.
  destruct (String.eqb (slotName +:+ "-" +:+ pretty n) "") eqn:E; [|done].
  apply String.eqb_eq in E. destruct slotName; [done | discriminate].
Qed.

(** A child with the attribute slot="content-32". *)
Lemma _getSlotName_individual_witness :
  _getSlotName
    (world_of {[ 1%positive := element_of "div" {[ "slot" := "content-32" ]} None [] ]}) 1
  = "content".
Proof.
  apply (_getSlotName_individual _ 1
           (element_of "div" {[ "slot" := "content-32" ]} None []) "content" 32);
    [reflexivity | reflexivity | vm_compute; reflexivity | discriminate | reflexivity].
Defined.

(** The slot of a node that is no HTML element, or that has no slot
    attribute or an empty one, is the default slot; a slot attribute that
    does not end in a digit is the slot name as it stands. *)
Theorem _getSlotName_plain w c nd :
  nodes w !! c = Some nd ->
  (kind nd ≠ HTMLElementNode -> _getSlotName w c = "default")
  ∧ (attributes nd !! "slot" = None -> _getSlotName w c = "default")
  ∧ (attributes nd !! "slot" = Some "" -> _getSlotName w c = "default")
  ∧ (∀ s a, kind nd = HTMLElementNode ->
       attributes nd !! "slot" = Some (s +:+ String a "") ->
       is_digit a = false ->
       _getSlotName w c = s +:+ String a "").
Proof.
  intros Hc. unfold _getSlotName. rewrite Hc.
  split; [|split; [|split]].
  - intros Hk. by destruct (kind nd).
  - intros ->. by destruct (kind nd).
  - intros ->. by destruct (kind nd).
  - intros s a -> -> Ha.
    destruct (String.eqb (s +:+ String a "") "") eqn:E.
    { apply String.eqb_eq in E. destruct s; discriminate. }
    unfold match_numeric_suffix.
    rewrite list_ascii_of_string_app, reverse_app. cbn. by rewrite Ha.
Qed.

(** An element with slot="footer". *)
Lemma _getSlotName_plain_witness :
  _getSlotName
    (world_of {[ 1%positive := element_of "div" {[ "slot" := "footer" ]} None [] ]}) 1
  = "footer".
Proof.
  assert (nodes (world_of {[ 1%positive := element_of "div" {[ "slot" := "footer" ]} None [] ]})
            !! 1%positive
          = Some (element_of "div" {[ "slot" := "footer" ]} None [])) as H1
    by reflexivity.
  destruct (_getSlotName_plain _ 1 _ H1) as (_ & _ & _ & H).
  apply (H "foote" "r"%char); [reflexivity | vm_compute; reflexivity | reflexivity].
Defined.

(** ** Ids *)

Lemma append_inj_l s a b : s +:+ a = s +:+ b -> a = b.
Proof.
  induction s as [|c s IH]; [done|].
  change (String c s +:+ a) with (String c (s +:+ a)).
  change (String c s +:+ b) with (String c (s +:+ b)).
  intros [= H]. by apply IH.
Qed.

(** The ids of the instances of one class: the names "__<class><k>" with
    [k] counting on from the last number of the class (from 1 for the first
    instance), so no two of them are the same; the counters of the other
    classes are not touched. *)
Theorem generateIds_spec kebabToCamelCase cls n IDMap :
  let name := kebabToCamelCase (tag cls) in
  let last := default 0%nat (IDMap !! name) in
  (generateIds kebabToCamelCase cls n IDMap).1
  = (λ k, "__" +:+ name +:+ pretty (last + k)%nat) <$> seq 1 n
  ∧ NoDup (generateIds kebabToCamelCase cls n IDMap).1
  ∧ (generateIds kebabToCamelCase cls n IDMap).2 !! name
    = (if decide (n = 0%nat) then IDMap !! name else Some (last + n)%nat)
  ∧ ∀ other, other ≠ name ->
      (generateIds kebabToCamelCase cls n IDMap).2 !! other = IDMap !! other.
Proof.
  intros name last.
  assert (∀ n IDMap,
    (generateIds kebabToCamelCase cls n IDMap).1
    = (λ k, "__" +:+ name +:+ pretty (default 0%nat (IDMap !! name) + k)%nat) <$> seq 1 n
    ∧ (generateIds kebabToCamelCase cls n IDMap).2 !! name
      = (if decide (n = 0%nat) then IDMap !! name
         else Some (default 0%nat (IDMap !! name) + n)%nat)
    ∧ ∀ other, other ≠ name ->
        (generateIds kebabToCamelCase cls n IDMap).2 !! other = IDMap !! other) as G.
  { clear n IDMap last. induction n as [|n IH]; intros IDMap; [done|].
    cbn [generateIds]. unfold _nextID. fold name.
    set (next := match IDMap !! name with Some k => (k + 1)%nat | None => 1%nat end).
    assert (next = (default 0%nat (IDMap !! name) + 1)%nat) as Hnext.
    { subst next. destruct (IDMap !! name); cbn; lia. }
    destruct (IH (<[name := next]> IDMap)) as (I1 & I2 & I3).
    destruct (generateIds kebabToCamelCase cls n (<[name := next]> IDMap))
      as [ids IDMap2]. cbn [fst snd] in *.
    rewrite lookup_insert_eq in I1, I2. cbn in I1, I2.
    split; [|split].
    - cbn [seq fmap list_fmap]. rewrite I1, Hnext. f_equal.
      rewrite <- (fmap_S_seq 1), <- list_fmap_compose.
      apply list_fmap_ext. intros i k _. cbn. do 3 f_equal. lia.
    - rewrite I2, Hnext. destruct (decide (n = 0%nat)) as [->|_]; cbn; f_equal; lia.
    - intros other Hne. rewrite I3 by done. by rewrite lookup_insert_ne. }
  destruct (G n IDMap) as (G1 & G2 & G3).
  split; [exact G1|]. split; [|split; [exact G2 | exact G3]].
  rewrite G1. apply NoDup_fmap_2; [|apply NoDup_seq].
  intros i j H. apply append_inj_l, append_inj_l in H.
  apply (inj pretty) in H. lia.
Qed.

(** ** Attributes *)

Section Attributes.
Variable validatePropertyValue : value -> PropertyData -> option value.
Variable hasAttribute : Class -> string -> bool.
Variable camelToKebabCase : string -> string.
Variable kebabToCamelCase : string -> string.
Variable parseInt : option string -> value.

Lemma with_attributes_id nd : with_attributes (attributes nd) nd = nd.
Proof. by destruct nd. Qed.

(** The node of the element after [_updateAttribute], for a property with
    an attribute and a value that is no object. *)
Lemma _updateAttribute_node el name v w nd d :
  nodes w !! el = Some nd -> ui5 nd = Some d ->
  hasAttribute (constructor d) name = true ->
  typeof_object v = false ->
  ∃ attrs',
    nodes (_updateAttribute hasAttribute camelToKebabCase el name v w) !! el
    = Some (with_attributes attrs' nd)
    ∧ (∀ a, a ≠ camelToKebabCase name -> attrs' !! a = attributes nd !! a)
    ∧ attrs' !! camelToKebabCase name
      = match v with
        | VBool true => Some (default "" (attributes nd !! camelToKebabCase name))
        | VBool false => None
        | _ => Some (to_string v)
        end.
Proof.
  intros Hnd Hd Hattr Hobj. unfold _updateAttribute, instance.
  rewrite Hnd. cbn. rewrite Hd, Hattr, Hobj. cbn.
  set (attr := camelToKebabCase name).
  assert (∀ s, nodes (emit (SetAttribute el attr s)
      (update_node el (with_attributes (<[attr := s]> (attributes nd))) w)) !! el
    = Some (with_attributes (<[attr := s]> (attributes nd)) nd)) as Hset.
  { intros s. cbn [emit nodes]. rewrite nodes_update_node, decide_True by done.
    by rewrite Hnd. }
  assert (∀ s v', v' = Some s ->
    ∃ attrs', nodes (emit (SetAttribute el attr s)
      (update_node el (with_attributes (<[attr := s]> (attributes nd))) w)) !! el
      = Some (with_attributes attrs' nd)
      ∧ (∀ a, a ≠ attr -> attrs' !! a = attributes nd !! a)
      ∧ attrs' !! attr = v') as Hset'.
  { intros s v' ->. eexists. split; [apply Hset|]. split.
    - intros a Ha. by rewrite lookup_insert_ne.
    - by rewrite lookup_insert_eq. }
  assert (∀ v', v' = attributes nd !! attr ->
    ∃ attrs', nodes w !! el = Some (with_attributes attrs' nd)
      ∧ (∀ a, a ≠ attr -> attrs' !! a = attributes nd !! a)
      ∧ attrs' !! attr = v') as Hsame.
  { intros v' ->. exists (attributes nd). by rewrite with_attributes_id. }
  assert ((∀ s, v ≠ VStr s) ->
    strict_neq (from_option VStr VNull (attributes nd !! attr)) v = true) as Hneq.
  { intros Hv. unfold strict_neq, strict_eq.
    destruct (attributes nd !! attr) as [s'|], v; try done; cbn;
      try (by rewrite bool_decide_eq_false_2). }
  destruct v as [| |b|n| |s| |]; try done; rewrite ?Hneq by done.
  - apply Hset'. done.
  - destruct b; cbn.
    + destruct (attributes nd !! attr) as [s|] eqn:Ha; cbn.
      * apply Hsame. done.
      * apply Hset'. done.
    + destruct (attributes nd !! attr) as [s|] eqn:Ha; cbn.
      * eexists. split; [|split].
        -- rewrite nodes_update_node, decide_True by done. by rewrite Hnd.
        -- intros a Hne. by rewrite lookup_delete_ne.
        -- by rewrite lookup_delete_eq.
      * apply Hsame. done.
  - apply Hset'. done.
  - apply Hset'. done.
  - unfold strict_neq, strict_eq.
    destruct (attributes nd !! attr) as [s'|] eqn:Ha; cbn.
    + destruct (bool_decide (VStr s' = VStr s)) eqn:Hs; cbn.
      * apply bool_decide_eq_true in Hs as [= ->]. apply Hsame. done.
      * apply Hset'. done.
    + apply Hset'. done.
Qed.

(** [_updateAttribute] makes the attribute say what the value is: for a
    Boolean the attribute is there exactly when the value is [true] (and an
    attribute that was there keeps its text), for the other values that are
    no objects the attribute holds the text of the value; no other attribute
    changes. *)
Theorem _updateAttribute_reflects el name v w nd d :
  nodes w !! el = Some nd -> ui5 nd = Some d ->
  hasAttribute (constructor d) name = true ->
  typeof_object v = false ->
  ∃ nd',
    nodes (_updateAttribute hasAttribute camelToKebabCase el name v w) !! el = Some nd'
    ∧ ui5 nd' = Some d
    ∧ (∀ a, a ≠ camelToKebabCase name -> attributes nd' !! a = attributes nd !! a)
    ∧ match v with
      | VBool b =>
          (is_Some (attributes nd' !! camelToKebabCase name) ↔ b = true)
          ∧ (∀ s, attributes nd !! camelToKebabCase name = Some s -> b = true ->
               attributes nd' !! camelToKebabCase name = Some s)
      | _ => attributes nd' !! camelToKebabCase name = Some (to_string v)
      end.
Proof.
  intros Hnd Hd Hattr Hobj.
  destruct (_updateAttribute_node el name v w nd d Hnd Hd Hattr Hobj)
    as (attrs' & Hn & Hother & Hthis).
  eexists. split; [exact Hn|]. cbn [ui5 attributes with_attributes].
  split; [done|]. split; [done|].
  destruct v as [| |b|n| |s| |]; try done.
  destruct b.
  - rewrite Hthis. split; [by split|]. intros s Hs _. by rewrite Hs.
  - rewrite Hthis. split; [|done]. split; [by intros []|done].
Qed.

(** A second [_updateAttribute] with the same value finds the attributes as
    it wants them; with a Boolean or a string it does nothing at all. *)
Theorem _updateAttribute_twice el name w :
  (∀ v, nodes (_updateAttribute hasAttribute camelToKebabCase el name v
                 (_updateAttribute hasAttribute camelToKebabCase el name v w))
        = nodes (_updateAttribute hasAttribute camelToKebabCase el name v w))
  ∧ (∀ b, _updateAttribute hasAttribute camelToKebabCase el name (VBool b)
            (_updateAttribute hasAttribute camelToKebabCase el name (VBool b) w)
          = _updateAttribute hasAttribute camelToKebabCase el name (VBool b) w)
  ∧ (∀ s, _updateAttribute hasAttribute camelToKebabCase el name (VStr s)
            (_updateAttribute hasAttribute camelToKebabCase el name (VStr s) w)
          = _updateAttribute hasAttribute camelToKebabCase el name (VStr s) w).
Proof.
  assert (∀ v w0, nodes w0 !! el = None ∨ (nodes w0 !! el ≫= ui5) = None
                 ∨ (∃ nd d, nodes w0 !! el = Some nd ∧ ui5 nd = Some d
                      ∧ hasAttribute (constructor d) name = false)
                 ∨ typeof_object v = true ->
     _updateAttribute hasAttribute camelToKebabCase el name v w0 = w0) as Hskip.
  { intros v w0 H. unfold _updateAttribute, instance.
    destruct (nodes w0 !! el) as [nd|] eqn:Hnd; [|done]. cbn.
    destruct (ui5 nd) as [d|] eqn:Hd; [|done].
    destruct H as [H|[H|[(nd' & d' & H1 & H2 & H3)|H]]]; try done.
    - cbn in H. congruence.
    - assert (nd' = nd) as -> by congruence.
      assert (d' = d) as -> by congruence. by rewrite H3.
    - rewrite H. by destruct (hasAttribute (constructor d) name). }
  assert (∀ v, (∀ w0 nd d, nodes w0 !! el = Some nd -> ui5 nd = Some d ->
      hasAttribute (constructor d) name = true -> typeof_object v = false ->
      _updateAttribute hasAttribute camelToKebabCase el name v
        (_updateAttribute hasAttribute camelToKebabCase el name v w0)
      = _updateAttribute hasAttribute camelToKebabCase el name v w0) ->
    _updateAttribute hasAttribute camelToKebabCase el name v
        (_updateAttribute hasAttribute camelToKebabCase el name v w)
      = _updateAttribute hasAttribute camelToKebabCase el name v w) as Hcases.
  { intros v H.
    destruct (nodes w !! el) as [nd|] eqn:Hnd;
      [|by rewrite !(Hskip v w) by auto].
    destruct (ui5 nd) as [d|] eqn:Hd;
      [|by rewrite !(Hskip v w) by (right; left; by rewrite Hnd)].
    destruct (hasAttribute (constructor d) name) eqn:Ha;
      [|by rewrite !(Hskip v w) by (right; right; left; eauto)].
    destruct (typeof_object v) eqn:Ho;
      [by rewrite !(Hskip v w) by auto|].
    by eapply H. }
  split; [|split].
  - intros v.
    destruct (nodes w !! el) as [nd|] eqn:Hnd;
      [|by rewrite !(Hskip v w) by auto].
    destruct (ui5 nd) as [d|] eqn:Hd;
      [|by rewrite !(Hskip v w) by (right; left; by rewrite Hnd)].
    destruct (hasAttribute (constructor d) name) eqn:Ha;
      [|by rewrite !(Hskip v w) by (right; right; left; eauto)].
    destruct (typeof_object v) eqn:Ho;
      [by rewrite !(Hskip v w) by auto|].
    destruct (_updateAttribute_node el name v w nd d Hnd Hd Ha Ho)
      as (attrs1 & Hn1 & Hother1 & Hthis1).
    destruct (_updateAttribute_node el name v _ _ d Hn1 Hd Ha Ho)
      as (attrs2 & Hn2 & Hother2 & Hthis2).
    cbn [attributes with_attributes] in Hother2, Hthis2.
    assert (attrs2 = attrs1) as ->.
    { apply map_eq. intros a. destruct (decide (a = camelToKebabCase name)) as [->|Hne].
      - rewrite Hthis2, Hthis1. destruct v as [| |[]|n| |s| |]; try done.
      - by rewrite Hother2. }
    apply map_eq. intros m. destruct (decide (m = el)) as [->|Hne].
    + rewrite Hn2, Hn1. by destruct nd.
    + set (w1 := _updateAttribute hasAttribute camelToKebabCase el name v w).
      assert (∀ w0, nodes (_updateAttribute hasAttribute camelToKebabCase el name v w0) !! m
                    = nodes w0 !! m) as Hframe.
      { intros w0. unfold _updateAttribute.
        destruct (nodes w0 !! el) as [nd0|], (instance w0 el) as [d0|]; try done.
        destruct (negb _); [done|]. destruct (typeof_object v); [done|].
        destruct v as [| |b|n| |s| |]; cbn [emit nodes];
          repeat (match goal with |- context [if ?c then _ else _] => destruct c end);
          cbn [emit nodes]; rewrite ?nodes_update_node, ?decide_False by done; done. }
      by rewrite Hframe.
  - intros b. apply Hcases. intros w0 nd d Hnd Hd Ha Ho.
    destruct (_updateAttribute_node el name (VBool b) w0 nd d Hnd Hd Ha Ho)
      as (attrs1 & Hn1 & Hother1 & Hthis1).
    set (w1 := _updateAttribute hasAttribute camelToKebabCase el name (VBool b) w0) in *.
    unfold _updateAttribute at 1, instance. rewrite Hn1. cbn. rewrite Hd, Ha. cbn.
    rewrite Hthis1. by destruct b.
  - intros s. apply Hcases. intros w0 nd d Hnd Hd Ha Ho.
    destruct (_updateAttribute_node el name (VStr s) w0 nd d Hnd Hd Ha Ho)
      as (attrs1 & Hn1 & Hother1 & Hthis1).
    set (w1 := _updateAttribute hasAttribute camelToKebabCase el name (VStr s) w0) in *.
    unfold _updateAttribute at 1, instance. rewrite Hn1. cbn. rewrite Hd, Ha. cbn.
    rewrite Hthis1. cbn. unfold strict_neq, strict_eq.
    by rewrite bool_decide_eq_true_2.
Qed.

End Attributes.

Lemma _updateAttribute_reflects_witness :
  nodes renderedButton !! 1%positive = Some renderedButtonNode
  ∧ ∃ nd',
      nodes (_updateAttribute (λ _ _, true) (λ s, s) 1 "text" (VStr "Ok") renderedButton)
        !! 1%positive = Some nd'
      ∧ ui5 nd' = Some renderedButtonData
      ∧ (∀ a, a ≠ "text" -> attributes nd' !! a = attributes renderedButtonNode !! a)
      ∧ attributes nd' !! "text" = Some "Ok".
Proof.
  split; [vm_compute; reflexivity|].
  apply (_updateAttribute_reflects (λ _ _, true) (λ s, s) 1 "text" (VStr "Ok")
           renderedButton renderedButtonNode renderedButtonData);
    [vm_compute; reflexivity | reflexivity | reflexivity | reflexivity].
Defined.

(** ** The setter, the getter and the attribute callback *)

Section Reflection.
Variable validatePropertyValue : value -> PropertyData -> option value.
Variable hasAttribute : Class -> string -> bool.
Variable camelToKebabCase : string -> string.
Variable kebabToCamelCase : string -> string.
Variable parseInt : option string -> value.

Lemma get_field_written fields p v' q :
  get_field (if strict_neq (get_field fields p) v' then <[p := v']> fields else fields) q
  = if decide (q = p) then v' else get_field fields q.
Proof.
  destruct (decide (q = p)) as [->|Hne].
  - destruct (strict_neq (get_field fields p) v') eqn:E.
    + unfold get_field. by rewrite lookup_insert_eq.
    + apply negb_false_iff, strict_eq_eq in E. done.
  - destruct (strict_neq (get_field fields p) v'); [|done].
    unfold get_field. by rewrite lookup_insert_ne.
Qed.

(** What the state holds after the setter. *)
Lemma property_set_stores prop propData v v' el w d fields :
  instance w el = Some d ->
  heap w !! _state d = Some (OObject fields) ->
  validatePropertyValue v propData = Some v' ->
  ∃ w' d',
    property_set validatePropertyValue hasAttribute camelToKebabCase
      prop propData v el w = Some w'
    ∧ instance w' el = Some d'
    ∧ _state d' = _state d ∧ constructor d' = constructor d
    ∧ heap w' !! _state d
      = Some (OObject (if strict_neq (get_field fields prop) v'
                       then <[prop := v']> fields else fields))
    ∧ ∀ q, state_get w' el q = if decide (q = prop) then v' else state_get w el q.
Proof.
  intros Hi Hh Hv.
  destruct (property_set_step validatePropertyValue hasAttribute camelToKebabCase
              prop propData v v' el w d fields Hi Hh Hv) as (w' & Hset & Hi' & Hh' & _).
  cbn zeta in Hi', Hh'.
  eexists w', _. split; [exact Hset|]. split; [exact Hi'|].
  split; [by destruct (_ && _)|]. split; [by destruct (_ && _)|].
  split; [exact Hh'|].
  intros q. unfold state_get, state_fields. rewrite Hi', Hi, Hh.
  assert (_state (if strict_neq (get_field fields prop) v' && negb (_invalidated d)
                     && rendered d && negb (_suppressInvalidation d)
                  then with_invalidated true d else d) = _state d) as ->
    by (by destruct (_ && _)).
  rewrite Hh'. apply get_field_written.
Qed.

(** What the setter stores, the getter gives back: after a write that
    passes the validation, a read of the property gives the validated
    value and changes nothing, unless that value is [undefined]. *)
Theorem property_set_get prop propData v v' el w d fields :
  instance w el = Some d ->
  heap w !! _state d = Some (OObject fields) ->
  validatePropertyValue v propData = Some v' ->
  v' ≠ VUndefined ->
  ∃ w',
    property_set validatePropertyValue hasAttribute camelToKebabCase
      prop propData v el w = Some w'
    ∧ property_get prop propData el w' = (v', w').
Proof.
  intros Hi Hh Hv Hne.
  destruct (property_set_stores prop propData v v' el w d fields Hi Hh Hv)
    as (w' & d' & Hset & _ & _ & _ & _ & Hst).
  exists w'. split; [exact Hset|].
  unfold property_get. rewrite (Hst prop), decide_True by done.
  assert (strict_neq v' VUndefined = true) as ->; [|done].
  unfold strict_neq, strict_eq. destruct v'; try done.
Qed.

(** The attribute callback of a Boolean property looks at the presence of
    the attribute only, under its name or under the name with the prefix
    "ui5-": afterwards the property is [true] when the attribute is there,
    whatever its text, and [false] when it was removed. *)
Theorem attributeChangedCallback_boolean name newValue el w d fields propData :
  instance w el = Some d ->
  heap w !! _state d = Some (OObject fields) ->
  entry (kebabToCamelCase (realName name)) (properties (constructor d)) = Some propData ->
  type propData = TBoolean ->
  (∀ b, validatePropertyValue (VBool b) propData = Some (VBool b)) ->
  ∃ w',
    attributeChangedCallback validatePropertyValue hasAttribute camelToKebabCase
      kebabToCamelCase parseInt name newValue el w = Some w'
    ∧ state_get w' el (kebabToCamelCase (realName name))
      = VBool (bool_decide (is_Some newValue)).
Proof.
  intros Hi Hh He Ht Hv.
  destruct (property_set_stores (kebabToCamelCase (realName name)) propData
              (VBool (bool_decide (is_Some newValue))) _ el w d fields Hi Hh (Hv _))
    as (w' & d' & Hset & _ & _ & _ & _ & Hst).
  exists w'. unfold attributeChangedCallback. rewrite Hi, He, Ht.
  split; [exact Hset|]. by rewrite Hst, decide_True.
Qed.

(** The value the attribute callback assigns. *)
Lemma attributeChangedCallback_spec name newValue el w d propData :
  instance w el = Some d ->
  entry (kebabToCamelCase (realName name)) (properties (constructor d)) = Some propData ->
  attributeChangedCallback validatePropertyValue hasAttribute camelToKebabCase
    kebabToCamelCase parseInt name newValue el w
  = property_set validatePropertyValue hasAttribute camelToKebabCase
      (kebabToCamelCase (realName name)) propData
      match type propData with
      | TBoolean => VBool (bool_decide (is_Some newValue))
      | TInteger => parseInt newValue
      | _ => from_option VStr VNull newValue
      end el w.
Proof. intros Hi He. unfold attributeChangedCallback. by rewrite Hi, He. Qed.

(** The setter on a stored value that is the validated one. *)
Lemma property_set_same prop propData v v' el w :
  validatePropertyValue v propData = Some v' ->
  state_get w el prop = v' -> v' ≠ VNaN ->
  property_set validatePropertyValue hasAttribute camelToKebabCase
    prop propData v el w = Some w.
Proof.
  intros Hv Hs Hn. unfold property_set. rewrite Hv. cbn. rewrite Hs.
  assert (strict_neq v' v' = false) as ->; [|done].
  unfold strict_neq, strict_eq. destruct v'; try done; by rewrite bool_decide_eq_true_2.
Qed.

(** No loop between a property and its attribute: when the setter writes
    the attribute of a Boolean, string or integer property, the attribute
    callback for that attribute, with the text the attribute now has, finds
    the value in the state and changes nothing; within the write (the
    browser runs the callback from [setAttribute]) and after it. *)
Theorem no_reflection_loop prop propData v v' el w d fields :
  instance w el = Some d ->
  heap w !! _state d = Some (OObject fields) ->
  entry prop (properties (constructor d)) = Some propData ->
  hasAttribute (constructor d) prop = true ->
  kebabToCamelCase (realName (camelToKebabCase prop)) = prop ->
  validatePropertyValue v propData = Some v' ->
  validatePropertyValue v' propData = Some v' ->
  strict_neq (get_field fields prop) v' = true ->
  match type propData, v' with
  | TBoolean, VBool _ => True
  | TInteger, VNum n => parseInt (Some (pretty n)) = VNum n
  | TBoolean, _ | TInteger, _ => False
  | _, VStr _ => True
  | _, _ => False
  end ->
  let written :=
    _updateAttribute hasAttribute camelToKebabCase el prop v'
      (_invalidate el (state_set el prop v' w)) in
  ∃ w' nd',
    property_set validatePropertyValue hasAttribute camelToKebabCase
      prop propData v el w = Some w'
    ∧ nodes w' !! el = Some nd'
    ∧ nodes written !! el = Some nd'
    ∧ attributeChangedCallback validatePropertyValue hasAttribute camelToKebabCase
        kebabToCamelCase parseInt (camelToKebabCase prop)
        (attributes nd' !! camelToKebabCase prop) el written = Some written
    ∧ attributeChangedCallback validatePropertyValue hasAttribute camelToKebabCase
        kebabToCamelCase parseInt (camelToKebabCase prop)
        (attributes nd' !! camelToKebabCase prop) el w' = Some w'.
Proof.
  intros Hi Hh He Ha Hname Hv Hv' Hch Hshape written.
  destruct (property_set_stores prop propData v v' el w d fields Hi Hh Hv)
    as (w' & d' & Hset & Hi' & Hst' & Hc' & _ & Hget).
  assert (w' = emit (DispatchPropertyChange el prop v') written) as Hw'.
  { unfold property_set in Hset. rewrite Hv in Hset. cbn in Hset.
    unfold state_get, state_fields in Hset. rewrite Hi, Hh, Hch in Hset.
    by injection Hset as <-. }
  assert (∀ m, instance w' m = instance written m) as Hiw by (by rewrite Hw').
  assert (∀ q, state_get w' el q = state_get written el q) as Hsw by (by rewrite Hw').
  set (w2 := _invalidate el (state_set el prop v' w)) in *.
  destruct (_updateAttribute_frame hasAttribute camelToKebabCase el prop v' w2)
    as (_ & _ & Hi2).
  fold written in Hi2.
  assert (instance w2 el = Some d') as Hd2 by (by rewrite <- Hi2, <- Hiw).
  unfold instance in Hd2.
  destruct (nodes w2 !! el) as [nd2|] eqn:Hn2; [|done]. cbn in Hd2.
  assert (typeof_object v' = false) as Hobj.
  { destruct (type propData), v'; done. }
  rewrite <- Hc' in Ha.
  destruct (_updateAttribute_node hasAttribute camelToKebabCase el prop v' w2 nd2 d'
              Hn2 Hd2 Ha Hobj) as (attrs' & Hn & _ & Hthis).
  fold written in Hn.
  exists w', (with_attributes attrs' nd2).
  split; [exact Hset|]. split; [by rewrite Hw'|]. split; [exact Hn|].
  cbn [attributes with_attributes]. rewrite Hthis.
  assert (∀ w0, instance w0 el = instance w' el ->
            (∀ q, state_get w0 el q = state_get w' el q) ->
            attributeChangedCallback validatePropertyValue hasAttribute camelToKebabCase
              kebabToCamelCase parseInt (camelToKebabCase prop)
              match v' with
              | VBool true => Some (default "" (attributes nd2 !! camelToKebabCase prop))
              | VBool false => None
              | _ => Some (to_string v')
              end el w0 = Some w0) as Hcb.
  { intros w0 Hi0 Hs0.
    rewrite (attributeChangedCallback_spec _ _ el w0 d' propData);
      rewrite ?Hname, ?Hc'; [|by rewrite Hi0|done].
    apply (property_set_same _ _ _ v').
    - destruct (type propData), v' as [| |[]|n0| |s0| |]; try done.
      cbn [to_string]. by rewrite Hshape.
    - by rewrite Hs0, Hget, decide_True.
    - destruct (type propData), v'; done. }
  split; apply Hcb; done.
Qed.

(** [_upgradeAllProperties]: every declared property that was set on the
    element before the upgrade is taken off the element and is in the
    state afterwards, validated; the properties that are not declared stay on
    the element, and the rest of the state is as it was. *)
Theorem _upgradeAllProperties_spec own el w d fields :
  instance w el = Some d ->
  heap w !! _state d = Some (OObject fields) ->
  NoDup (properties (constructor d)).*1 ->
  (∀ p pd v, (p, pd) ∈ properties (constructor d) -> own !! p = Some v ->
             is_Some (validatePropertyValue v pd)) ->
  ∃ own' w',
    _upgradeAllProperties validatePropertyValue hasAttribute camelToKebabCase
      own el w = Some (own', w')
    ∧ (∀ p, own' !! p = if decide (p ∈ (properties (constructor d)).*1)
                        then None else own !! p)
    ∧ (∀ p pd v v', (p, pd) ∈ properties (constructor d) -> own !! p = Some v ->
         validatePropertyValue v pd = Some v' -> state_get w' el p = v')
    ∧ (∀ p, p ∉ (properties (constructor d)).*1 ∨ own !! p = None ->
         state_get w' el p = state_get w el p).
Proof.
  intros Hi Hh Hnd Hval. unfold _upgradeAllProperties. rewrite Hi.
  revert Hnd Hval. generalize (properties (constructor d)) as props.
  intros props. revert own w d fields Hi Hh.
  induction props as [|[p0 pd0] props IH]; intros own w d fields Hi Hh Hnd Hval.
  - exists own, w. cbn. split; [done|]. split; [|split].
    + intros p. rewrite decide_False; [done|]. apply not_elem_of_nil.
    + intros p pd v v' Hin. by apply elem_of_nil in Hin.
    + done.
  - cbn [fmap list_fmap fst] in Hnd. apply NoDup_cons in Hnd as [Hp0 Hnd].
    cbn [foldl]. cbn [mbind option_bind]. unfold _upgradeProperty at 2. cbn [fst snd].
    destruct (own !! p0) as [v0|] eqn:Hown.
    + destruct (Hval p0 pd0 v0) as [v0' Hv0]; [apply list_elem_of_here|done|].
      destruct (property_set_stores p0 pd0 v0 v0' el w d fields Hi Hh Hv0)
        as (w1 & d1 & Hset & Hi1 & Hst1 & Hc1 & Hh1 & Hget1).
      rewrite Hset. cbn [mbind option_bind].
      rewrite <- Hst1 in Hh1.
      destruct (IH (delete p0 own) w1 d1 _ Hi1 Hh1 Hnd) as (own' & w' & Hf & Hown' & Hin' & Hout').
      { intros p pd v Hin Hl. apply lookup_delete_Some in Hl as [_ Hl].
        apply (Hval p pd v); [by apply elem_of_cons; right|done]. }
      exists own', w'. split; [exact Hf|]. split; [|split].
      * intros p. rewrite Hown'. cbn [fmap list_fmap fst].
        destruct (decide (p = p0)) as [->|Hne].
        -- rewrite lookup_delete_eq. rewrite (decide_True _ _ (list_elem_of_here _ _)).
           by destruct (decide _).
        -- rewrite lookup_delete_ne by done.
           destruct (decide (p ∈ props.*1)) as [Hin|Hnin].
           ++ by rewrite decide_True by (by apply elem_of_cons; right).
           ++ rewrite decide_False; [done|].
              intros [?|?]%elem_of_cons; done.
      * intros p pd v v' Hin Hl Hv.
        apply elem_of_cons in Hin as [[= -> ->]|Hin].
        -- rewrite Hout' by (by left). rewrite Hget1, decide_True by done. congruence.
        -- assert (p ≠ p0) as Hne.
           { intros ->. apply Hp0. apply list_elem_of_fmap. by exists (p0, pd). }
           apply (Hin' p pd v v' Hin); [by rewrite lookup_delete_ne|done].
      * intros p Hp.
        assert (p ≠ p0) as Hne.
        { intros ->. destruct Hp as [Hp|Hp]; [|congruence].
          apply Hp. apply list_elem_of_here. }
        rewrite Hout', Hget1, decide_False; [done|done|].
        destruct Hp as [Hp|Hp].
        -- left. intros Hin. apply Hp. by apply elem_of_cons; right.
        -- right. by rewrite lookup_delete_ne.
    + destruct (IH own w d fields Hi Hh Hnd) as (own' & w' & Hf & Hown' & Hin' & Hout').
      { intros p pd v Hin Hl. apply (Hval p pd v); [by apply elem_of_cons; right|done]. }
      exists own', w'. split; [exact Hf|]. split; [|split].
      * intros p. rewrite Hown'. cbn [fmap list_fmap fst].
        destruct (decide (p = p0)) as [->|Hne].
        -- rewrite (decide_True _ _ (list_elem_of_here _ _)), decide_False by done. done.
        -- destruct (decide (p ∈ props.*1)) as [Hin|Hnin].
           ++ by rewrite decide_True by (by apply elem_of_cons; right).
           ++ rewrite decide_False; [done|].
              intros [?|?]%elem_of_cons; done.
      * intros p pd v v' Hin Hl Hv.
        apply elem_of_cons in Hin as [[= -> ->]|Hin]; [congruence|].
        by apply (Hin' p pd v v' Hin).
      * intros p Hp. apply Hout'.
        destruct (decide (p = p0)) as [->|Hne]; [by right|].
        destruct Hp as [Hp|Hp]; [|by right].
        left. intros Hin. apply Hp. by apply elem_of_cons; right.
Qed.

End Reflection.

Lemma property_set_get_witness :
  ∃ w',
    property_set (λ v _, Some v) (λ _ _, true) (λ s, s)
      "text" textProperty (VStr "Ok") 1 renderedButton = Some w'
    ∧ property_get "text" textProperty 1 w' = (VStr "Ok", w').
Proof.
  apply (property_set_get (λ v _, Some v) (λ _ _, true) (λ s, s)
           "text" textProperty (VStr "Ok") (VStr "Ok") 1 renderedButton
           renderedButtonData renderedButtonFields);
    [vm_compute; reflexivity | vm_compute; reflexivity | reflexivity | discriminate].
Defined.

Lemma attributeChangedCallback_boolean_witness :
  ∃ w',
    attributeChangedCallback (λ v _, Some v) (λ _ _, true) (λ s, s) (λ s, s)
      (λ _, VNaN) "ui5-active" (Some "false") 1 newSwitch = Some w'
    ∧ state_get w' 1 "active" = VBool true.
Proof.
  apply (attributeChangedCallback_boolean (λ v _, Some v) (λ _ _, true) (λ s, s)
           (λ s, s) (λ _, VNaN) "ui5-active" (Some "false") 1 newSwitch
           newSwitchData newSwitchFields
           {| type := TBoolean; multiple := false; defaultValue := Some (VBool true) |});
    [vm_compute; reflexivity | vm_compute; reflexivity | reflexivity | reflexivity
    | reflexivity].
Defined.

Lemma no_reflection_loop_witness :
  ∃ w' nd',
    property_set (λ v _, Some v) (λ _ _, true) (λ s, s)
      "text" textProperty (VStr "Ok") 1 renderedButton = Some w'
    ∧ nodes w' !! 1%positive = Some nd'
    ∧ nodes (_updateAttribute (λ _ _, true) (λ s, s) 1 "text" (VStr "Ok")
               (_invalidate 1 (state_set 1 "text" (VStr "Ok") renderedButton)))
        !! 1%positive = Some nd'
    ∧ attributeChangedCallback (λ v _, Some v) (λ _ _, true) (λ s, s) (λ s, s)
        (λ _, VNaN) "text" (attributes nd' !! "text") 1
        (_updateAttribute (λ _ _, true) (λ s, s) 1 "text" (VStr "Ok")
           (_invalidate 1 (state_set 1 "text" (VStr "Ok") renderedButton)))
      = Some (_updateAttribute (λ _ _, true) (λ s, s) 1 "text" (VStr "Ok")
                (_invalidate 1 (state_set 1 "text" (VStr "Ok") renderedButton)))
    ∧ attributeChangedCallback (λ v _, Some v) (λ _ _, true) (λ s, s) (λ s, s)
        (λ _, VNaN) "text" (attributes nd' !! "text") 1 w' = Some w'.
Proof.
  apply (no_reflection_loop (λ v _, Some v) (λ _ _, true) (λ s, s) (λ s, s)
           (λ _, VNaN) "text" textProperty (VStr "Ok") (VStr "Ok") 1 renderedButton
           renderedButtonData renderedButtonFields);
    [vm_compute; reflexivity | vm_compute; reflexivity | reflexivity | reflexivity
    | reflexivity | reflexivity | reflexivity | reflexivity | exact I].
Defined.

Lemma _upgradeAllProperties_spec_witness :
  ∃ own' w',
    _upgradeAllProperties (λ v _, Some v) (λ _ _, true) (λ s, s)
      {[ "text" := VStr "Ok"; "other" := VNum 1 ]} 1 newButton = Some (own', w')
    ∧ own' !! "text" = None
    ∧ own' !! "other" = Some (VNum 1)
    ∧ state_get w' 1 "text" = VStr "Ok".
Proof.
  destruct (_upgradeAllProperties_spec (λ v _, Some v) (λ _ _, true) (λ s, s)
              {[ "text" := VStr "Ok"; "other" := VNum 1 ]} 1 newButton
              newButtonData renderedButtonFields)
    as (own' & w' & H & Hown & Hin & _);
    [vm_compute; reflexivity | vm_compute; reflexivity
    | vm_compute; apply NoDup_singleton | intros p pd v _ _; by eexists |].
  exists own', w'. split; [exact H|]. split; [|split].
  - exact (Hown "text").
  - exact (Hown "other").
  - apply (Hin "text" textProperty (VStr "Ok") (VStr "Ok"));
      [apply list_elem_of_here | reflexivity | reflexivity].
Defined.

(** ** Events *)

(** [fireEvent] dispatches the event with the prefix "ui5-" first and then,
    unless the original event is to be skipped, the event under its own
    name, also when the first one was prevented; it returns [true] exactly
    when none of the events it dispatched was prevented. *)
Theorem fireEvent_spec skipOriginalEvent dispatchEvent name data cancelable :
  let r := fireEvent skipOriginalEvent dispatchEvent name data cancelable in
  r.2 = ("ui5-" +:+ name) :: (if skipOriginalEvent name then [] else [name])
  ∧ (r.1 = true ↔ ∀ e, e ∈ r.2 -> dispatchEvent e data cancelable = true).
Proof.
  unfold fireEvent. destruct (skipOriginalEvent name); cbn [fst snd].
  - split; [done|]. split.
    + intros H e He%list_elem_of_singleton. by subst e.
    + intros H. apply H. apply list_elem_of_here.
  - split; [done|]. split.
    + intros [H1 H2]%andb_true_iff e [->|He%list_elem_of_singleton]%elem_of_cons;
        [done|by subst e].
    + intros H. apply andb_true_iff. split; apply H.
      * apply elem_of_cons. right. apply list_elem_of_here.
      * apply list_elem_of_here.
Qed.

(** ** Slotted nodes *)

Section SlottedNodesFacts.
Variable assignedNodes : loc -> list loc.

Lemma foldl_reducer w xs : ∀ acc,
  foldl (reducer assignedNodes w) acc xs
  = acc ++ (xs ≫= reducer assignedNodes w []).
Proof.
  induction xs as [|x xs IH]; intros acc; cbn [foldl mbind list_bind].
  - by rewrite app_nil_r.
  - rewrite IH. rewrite app_assoc. f_equal.
    unfold reducer. by destruct (isSlotElement w x).
Qed.

(** [getSlottedNodes] keeps the nodes of the slot in their order and puts,
    in the place of each [slot] element among them, the HTML elements that
    are assigned to it. So a slot without [slot] elements is given as it is;
    and text nodes stay when they are in the slot itself and are dropped when
    they come through a nested slot. *)
Theorem getSlottedNodes_spec slotName el w l xs :
  state_get w el slotName = VObj l ->
  heap w !! l = Some (OArray xs) ->
  ∃ res,
    getSlottedNodes assignedNodes slotName el w = Some res
    ∧ res = xs ≫= reducer assignedNodes w []
    ∧ (Forall (λ v, isSlotElement w v = None) xs -> res = xs)
    ∧ ∀ v, v ∈ res ↔
        (v ∈ xs ∧ isSlotElement w v = None)
        ∨ ∃ s n, VNode s ∈ xs ∧ isSlotElement w (VNode s) = Some s
                 ∧ v = VNode n ∧ n ∈ assignedNodes s ∧ isHTMLElement w n = true.
Proof.
  intros Hs Hl. exists (xs ≫= reducer assignedNodes w []).
  split; [|split; [done|split]].
  - unfold getSlottedNodes, slot_get. rewrite Hs.
    change (strict_neq (VObj l) VUndefined) with true. cbn iota. rewrite Hl.
    by rewrite foldl_reducer.
  - intros H. clear Hl. induction H as [|x xs' Hx _ IH]; [done|].
    cbn [mbind list_bind]. fold (xs' ≫= reducer assignedNodes w []).
    rewrite IH. unfold reducer. by rewrite Hx.
  - intros v. rewrite list_elem_of_bind. split.
    + intros (x & Hv & Hx). unfold reducer in Hv.
      destruct (isSlotElement w x) as [s|] eqn:E.
      * right. cbn in Hv. apply list_elem_of_fmap in Hv as (n & -> & Hn).
        apply list_elem_of_filter in Hn as [Hn1 Hn2].
        assert (x = VNode s) as ->.
        { unfold isSlotElement in E. destruct x; try done.
          destruct (nodes w !! n0); [|done]. by destruct (_ && _); simplify_eq. }
        exists s, n. repeat split; try done. by apply Is_true_true.
      * left. cbn in Hv. apply list_elem_of_singleton in Hv as ->. done.
    + intros [[Hv E]|(s & n & Hs' & E & -> & Hn & Hh)].
      * exists v. split; [|done]. unfold reducer. rewrite E. cbn.
        apply list_elem_of_here.
      * exists (VNode s). split; [|done]. unfold reducer. rewrite E. cbn.
        apply list_elem_of_fmap. exists n. split; [done|].
        apply list_elem_of_filter. split; [by apply Is_true_true|done].
Qed.

End SlottedNodesFacts.

Lemma getSlottedNodes_spec_witness :
  getSlottedNodes (λ _, []) "items" 1 distributedFamily = Some [VNode 2].
Proof.
  destruct (getSlottedNodes_spec (λ _, []) "items" 1 distributedFamily 7 [VNode 2])
    as (res & Hres & _ & Hsame & _);
    [vm_compute; reflexivity | vm_compute; reflexivity |].
  rewrite Hres. f_equal. apply Hsame.
  apply Forall_cons. split; [vm_compute; reflexivity | apply Forall_nil_2].
Defined.

(** ** Class setup: what [define] registers *)

Section DefineFacts.
Variable isValid : string -> bool.

Lemma generateSlotAccessors_valid slotsMap : ∀ proto,
  Forall (λ '(s, _), isValid s = true) slotsMap ->
  generateSlotAccessors isValid slotsMap proto
  = (proto ++ map (λ '(s, sd), SlotAccessor (slotPropertyName s sd)) slotsMap, None).
Proof.
  induction slotsMap as [|[s sd] slotsMap IH]; intros proto H; cbn [generateSlotAccessors map].
  - by rewrite app_nil_r.
  - apply Forall_cons in H as [Hv H]. rewrite Hv. cbn [negb].
    rewrite IH by done. by rewrite <- app_assoc.
Qed.

(** Accessor generation goes through the declarations in order: it ends
    without an error when every name is valid, and at the first name that is
    not. *)
Lemma generatePropertyAccessors_cases props : ∀ proto,
  Forall (λ '(_, pd), type pd ≠ TLiteral "boolean") props ->
  (Forall (λ p, isValid p = true) props.*1
   ∧ generatePropertyAccessors isValid props proto
     = (proto ++ map (λ '(p, pd), PropertyAccessor p pd) props, None))
  ∨ (∃ props1 name pd props2,
       props = props1 ++ (name, pd) :: props2
       ∧ Forall (λ p, isValid p = true) props1.*1 ∧ isValid name = false
       ∧ (generatePropertyAccessors isValid props proto).2
         = Some (InvalidPropertyName name)).
Proof.
  induction props as [|[p pd] props IH]; intros proto H; cbn [generatePropertyAccessors].
  - left. split; [apply Forall_nil_2|by rewrite app_nil_r].
  - apply Forall_cons in H as [Ht H].
    destruct (isValid p) eqn:Hv; cbn [negb].
    + rewrite bool_decide_eq_false_2 by done. cbn [andb].
      destruct (IH (proto ++ [PropertyAccessor p pd]) H)
        as [[Hall Hg]|(props1 & name & pd' & props2 & -> & Hall & Hn & Hg)].
      * left. split; [by apply Forall_cons|]. rewrite Hg. cbn [map].
        by rewrite <- app_assoc.
      * right. exists ((p, pd) :: props1), name, pd', props2.
        split; [done|]. split; [by apply Forall_cons|]. done.
    + right. exists [], p, pd, props. split; [done|]. split; [apply Forall_nil_2|]. done.
Qed.

Lemma generateSlotAccessors_cases slotsMap : ∀ proto,
  (Forall (λ s, isValid s = true) slotsMap.*1
   ∧ generateSlotAccessors isValid slotsMap proto
     = (proto ++ map (λ '(s, sd), SlotAccessor (slotPropertyName s sd)) slotsMap, None))
  ∨ (∃ slots1 name sd slots2,
       slotsMap = slots1 ++ (name, sd) :: slots2
       ∧ Forall (λ s, isValid s = true) slots1.*1 ∧ isValid name = false
       ∧ (generateSlotAccessors isValid slotsMap proto).2
         = Some (InvalidPropertyName name)).
Proof.
  induction slotsMap as [|[s sd] slotsMap IH]; intros proto; cbn [generateSlotAccessors].
  - left. split; [apply Forall_nil_2|by rewrite app_nil_r].
  - destruct (isValid s) eqn:Hv; cbn [negb].
    + destruct (IH (proto ++ [SlotAccessor (slotPropertyName s sd)]))
        as [[Hall Hg]|(slots1 & name & sd' & slots2 & -> & Hall & Hn & Hg)].
      * left. split; [by apply Forall_cons|]. rewrite Hg. cbn [map].
        by rewrite <- app_assoc.
      * right. exists ((s, sd) :: slots1), name, sd', slots2.
        split; [done|]. split; [by apply Forall_cons|]. done.
    + right. exists [], s, sd, slotsMap. split; [done|]. split; [apply Forall_nil_2|]. done.
Qed.

(** The world and the trace at the point where [define] looks the tag up. *)
Lemma define_prelude cls w :
  let w0 := if onDefine cls then emit (OnDefine (className cls)) (emit Boot w)
            else emit Boot w in
  customElements w0 = customElements w ∧ DefinitionsSet w0 = DefinitionsSet w
  ∧ prototype w0 = prototype w ∧ heap w0 = heap w ∧ nodes w0 = nodes w
  ∧ trace w0 = trace w ++ [Boot]
               ++ (if onDefine cls then [OnDefine (className cls)] else []).
Proof.
  destruct (onDefine cls); cbn; rewrite <- ?app_assoc; repeat split;
    by rewrite ?app_nil_r.
Qed.

(** The first [define] of a class, for a tag the window does not know,
    when the property and slot names are all valid and no two accessors have
    the same name ([Object.defineProperty] refuses a second accessor of a
    name, which the model does not show): nothing is thrown; the prototype of
    the class has the accessors of the properties and then those of the slots,
    in the order of the declarations; the tag is added to the local set and
    registered with the window, as the last effect of the call. *)
Theorem define_registers cls w :
  customElements w !! tag cls = None ->
  prototype w !! className cls = None ->
  NoDup ((properties cls).*1 ++ ((λ '(s, sd), slotPropertyName s sd) <$> slots cls)) ->
  Forall (λ '(_, pd), type pd ≠ TLiteral "boolean") (properties cls) ->
  Forall (λ p, isValid p = true) ((properties cls).*1 ++ (slots cls).*1) ->
  (define isValid cls w).2 = None
  ∧ prototype (define isValid cls w).1 !! className cls
    = Some (map (λ '(p, pd), PropertyAccessor p pd) (properties cls)
            ++ map (λ '(s, sd), SlotAccessor (slotPropertyName s sd)) (slots cls))
  ∧ DefinitionsSet (define isValid cls w).1 = {[tag cls]} ∪ DefinitionsSet w
  ∧ customElements (define isValid cls w).1
    = <[tag cls := className cls]> (customElements w)
  ∧ trace (define isValid cls w).1
    = trace w ++ [Boot]
      ++ (if onDefine cls then [OnDefine (className cls)] else [])
      ++ [CustomElementsDefine (tag cls) (className cls)].
Proof.
  intros Hnone Hproto _ Hty [Hp Hs]%Forall_app. unfold define.
  destruct (define_prelude cls w) as (Hc & Hd & Hpr & _ & _ & Ht).
  set (w0 := if onDefine cls then _ else _) in *. cbn zeta in Hc, Hd, Hpr, Ht.
  rewrite Hc, Hnone. rewrite (bool_decide_eq_false_2 (is_Some None)) by (by intros [? ?]).
  cbn [andb negb]. unfold _generateAccessors. rewrite Hpr, Hproto. cbn [default].
  destruct (generatePropertyAccessors_cases (properties cls) [] Hty)
    as [[_ Hg]|(props1 & name & pd & props2 & Heq & _ & Hn & _)].
  2:{ rewrite Forall_forall in Hp. rewrite Hp in Hn; [done|].
      rewrite Heq, fmap_app. apply elem_of_app. right. apply list_elem_of_here. }
  rewrite Hg.
  destruct (generateSlotAccessors_cases (slots cls)
              ([] ++ map (λ '(p, pd), PropertyAccessor p pd) (properties cls)))
    as [[_ Hg2]|(slots1 & name & sd & slots2 & Heq & _ & Hn & _)].
  2:{ rewrite Forall_forall in Hs. rewrite Hs in Hn; [done|].
      rewrite Heq, fmap_app. apply elem_of_app. right. apply list_elem_of_here. }
  rewrite Hg2. cbn. rewrite lookup_insert_eq, Hd, Hc, Ht.
  rewrite <- !app_assoc. done.
Qed.

(** A first [define] that throws for a name registers nothing: the error
    names the first declared name that is not valid, properties before
    slots; the local set and the registry of the window are as they were, and
    the tag stays unknown. (As above, for accessors of different names.) *)
Theorem define_rejected cls w :
  customElements w !! tag cls = None ->
  prototype w !! className cls = None ->
  NoDup ((properties cls).*1 ++ ((λ '(s, sd), slotPropertyName s sd) <$> slots cls)) ->
  Forall (λ '(_, pd), type pd ≠ TLiteral "boolean") (properties cls) ->
  ¬ Forall (λ p, isValid p = true) ((properties cls).*1 ++ (slots cls).*1) ->
  ∃ names1 name names2,
    (properties cls).*1 ++ (slots cls).*1 = names1 ++ name :: names2
    ∧ Forall (λ p, isValid p = true) names1
    ∧ isValid name = false
    ∧ (define isValid cls w).2 = Some (InvalidPropertyName name)
    ∧ DefinitionsSet (define isValid cls w).1 = DefinitionsSet w
    ∧ customElements (define isValid cls w).1 = customElements w
    ∧ trace (define isValid cls w).1
      = trace w ++ [Boot]
        ++ (if onDefine cls then [OnDefine (className cls)] else []).
Proof.
  intros Hnone _ _ Hty Hnot. unfold define.
  destruct (define_prelude cls w) as (Hc & Hd & Hpr & _ & _ & Ht).
  set (w0 := if onDefine cls then _ else _) in *. cbn zeta in Hc, Hd, Hpr, Ht.
  rewrite Hc, Hnone. rewrite (bool_decide_eq_false_2 (is_Some None)) by (by intros [? ?]).
  cbn [andb negb]. unfold _generateAccessors.
  destruct (generatePropertyAccessors_cases (properties cls)
              (default [] (prototype w0 !! className cls)) Hty)
    as [[Hp Hg]|(props1 & name & pd & props2 & Heq & Hall & Hn & Hg)].
  - rewrite Hg.
    destruct (generateSlotAccessors_cases (slots cls)
                (default [] (prototype w0 !! className cls)
                 ++ map (λ '(p, pd), PropertyAccessor p pd) (properties cls)))
      as [[Hs _]|(slots1 & name & sd & slots2 & Heq & Hall & Hn & Hg2)].
    { destruct Hnot. by apply Forall_app. }
    destruct (generateSlotAccessors _ _ _) as [proto2 e2]. cbn [snd] in Hg2. subst e2.
    exists ((properties cls).*1 ++ slots1.*1), name, slots2.*1.
    split; [by rewrite Heq, fmap_app, <- app_assoc|].
    split; [by apply Forall_app|]. split; [done|]. cbn. by rewrite Hd, Hc, Ht.
  - destruct (generatePropertyAccessors _ _ _) as [proto1 e1]. cbn [snd] in Hg. subst e1.
    exists props1.*1, name, (props2.*1 ++ (slots cls).*1).
    split; [by rewrite Heq, fmap_app, <- app_assoc|].
    split; [done|]. split; [done|]. cbn. by rewrite Hd, Hc, Ht.
Qed.

End DefineFacts.

Lemma define_registers_witness :
  (define (λ _, true) sampleClass (world_of ∅)).2 = None
  ∧ prototype (define (λ _, true) sampleClass (world_of ∅)).1 !! "Button"
    = Some [PropertyAccessor "text" textProperty; SlotAccessor "default"]
  ∧ DefinitionsSet (define (λ _, true) sampleClass (world_of ∅)).1
    = {[ "ui5-button" ]} ∪ ∅
  ∧ customElements (define (λ _, true) sampleClass (world_of ∅)).1
    = <[ "ui5-button" := "Button" ]> ∅
  ∧ trace (define (λ _, true) sampleClass (world_of ∅)).1
    = [Boot; CustomElementsDefine "ui5-button" "Button"].
Proof.
  apply (define_registers (λ _, true) sampleClass (world_of ∅)).
  - reflexivity.
  - reflexivity.
  - apply (bool_decide_unpack _). vm_compute. exact I.
  - apply Forall_cons. split; [discriminate | apply Forall_nil_2].
  - apply Forall_cons. split; [reflexivity|].
    apply Forall_cons. split; [reflexivity | apply Forall_nil_2].
Defined.

Lemma define_rejected_witness :
  ∃ names1 name names2,
    ["text"; "default"] = names1 ++ name :: names2
    ∧ Forall (λ p, negb (String.eqb p "default") = true) names1
    ∧ negb (String.eqb name "default") = false
    ∧ (define (λ p, negb (String.eqb p "default")) sampleClass (world_of ∅)).2
      = Some (InvalidPropertyName name)
    ∧ DefinitionsSet (define (λ p, negb (String.eqb p "default")) sampleClass
                        (world_of ∅)).1 = ∅
    ∧ customElements (define (λ p, negb (String.eqb p "default")) sampleClass
                        (world_of ∅)).1 = ∅
    ∧ trace (define (λ p, negb (String.eqb p "default")) sampleClass (world_of ∅)).1
      = [Boot].
Proof.
  apply (define_rejected (λ p, negb (String.eqb p "default")) sampleClass (world_of ∅)).
  - reflexivity.
  - reflexivity.
  - apply (bool_decide_unpack _). vm_compute. exact I.
  - apply Forall_cons. split; [discriminate | apply Forall_nil_2].
  - intros H. apply Forall_cons in H as [_ H]. apply Forall_cons in H as [H _].
    discriminate H.
Defined.

(** ** The default state of a class *)

(** The default state is computed once for a class: a second
    [_getDefaultState] gives the same object and does nothing else (no new
    arrays, no second warning about the default of a Boolean). *)
Theorem _getDefaultState_cached cls w :
  _getDefaultState cls (_getDefaultState cls w).2 = _getDefaultState cls w.
Proof.
  assert (_defaultState (_getDefaultState cls w).2 !! className cls
          = Some (_getDefaultState cls w).1) as Hc.
  { unfold _getDefaultState.
    destruct (_defaultState w !! className cls) as [l|] eqn:E; [done|].
    destruct (alloc (OObject ∅) w) as [l0 w0].
    destruct (defaultProperties (properties cls) ∅ w0) as [fields1 w1].
    destruct (defaultSlots (slots cls) fields1 w1) as [fields2 w2].
    cbn. by rewrite lookup_insert_eq. }
  unfold _getDefaultState at 1. rewrite Hc. by destruct (_getDefaultState cls w).
Qed.







(** ** Rendering: the slot attribute and the flags *)

Lemma with_attributes_twice a b nd :
  with_attributes a (with_attributes b nd) = with_attributes a nd.
Proof. done. Qed.

Lemma assigned_nil m mn : assigned [] m mn = mn.
Proof.
  unfold assigned. destruct (_individualSlot mn); [|done].
  rewrite bool_decide_eq_false_2; [done|]. apply not_elem_of_nil.
Qed.

(** The nodes after [_assignIndividualSlotsToChildren]. *)
Lemma _assignIndividualSlotsToChildren_nodes el w nd m :
  nodes w !! el = Some nd ->
  nodes (_assignIndividualSlotsToChildren el w) !! m
  = assigned (filter (λ c, isElement w c) (childNodes nd)) m <$> nodes w !! m.
Proof.
  intros Hnd. unfold _assignIndividualSlotsToChildren. rewrite Hnd.
  generalize (filter (λ c, isElement w c) (childNodes nd)). intros cs.
  clear Hnd. revert w m. induction cs as [|c cs IH]; intros w m.
  - cbn [foldl]. destruct (nodes w !! m) as [mn|]; [|done]. cbn.
    by rewrite assigned_nil.
  - cbn [foldl]. rewrite IH.
    assert (∀ mn, _individualSlot mn = None ∨ _individualSlot mn = Some "" ∨ c ≠ m ->
              assigned (c :: cs) m mn = assigned cs m mn) as Hskip.
    { intros mn H. unfold assigned. destruct (_individualSlot mn) as [s|]; [|done].
      destruct H as [H|[H|H]]; [done| |].
      - injection H as ->. cbn. by rewrite !andb_false_r.
      - destruct (decide (m ∈ cs)) as [Hin|Hnin].
        + rewrite !bool_decide_eq_true_2; [done|done|by apply elem_of_cons; right].
        + rewrite !bool_decide_eq_false_2; [done|done|].
          intros [?|?]%elem_of_cons; done. }
    destruct (nodes w !! c) as [cn|] eqn:Hc.
    2:{ destruct (nodes w !! m) as [mn|] eqn:Hm; [|done]. cbn.
        rewrite Hskip; [done|]. right. right. congruence. }
    destruct (_individualSlot cn) as [s|] eqn:Hs.
    2:{ destruct (nodes w !! m) as [mn|] eqn:Hm; [|done]. cbn.
        rewrite Hskip; [done|]. destruct (decide (c = m)) as [->|]; [|auto].
        left. congruence. }
    destruct (String.eqb s "") eqn:He.
    { apply String.eqb_eq in He as ->.
      destruct (nodes w !! m) as [mn|] eqn:Hm; [|done]. cbn.
      rewrite Hskip; [done|]. destruct (decide (c = m)) as [->|]; [|auto].
      right. left. congruence. }
    cbn [emit nodes]. rewrite nodes_update_node.
    destruct (decide (c = m)) as [->|Hne].
    + rewrite Hc. cbn. f_equal. unfold assigned at 2. rewrite Hs.
      rewrite bool_decide_eq_true_2 by apply list_elem_of_here. rewrite He. cbn [andb negb].
      unfold assigned. cbn [_individualSlot with_attributes attributes]. rewrite Hs.
      destruct (_ && _); [|done].
      by rewrite with_attributes_twice, insert_insert_eq.
    + destruct (nodes w !! m) as [mn|] eqn:Hm; [|done]. cbn.
      rewrite Hskip; [done|]. auto.
Qed.

Lemma ui5_assigned cs m mn : ui5 (assigned cs m mn) = ui5 mn.
Proof. unfold assigned. destruct (_individualSlot mn); [|done]. by destruct (_ && _). Qed.

Lemma _assignIndividualSlotsToChildren_frame el w :
  heap (_assignIndividualSlotsToChildren el w) = heap w
  ∧ renderQueue (_assignIndividualSlotsToChildren el w) = renderQueue w
  ∧ ∀ m, instance (_assignIndividualSlotsToChildren el w) m = instance w m.
Proof.
  split; [|split].
  - apply same_view_assignIndividualSlots.
  - unfold _assignIndividualSlotsToChildren.
    destruct (nodes w !! el) as [nd|]; [|done].
    generalize (filter (λ c, isElement w c) (childNodes nd)). intros cs.
    revert w. induction cs as [|c cs IH]; intros w; [done|].
    cbn [foldl]. rewrite IH.
    destruct (nodes w !! c) as [cn|]; [|done].
    destruct (_individualSlot cn) as [s|]; [|done].
    destruct (String.eqb s ""); [done|]. cbn [emit renderQueue].
    apply update_node_frame.
  - intros m. destruct (nodes w !! el) as [nd|] eqn:Hnd.
    + unfold instance. rewrite (_assignIndividualSlotsToChildren_nodes el w nd m Hnd).
      destruct (nodes w !! m) as [mn|]; [|done]. cbn. by rewrite ui5_assigned.
    + unfold _assignIndividualSlotsToChildren. by rewrite Hnd.
Qed.

(** The round trip of an individual slot through a render: a child of an
    element that [_updateSlots] gave the individual slot "<slot>-<n>" gets
    that text as its slot attribute in [_assignIndividualSlotsToChildren],
    and [_getSlotName] reads the name of the slot back from it. *)
Theorem individual_slot_round_trip el w nd c cn slotName (n : nat) :
  nodes w !! el = Some nd ->
  c ∈ childNodes nd ->
  nodes w !! c = Some cn ->
  kind cn = HTMLElementNode ->
  _individualSlot cn = Some (slotName +:+ "-" +:+ pretty n) ->
  slotName ≠ "" ->
  forallb (λ a, negb (is_line_terminator a)) (String.list_ascii_of_string slotName) = true ->
  (∃ cn', nodes (_assignIndividualSlotsToChildren el w) !! c = Some cn'
          ∧ attributes cn' !! "slot" = Some (slotName +:+ "-" +:+ pretty n))
  ∧ _getSlotName (_assignIndividualSlotsToChildren el w) c = slotName.
Proof.
  intros Hnd Hin Hc Hk Hs Hne Hlt.
  pose proof (_assignIndividualSlotsToChildren_nodes el w nd c Hnd) as Hn.
  rewrite Hc in Hn. cbn in Hn.
  assert (slotName +:+ "-" +:+ pretty n ≠ "") as Hne'.
  { destruct slotName; done. }
  assert (assigned (filter (λ c, isElement w c) (childNodes nd)) c cn
          = with_attributes (<["slot" := slotName +:+ "-" +:+ pretty n]> (attributes cn)) cn)
    as Ha.
  { unfold assigned. rewrite Hs.
    rewrite bool_decide_eq_true_2.
    - apply String.eqb_neq in Hne'. by rewrite Hne'.
    - apply list_elem_of_filter. split; [|done].
      unfold isElement. rewrite Hc, Hk. done. }
  rewrite Ha in Hn.
  assert (attributes (with_attributes
            (<["slot" := slotName +:+ "-" +:+ pretty n]> (attributes cn)) cn) !! "slot"
          = Some (slotName +:+ "-" +:+ pretty n)) as Hattr
    by (cbn; by rewrite lookup_insert_eq).
  split; [by eexists|].
  unfold _getSlotName. rewrite Hn. cbn [kind with_attributes]. rewrite Hk, Hattr.
  rewrite match_numeric_suffix_individual by done.
  apply String.eqb_neq in Hne'. by rewrite Hne'.
Qed.

Lemma individual_slot_round_trip_witness :
  (∃ cn', nodes (_assignIndividualSlotsToChildren 1
                   (update_node 2 (with_individualSlot (Some "x-1")) panel))
            !! 2%positive = Some cn'
          ∧ attributes cn' !! "slot" = Some "x-1")
  ∧ _getSlotName (_assignIndividualSlotsToChildren 1
                    (update_node 2 (with_individualSlot (Some "x-1")) panel)) 2 = "x".
Proof.
  eassert (nodes (update_node 2 (with_individualSlot (Some "x-1")) panel) !! 1%positive
           = Some _) as H1 by (vm_compute; reflexivity).
  apply (individual_slot_round_trip 1 _ _ 2
           (with_individualSlot (Some "x-1")
              (element_of "my-item" {[ "slot" := "x-2" ]} (Some 1%positive) []))
           "x" 1 H1);
    [vm_compute; apply elem_of_cons; left; reflexivity | vm_compute; reflexivity
    | reflexivity | reflexivity | discriminate | reflexivity].
Defined.

Section RenderFacts.
Variable adoptedStyleSheets : bool.
Variable ShadyDOM : bool.

Lemma hook_frame present el name w :
  heap (hook present el name w) = heap w
  ∧ renderQueue (hook present el name w) = renderQueue w
  ∧ ∀ m, instance (hook present el name w) m = instance w m.
Proof. by destruct present. Qed.

(** The instance after [_render]: not invalidated, not suppressed, with a
    rendered shadow root; the store and the queue are as they were. *)
Lemma _render_instance el w d :
  instance w el = Some d ->
  ∃ d',
    instance (_render adoptedStyleSheets ShadyDOM el w) el = Some d'
    ∧ constructor d' = constructor d ∧ _state d' = _state d
    ∧ _invalidated d' = false ∧ _suppressInvalidation d' = false
    ∧ rendered d' = true
    ∧ heap (_render adoptedStyleSheets ShadyDOM el w) = heap w
    ∧ renderQueue (_render adoptedStyleSheets ShadyDOM el w) = renderQueue w.
Proof.
  intros Hi. unfold _render. rewrite Hi. cbn zeta.
  set (w1 := update_node el (with_ui5 (with_suppressInvalidation true)) w).
  set (w2 := hook (onBeforeRendering (constructor d)) el "onBeforeRendering" w1).
  set (w3 := hook (_onComponentStateFinalized (constructor d)) el
               "_onComponentStateFinalized" w2).
  set (w4 := update_node el (with_ui5 (with_suppressInvalidation false)) w3).
  set (w5 := update_node el (with_ui5 (with_invalidated false)) w4).
  set (w6 := _updateShadowRoot adoptedStyleSheets ShadyDOM el w5).
  set (w7 := if staticAreaTemplate (constructor d) then emit (UpdateFragment el) w6 else w6).
  set (w8 := _assignIndividualSlotsToChildren el w7).
  destruct (hook_frame (onAfterRendering (constructor d)) el "onAfterRendering" w8)
    as (Hh9 & Hq9 & Hi9).
  destruct (_assignIndividualSlotsToChildren_frame el w7) as (Hh8 & Hq8 & Hi8).
  fold w8 in Hh8, Hq8, Hi8.
  assert (heap w7 = heap w6 ∧ renderQueue w7 = renderQueue w6
          ∧ ∀ m, instance w7 m = instance w6 m) as (Hh7 & Hq7 & Hi7).
  { subst w7. by destruct (staticAreaTemplate (constructor d)). }
  destruct (update_node_frame el
              (with_ui5 (with_shadowRoot
                 (Some (if negb adoptedStyleSheets && negb ShadyDOM then 2 else 1)%nat)))
              (emit (Render el (state_fields w5 el)
                       (negb adoptedStyleSheets && negb ShadyDOM)) w5))
    as (Hh6 & Hq6 & _).
  fold (_updateShadowRoot adoptedStyleSheets ShadyDOM el w5) in Hh6, Hq6. fold w6 in Hh6, Hq6.
  cbn [emit heap renderQueue] in Hh6, Hq6.
  destruct (update_node_frame el (with_ui5 (with_invalidated false)) w4) as (Hh5 & Hq5 & _).
  destruct (update_node_frame el (with_ui5 (with_suppressInvalidation false)) w3)
    as (Hh4 & Hq4 & _).
  destruct (hook_frame (_onComponentStateFinalized (constructor d)) el
              "_onComponentStateFinalized" w2) as (Hh3 & Hq3 & Hi3).
  destruct (hook_frame (onBeforeRendering (constructor d)) el "onBeforeRendering" w1)
    as (Hh2 & Hq2 & Hi2).
  destruct (update_node_frame el (with_ui5 (with_suppressInvalidation true)) w)
    as (Hh1 & Hq1 & _).
  fold w1 in Hh1, Hq1. fold w2 in Hh2, Hq2, Hi2. fold w3 in Hh3, Hq3, Hi3.
  fold w4 in Hh4, Hq4. fold w5 in Hh5, Hq5.
  assert (instance w6 el
          = Some (with_shadowRoot
                    (Some (if negb adoptedStyleSheets && negb ShadyDOM then 2 else 1)%nat)
                    (with_invalidated false
                       (with_suppressInvalidation false
                          (with_suppressInvalidation true d))))) as Hi6.
  { unfold w6, _updateShadowRoot. rewrite instance_update_ui5, decide_True by done.
    change (instance (emit ?e w5) el) with (instance w5 el).
    unfold w5. rewrite instance_update_ui5, decide_True by done.
    unfold w4. rewrite instance_update_ui5, decide_True by done.
    rewrite Hi3, Hi2. unfold w1. rewrite instance_update_ui5, decide_True by done.
    by rewrite Hi. }
  eexists. split; [by rewrite Hi9, Hi8, Hi7, Hi6|].
  cbn. repeat split; try done.
  - by destruct (negb adoptedStyleSheets && negb ShadyDOM).
  - congruence.
  - congruence.
Qed.

Section AfterRender.
Variable validatePropertyValue : value -> PropertyData -> option value.
Variable hasAttribute : Class -> string -> bool.
Variable camelToKebabCase : string -> string.

(** A render arms the invalidation again: whatever the flags of the
    component were before, the first write after [_render] that changes a
    property puts the component into the render queue, once. (The hooks of
    the component are calls that write no property themselves.) *)
Theorem _render_rearms prop propData v v' el w d fields :
  instance w el = Some d ->
  heap w !! _state d = Some (OObject fields) ->
  validatePropertyValue v propData = Some v' ->
  strict_neq (get_field fields prop) v' = true ->
  ∃ w',
    property_set validatePropertyValue hasAttribute camelToKebabCase
      prop propData v el (_render adoptedStyleSheets ShadyDOM el w) = Some w'
    ∧ renderQueue w' = renderQueue w ++ [el]
    ∧ _invalidated <$> instance w' el = Some true.
Proof.
  intros Hi Hh Hv Hch.
  destruct (_render_instance el w d Hi)
    as (d' & Hi' & Hc & Hs & Hinv & Hsup & Hr & Hh' & Hq').
  assert (heap (_render adoptedStyleSheets ShadyDOM el w) !! _state d'
          = Some (OObject fields)) as Hst by (by rewrite Hh', Hs).
  destruct (property_set_step validatePropertyValue hasAttribute camelToKebabCase
              prop propData v v' el _ d' fields Hi' Hst Hv)
    as (w' & Hset & Hi2 & _ & Hq2).
  cbn zeta in Hi2, Hq2. rewrite Hch, Hinv, Hsup, Hr in Hi2, Hq2. cbn in Hi2, Hq2.
  exists w'. split; [exact Hset|]. split; [by rewrite Hq2, Hq'|].
  by rewrite Hi2.
Qed.

End AfterRender.
End RenderFacts.

Lemma _render_rearms_witness :
  ∃ w',
    property_set (λ v _, Some v) (λ _ _, true) (λ s, s)
      "text" textProperty (VStr "Ok") 1 (_render true false 1 newButton) = Some w'
    ∧ renderQueue w' = renderQueue newButton ++ [1%positive]
    ∧ _invalidated <$> instance w' 1 = Some true.
Proof.
  apply (_render_rearms true false (λ v _, Some v) (λ _ _, true) (λ s, s)
           "text" textProperty (VStr "Ok") (VStr "Ok") 1 newButton
           newButtonData renderedButtonFields);
    [vm_compute; reflexivity | vm_compute; reflexivity | reflexivity | reflexivity].
Defined.

(** ** Slot distribution: the queue, the warnings and the individual slots *)

Lemma calm_refl w : calm w w.
Proof. by repeat split. Qed.

Lemma calm_trans w1 w2 w3 : calm w1 w2 -> calm w2 w3 -> calm w1 w3.
Proof.
  intros (A1 & A2 & A3 & A4) (B1 & B2 & B3 & B4).
  split; [congruence|]. split; [congruence|].
  split; intros m; [by rewrite B3|by rewrite B4].
Qed.

Lemma calm_update_node n f w :
  (∀ nd, flags <$> ui5 (f nd) = flags <$> ui5 nd
         ∧ _individualSlot (f nd) = _individualSlot nd) ->
  calm w (update_node n f w).
Proof.
  intros Hf. destruct (update_node_frame n f w) as (_ & Hq & Ht & _).
  split; [done|]. split; [by rewrite Ht|].
  split; intros m; unfold instance; rewrite nodes_update_node;
    destruct (decide (n = m)); try done;
    destruct (nodes w !! m) as [nd|]; try done; cbn; destruct (Hf nd) as [H1 H2].
  - destruct (ui5 (f nd)), (ui5 nd); cbn in *; congruence.
  - by rewrite H2.
Qed.

Lemma calm_same w w' :
  nodes w' = nodes w -> renderQueue w' = renderQueue w -> trace w' = trace w ->
  calm w w'.
Proof.
  intros Hn Hq Ht. split; [done|]. split; [by rewrite Ht|].
  split; intros m; unfold instance; by rewrite Hn.
Qed.

Lemma calm_alloc o w : calm w (alloc o w).2.
Proof. destruct (alloc_fresh o w) as (_ & _ & Hn & _ & Hq & Ht). by apply calm_same. Qed.

Lemma calm_state_set el p v w : calm w (state_set el p v w).
Proof.
  unfold state_set. destruct (instance w el) as [d|]; [|apply calm_refl].
  destruct (heap w !! _state d) as [[|fields]|]; try apply calm_refl.
  by apply calm_same.
Qed.

Lemma warnings_snoc t e :
  warnings (t ++ [e])
  = warnings t ++ match e with ConsoleWarn m => [m] | _ => [] end.
Proof. unfold warnings. rewrite omap_app. cbn. by destruct e. Qed.

Lemma calm_emit e w :
  match e with ConsoleWarn _ => False | _ => True end -> calm w (emit e w).
Proof.
  intros He. split; [done|]. split; [|by split].
  cbn [emit trace]. rewrite warnings_snoc. destruct e; try done; by rewrite app_nil_r.
Qed.

Lemma calm_detach_children cs : ∀ w,
  calm w (foldl (λ w0 c,
                   match isUI5Element w0 c with
                   | Some n => _detachChildPropertyUpdated n w0
                   | None => w0
                   end) w cs).
Proof.
  induction cs as [|c cs IH]; intros w; [apply calm_refl|]. cbn [foldl].
  eapply calm_trans; [|apply IH].
  destruct (isUI5Element w c); [|apply calm_refl].
  unfold _detachChildPropertyUpdated. by apply calm_update_node.
Qed.

Lemma calm_attach el c slotData w : calm w (_attachChildPropertyUpdated el c slotData w).
Proof.
  unfold _attachChildPropertyUpdated.
  destruct (instance w c) as [cd|]; [|apply calm_refl].
  destruct (listenFor slotData) as [lf|]; [|apply calm_refl].
  eapply calm_trans; apply calm_update_node; intros nd; [|done].
  split; [|done]. cbn. destruct (ui5 nd) as [d|]; [|done]. cbn.
  by destruct (_monitoredChildProps d !! _getSlotName w c).
Qed.

Section DistributionEffects.
Variable validateSlotValue : value -> SlotData -> option value.

Lemma calm_finish el c i slotName slotData p :
  calm (world p) (world (finish validateSlotValue el c i slotName slotData p)).
Proof.
  unfold finish. destruct (validateSlotValue (VNode c) slotData) as [v|];
    [|apply calm_refl]. cbn [world].
  destruct (isUI5Element (world p) v); [apply calm_attach|apply calm_refl].
Qed.

Lemma calm_resume el ts : ∀ p, calm (world p) (world (resume validateSlotValue el ts p)).
Proof.
  unfold resume. induction ts as [|t ts IH]; intros p; [apply calm_refl|].
  cbn [foldl]. eapply calm_trans; [apply calm_finish|apply IH].
Qed.

Lemma calm_commit el slotted : ∀ w, calm w (commit el slotted w).
Proof.
  unfold commit. induction slotted as [|[slot children] slotted IH]; intros w;
    [apply calm_refl|].
  cbn [foldl]. eapply calm_trans; [|apply IH].
  pose proof (calm_alloc (OArray (child <$> sort children)) w) as Ha.
  destruct (alloc (OArray (child <$> sort children)) w) as [arr w1]. cbn [snd] in Ha.
  eapply calm_trans; [exact Ha|apply calm_state_set].
Qed.

Lemma quiet_refl w : quiet w w.
Proof. by split. Qed.

Lemma quiet_trans w1 w2 w3 : quiet w1 w2 -> quiet w2 w3 -> quiet w1 w3.
Proof.
  intros (A1 & A2) (B1 & B2). split; [congruence|]. intros m. by rewrite B2.
Qed.

Lemma calm_quiet w w' : calm w w' -> quiet w w'.
Proof. intros (_ & H1 & _ & H2). by split. Qed.

Lemma quiet_invalidate el w : quiet w (_invalidate el w).
Proof.
  destruct (_invalidate_frame w el) as (_ & Ht & _). split; [by rewrite Ht|].
  intros m. unfold _invalidate. destruct (instance w el) as [d|]; [|done].
  destruct (_invalidated d); [done|]. destruct (_ && _); [|done].
  cbn. rewrite nodes_update_node. destruct (decide (el = m)); [|done].
  by destruct (nodes w !! m).
Qed.

Lemma quiet_clearSlot el slotName w : quiet w (_clearSlot el slotName w).
Proof.
  unfold _clearSlot.
  destruct (instance w el) as [d|]; [|apply quiet_refl].
  destruct (entry slotName (slots (constructor d))) as [slotData|]; [|apply quiet_refl].
  set (w2 := foldl _ w _).
  pose proof (calm_alloc (OArray []) w2) as Ha.
  destruct (alloc (OArray []) w2) as [arr w3]. cbn [snd] in Ha.
  eapply quiet_trans; [|apply quiet_invalidate].
  apply calm_quiet.
  eapply calm_trans; [apply calm_detach_children|].
  eapply calm_trans; [exact Ha|apply calm_state_set].
Qed.

Lemma quiet_clearSlots el (names : list (string * SlotData)) : ∀ w,
  quiet w (foldl (λ w0 '(slotName, _), _clearSlot el slotName w0) w names).
Proof.
  induction names as [|[s sd] names IH]; intros w; [apply quiet_refl|].
  cbn [foldl]. eapply quiet_trans; [apply quiet_clearSlot|apply IH].
Qed.

Lemma invalidation_start el d w : instance w el = Some d -> invalidation el d false w w.
Proof.
  intros Hi. unfold invalidation. cbn. rewrite app_nil_r, orb_false_r.
  split; [done|]. by exists d.
Qed.

Lemma invalidation_flags el d b w w1 w2 :
  invalidation el d b w w1 ->
  renderQueue w2 = renderQueue w1 ->
  flags <$> instance w2 el = flags <$> instance w1 el ->
  invalidation el d b w w2.
Proof.
  intros (A1 & d1 & A4 & A5 & A6 & A7) B1 B3.
  split; [congruence|].
  rewrite A4 in B3. cbn in B3.
  destruct (instance w2 el) as [d2|]; [|done]. cbn in B3.
  unfold flags in B3. injection B3 as E1 E2 E3.
  exists d2. split; [done|]. split; [congruence|]. split; congruence.
Qed.

Lemma invalidation_calm el d b w w1 w2 :
  invalidation el d b w w1 -> calm w1 w2 -> invalidation el d b w w2.
Proof.
  intros H (B1 & _ & B3 & _). by apply (invalidation_flags el d b w w1 w2 H).
Qed.

Lemma invalidation_invalidate el d b w w1 :
  invalidation el d b w w1 -> invalidation el d true w (_invalidate el w1).
Proof.
  intros (A1 & d1 & A4 & A5 & A6 & A7).
  rewrite (_invalidate_spec w1 el d1 A4). rewrite A5, A6, A7.
  unfold invalidation. cbn zeta.
  destruct (_invalidated d) eqn:Ei, (rendered d) eqn:Er,
    (_suppressInvalidation d) eqn:Es, b; cbn in *;
    try (split; [done|]; exists d1; by repeat split).
  unfold renderDeferred.
  destruct (update_node_frame el (with_ui5 (with_invalidated true)) w1)
    as (_ & Hq & Ht & _).
  split; [rewrite Hq, A1; by rewrite app_nil_r|].
  exists (with_invalidated true d1).
  split; [|by repeat split].
  change (instance (set_renderQueue ?q ?w0) el) with (instance w0 el).
  rewrite instance_update_ui5, decide_True by done. by rewrite A4.
Qed.

Lemma invalidation_clearSlot el d b w w1 slotName :
  invalidation el d b w w1 ->
  ∃ b', invalidation el d b' w (_clearSlot el slotName w1).
Proof.
  intros H. unfold _clearSlot.
  destruct (instance w1 el) as [d1|]; [|by exists b].
  destruct (entry slotName (slots (constructor d1))) as [slotData|]; [|by exists b].
  set (w2 := foldl _ w1 _).
  pose proof (calm_alloc (OArray []) w2) as Ha.
  destruct (alloc (OArray []) w2) as [arr w3]. cbn [snd] in Ha.
  exists true. apply (invalidation_invalidate el d b).
  eapply invalidation_calm; [exact H|].
  eapply calm_trans; [apply calm_detach_children|].
  eapply calm_trans; [exact Ha|apply calm_state_set].
Qed.

Lemma invalidation_clearSlots el d (names : list (string * SlotData)) : ∀ b w w1,
  invalidation el d b w w1 ->
  ∃ b', invalidation el d b' w
          (foldl (λ w0 '(slotName, _), _clearSlot el slotName w0) w1 names).
Proof.
  induction names as [|[s sd] names IH]; intros b w w1 H; [by exists b|].
  cbn [foldl]. destruct (invalidation_clearSlot el d b w w1 s H) as [b' H'].
  by apply (IH b').
Qed.

End DistributionEffects.

(** What the callback of a child does, up to its [await], besides finding
    the slot: a warning for an unknown slot, the next number of an
    individual slot. *)
Lemma start_effects el c autoInc w d :
  instance w el = Some d ->
  let r := start el c autoInc w in
  renderQueue r.2 = renderQueue w
  ∧ (∀ m, flags <$> instance r.2 m = flags <$> instance w m)
  ∧ warnings (trace r.2) = warnings (trace w) ++ from_option (λ x, [x]) [] (unknown w el c)
  ∧ match slotOf w el c with
    | Some (s, sd) =>
        if individualSlots sd then
          r.1.2 = <[s := (default 0 (autoInc !! s) + 1)%nat]> autoInc
          ∧ ∀ m, _individualSlot <$> nodes r.2 !! m
                 = if decide (c = m)
                   then (λ _, Some (s +:+ "-" +:+ pretty (default 0 (autoInc !! s) + 1)%nat))
                          <$> nodes w !! m
                   else _individualSlot <$> nodes w !! m
        else
          r.1.2 = autoInc
          ∧ ∀ m, _individualSlot <$> nodes r.2 !! m = _individualSlot <$> nodes w !! m
    | None =>
        r.1.2 = autoInc
        ∧ ∀ m, _individualSlot <$> nodes r.2 !! m = _individualSlot <$> nodes w !! m
    end.
Proof.
  intros Hi. cbn zeta. unfold start, unknown, slotOf. rewrite Hi. cbn [mbind option_bind].
  destruct (entry (_getSlotName w c) (slots (constructor d))) as [sd|] eqn:He;
    cbn [mbind option_bind fst snd from_option].
  2:{ split; [done|]. split; [done|]. split; [|done].
      cbn [emit trace]. by rewrite warnings_snoc. }
  assert (∀ (a : gmap string nat) w0,
    let r := match nodes w0 !! c with
             | Some nd =>
                 if bool_decide (kind nd = HTMLElementNode)
                    && isCustomElement (localName nd)
                    && negb (bool_decide (is_Some (customElements w0 !! localName nd)))
                 then
                   match elementTimeouts w0 !! localName nd with
                   | Some timeoutPromise =>
                       (Awaits (_getSlotName w c) sd (localName nd) timeoutPromise, a, w0)
                   | None =>
                       (Awaits (_getSlotName w c) sd (localName nd) (now w0 + 1000), a,
                        set_elementTimeouts
                          (<[localName nd := now w0 + 1000]> (elementTimeouts w0))
                          (emit (SetTimeout (localName nd) 1000) w0))
                   end
                 else (Continues (_getSlotName w c) sd, a, w0)
             | None => (Continues (_getSlotName w c) sd, a, w0)
             end in
    r.1.2 = a ∧ calm w0 r.2) as Hrest.
  { intros a w0. cbn zeta.
    destruct (nodes w0 !! c) as [nd|]; [|split; [done|apply calm_refl]].
    destruct (_ && _); [|split; [done|apply calm_refl]].
    destruct (elementTimeouts w0 !! localName nd); [split; [done|apply calm_refl]|].
    cbn [fst snd]. split; [done|].
    eapply calm_trans; [by apply (calm_emit (SetTimeout (localName nd) 1000))|].
    by apply calm_same. }
  rewrite app_nil_r.
  destruct (individualSlots sd) eqn:Hind.
  - set (s := _getSlotName w c) in *.
    set (w0 := update_node c (with_individualSlot
                 (Some (s +:+ "-" +:+ pretty (default 0 (autoInc !! s) + 1)%nat))) w).
    assert (renderQueue w0 = renderQueue w ∧ warnings (trace w0) = warnings (trace w)
            ∧ ∀ m, flags <$> instance w0 m = flags <$> instance w m) as (Q0 & T0 & F0).
    { destruct (update_node_frame c (with_individualSlot
                 (Some (s +:+ "-" +:+ pretty (default 0 (autoInc !! s) + 1)%nat))) w)
        as (_ & Hq & Ht & _).
      unfold w0. split; [done|]. split; [by rewrite Ht|].
      intros m. by rewrite instance_update_node. }
    destruct (Hrest (<[s := (default 0 (autoInc !! s) + 1)%nat]> autoInc) w0)
      as (R1 & R2 & R3 & R4 & R5).
    split; [congruence|]. split; [intros m; by rewrite R4|].
    split; [congruence|]. split; [done|].
    intros m. rewrite R5. unfold w0. rewrite nodes_update_node.
    destruct (decide (c = m)); [|done]. by destruct (nodes w !! m).
  - destruct (Hrest autoInc w) as (R1 & R2 & R3 & R4 & R5).
    split; [done|]. split; [done|]. split; [done|]. split; done.
Qed.

Lemma slotOf_Some w el d c s sd :
  instance w el = Some d ->
  slotOf w el c = Some (s, sd)
  ↔ s = _getSlotName w c ∧ entry s (slots (constructor d)) = Some sd.
Proof.
  intros Hi. unfold slotOf. rewrite Hi. cbn.
  destruct (entry (_getSlotName w c) (slots (constructor d))) as [sd'|] eqn:E; cbn.
  - split; [intros [= <- <-]; done|]. intros [-> H]. congruence.
  - split; [done|]. intros [-> H]. congruence.
Qed.

Lemma numbered_cons w s c cs :
  numbered w s (c :: cs)
  = ((if decide (_getSlotName w c = s) then 1 else 0) + numbered w s cs)%nat.
Proof. unfold numbered. rewrite filter_cons. by destruct (decide _). Qed.

Lemma fmap_const_eq {A B C} (f : A -> B) (x : C) (a b : option A) :
  f <$> a = f <$> b -> (λ _, x) <$> a = (λ _, x) <$> b.
Proof. by destruct a, b. Qed.

Section DistributionPass.
Variable validateSlotValue : value -> SlotData -> option value.

(** The callbacks of [map], all together. *)
Lemma map_children_effects w el d cs : ∀ i p,
  same_dom w (world p) ->
  instance w el = Some d ->
  let r := map_children validateSlotValue el cs i p in
  renderQueue (world r.1) = renderQueue (world p)
  ∧ (∀ m, flags <$> instance (world r.1) m = flags <$> instance (world p) m)
  ∧ warnings (trace (world r.1))
    = warnings (trace (world p)) ++ omap (unknown w el) cs
  ∧ (∀ s sd, entry s (slots (constructor d)) = Some sd -> individualSlots sd = true ->
       default 0%nat (autoIncrementMap r.1 !! s)
       = (default 0 (autoIncrementMap p !! s) + numbered w s cs)%nat)
  ∧ (∀ m, m ∉ cs ->
       _individualSlot <$> nodes (world r.1) !! m
       = _individualSlot <$> nodes (world p) !! m)
  ∧ (NoDup cs -> ∀ k c,
       cs !! k = Some c ->
       _individualSlot <$> nodes (world r.1) !! c
       = match slotOf w el c with
         | Some (s, sd) =>
             if individualSlots sd
             then (λ _, Some (s +:+ "-"
                              +:+ pretty (default 0 (autoIncrementMap p !! s)
                                          + numbered w s (take (S k) cs))%nat))
                    <$> nodes (world p) !! c
             else _individualSlot <$> nodes (world p) !! c
         | None => _individualSlot <$> nodes (world p) !! c
         end).
Proof.
  induction cs as [|c cs IH]; intros i p Hd Hi; cbn zeta.
  - cbn [map_children fst snd omap list_omap]. rewrite app_nil_r.
    split; [done|]. split; [done|]. split; [done|].
    split; [intros; unfold numbered; cbn; lia|]. split; [done|].
    intros _ k c Hk. done.
  - assert (∃ d', instance (world p) el = Some d' ∧ constructor d' = constructor d)
      as (d' & Hi' & Hc').
    { destruct Hd as (_ & _ & _ & _ & Hcon & _). specialize (Hcon el).
      rewrite Hi in Hcon. destruct (instance (world p) el) as [d'|]; [|done].
      exists d'. split; [done|]. cbn in Hcon. congruence. }
    assert (slotOf (world p) el c = slotOf w el c) as Hso by (by apply same_dom_slotOf).
    assert (_getSlotName (world p) c = _getSlotName w c) as Hgs
      by (destruct Hd as (_ & _ & _ & Hg & _); apply Hg).
    assert (unknown (world p) el c = unknown w el c) as Hun
      by (unfold unknown; by rewrite Hso, Hgs).
    pose proof (start_effects el c (autoIncrementMap p) (world p) d' Hi')
      as (SQ & SF & SW & SI).
    pose proof (start_spec el c (autoIncrementMap p) (world p)) as (Sd & _).
    cbn zeta in SQ, SF, SW, SI. rewrite Hso in SI. rewrite Hun in SW.
    assert (∃ p',
      (map_children validateSlotValue el (c :: cs) i p).1
      = (map_children validateSlotValue el cs (S i) p').1
      ∧ calm (start el c (autoIncrementMap p) (world p)).2 (world p')
      ∧ autoIncrementMap p' = (start el c (autoIncrementMap p) (world p)).1.2
      ∧ same_dom w (world p')) as (p' & Hmap & Hcalm & Hauto & Hd').
    { cbn [map_children].
      destruct (start el c (autoIncrementMap p) (world p)) as [[st autoInc] w1].
      cbn [fst snd] in *.
      assert (same_dom w w1) as Hd1 by (by eapply same_dom_trans).
      destruct st as [|slotName slotData|slotName slotData name timeout].
      - eexists. split; [done|]. split; [apply calm_refl|]. by split.
      - eexists. split; [done|]. split; [apply calm_finish|]. split.
        + unfold finish. by destruct (validateSlotValue (VNode c) slotData).
        + eapply same_dom_trans; [exact Hd1|].
          apply (finish_spec validateSlotValue).
      - eexists {| world := w1; autoIncrementMap := autoInc;
                   slottedChildrenMap := slottedChildrenMap p;
                   fulfilled := fulfilled p |}.
        split; [|split; [apply calm_refl|by split]].
        by destruct (map_children _ _ _ _ _). }
    rewrite Hmap.
    destruct (IH (S i) p' Hd' Hi) as (IQ & IF & IW & IN & IO & IK).
    cbn zeta in IQ, IF, IW, IN, IO, IK.
    destruct Hcalm as (CQ & CW & CF & CI).
    set (r1 := start el c (autoIncrementMap p) (world p)) in *.
    assert (∀ s sd, entry s (slots (constructor d)) = Some sd ->
              individualSlots sd = true ->
              (default 0 (r1.1.2 !! s)
               = default 0 (autoIncrementMap p !! s)
                 + (if decide (_getSlotName w c = s) then 1 else 0))%nat) as Hstep.
    { intros s sd He Hind.
      destruct (slotOf w el c) as [[s0 sd0]|] eqn:Hs0.
      - apply (slotOf_Some w el d) in Hs0 as [-> He0]; [|done].
        destruct (individualSlots sd0) eqn:Hind0.
        + destruct SI as [-> _].
          destruct (decide (_getSlotName w c = s)) as [->|Hne].
          * by rewrite lookup_insert_eq.
          * rewrite lookup_insert_ne by done. lia.
        + destruct SI as [-> _].
          destruct (decide (_getSlotName w c = s)) as [Heq|Hne]; [|lia].
          rewrite Heq in He0. congruence.
      - destruct SI as [-> _].
        destruct (decide (_getSlotName w c = s)) as [Heq|Hne]; [|lia].
        unfold slotOf in Hs0. rewrite Hi in Hs0. cbn in Hs0.
        by rewrite Heq, He in Hs0. }
    assert (∀ m, c ≠ m ->
              _individualSlot <$> nodes r1.2 !! m
              = _individualSlot <$> nodes (world p) !! m) as Hother.
    { intros m Hne. destruct (slotOf w el c) as [[s0 sd0]|].
      - destruct (individualSlots sd0); destruct SI as [_ SI]; rewrite SI;
          [by rewrite decide_False|done].
      - by destruct SI as [_ ->]. }
    split; [congruence|]. split; [intros m; by rewrite IF, CF|].
    split.
    { rewrite IW, CW, SW. cbn [omap list_omap].
      destruct (unknown w el c); cbn; by rewrite <- app_assoc. }
    split.
    { intros s sd He Hind. rewrite (IN s sd He Hind), Hauto, (Hstep s sd He Hind).
      rewrite numbered_cons. lia. }
    split.
    { intros m [Hne Hm]%not_elem_of_cons. rewrite IO, CI by done. by apply Hother. }
    intros [Hc Hnd]%NoDup_cons k c' Hk.
    destruct k as [|k]; cbn in Hk.
    + injection Hk as <-. rewrite IO, CI by done.
      destruct (slotOf w el c) as [[s sd]|] eqn:Hs; [|by destruct SI as [_ ->]].
      apply (slotOf_Some w el d) in Hs as [-> He]; [|done].
      destruct (individualSlots sd); destruct SI as [_ SI]; rewrite SI; [|done].
      rewrite decide_True by done. cbn [take]. unfold numbered.
      rewrite filter_cons, decide_True by done. done.
    + assert (c ≠ c') as Hne.
      { intros ->. apply Hc. by eapply list_elem_of_lookup_2. }
      rewrite (IK Hnd k c' Hk).
      pose proof (Hother c' Hne) as Ho. rewrite <- CI in Ho.
      destruct (slotOf w el c') as [[s sd]|] eqn:Hs; [|done].
      destruct (individualSlots sd) eqn:Hind; [|done].
      apply (slotOf_Some w el d) in Hs as [-> He]; [|done].
      rewrite Hauto, (Hstep _ sd He Hind).
      change (take (S (S k)) (c :: cs)) with (c :: take (S k) cs).
      rewrite numbered_cons, Nat.add_assoc.
      by apply fmap_const_eq with (f := _individualSlot).
Qed.

End DistributionPass.

Lemma slotOf_same w w1 el c :
  (∀ m, _getSlotName w1 m = _getSlotName w m) ->
  (∀ m, constructor <$> instance w1 m = constructor <$> instance w m) ->
  slotOf w1 el c = slotOf w el c ∧ unknown w1 el c = unknown w el c
  ∧ ∀ s cs, numbered w1 s cs = numbered w s cs.
Proof.
  intros Hg Hc.
  assert (slotOf w1 el c = slotOf w el c) as Hs.
  { unfold slotOf. specialize (Hc el). rewrite Hg.
    destruct (instance w1 el) as [d1|], (instance w el) as [d|]; try done.
    cbn in Hc. injection Hc as Hc. cbn. by rewrite Hc. }
  split; [done|]. split; [unfold unknown; by rewrite Hs, Hg|].
  intros s cs. induction cs as [|x cs IH]; [done|].
  by rewrite !numbered_cons, IH, Hg.
Qed.

Lemma omap_pointwise {A B} (f g : A -> option B) (l : list A) :
  (∀ x, f x = g x) -> omap f l = omap g l.
Proof.
  intros H. induction l as [|x l IH]; [done|]. cbn [omap list_omap].
  by rewrite H, IH.
Qed.

Section DistributionResults.
Variable validateSlotValue : value -> SlotData -> option value.
Variable schedule : list Pending -> list Pending.

(** A pass over the slots asks for one render at most: when it is
    fulfilled, the component is in the render queue once more than before if
    it was rendered, not invalidated and not suppressed, and the queue is as
    it was otherwise; however many slots were cleared and children
    distributed. (The steps of the pass follow one another: no render of the
    component runs while the pass waits for its children.) *)
Theorem _updateSlots_one_render el w d w' :
  instance w el = Some d ->
  _updateSlots validateSlotValue schedule el w = (w', true) ->
  renderQueue w'
  = renderQueue w
    ++ (if negb (_invalidated d) && rendered d && negb (_suppressInvalidation d)
        then [el] else [])
  ∧ ∃ d', instance w' el = Some d'
          ∧ _invalidated d'
            = _invalidated d || (rendered d && negb (_suppressInvalidation d)).
Proof.
  intros Hi. unfold _updateSlots, allChildrenUpgraded. rewrite Hi.
  destruct (invalidation_clearSlots el d (slots (constructor d)) false w w
              (invalidation_start el d w Hi)) as [b1 H1].
  set (w1 := foldl _ w (slots (constructor d))) in *.
  assert (∃ d1, instance w1 el = Some d1) as [d1 Hi1].
  { destruct H1 as (_ & d1 & H1 & _). by exists d1. }
  pose proof (map_children_effects validateSlotValue w1 el d1 (domChildren w el) 0
                {| world := w1; autoIncrementMap := ∅;
                   slottedChildrenMap := []; fulfilled := true |}
                (same_dom_refl w1) Hi1) as (MQ & MF & _).
  cbn zeta in MQ, MF.
  destruct (map_children validateSlotValue el (domChildren w el) 0 _) as [p waiting].
  cbn [fst snd world] in MQ, MF.
  pose proof (invalidation_flags el d b1 w w1 (world p) H1 MQ (MF el)) as H2.
  pose proof (invalidation_calm el d b1 w _ _ H2
                (calm_resume validateSlotValue el (schedule waiting) p)) as H3.
  set (p' := resume validateSlotValue el (schedule waiting) p) in *.
  destruct (fulfilled p'); [|discriminate].
  intros [= <-].
  pose proof (invalidation_calm el d b1 w _ _ H3
                (calm_commit el (slottedChildrenMap p') (world p'))) as H4.
  apply (invalidation_invalidate el d b1) in H4.
  destruct H4 as (Q & d' & Hi' & Hinv & _).
  cbn zeta in Q, Hinv. cbn [andb] in Q, Hinv.
  split; [exact Q|]. exists d'. split; [done|]. rewrite Hinv.
  by destruct (_invalidated d), (rendered d), (_suppressInvalidation d).
Qed.

(** The warnings of a pass: one for each child whose slot the class does
    not declare, in document order, whether the pass is fulfilled or not;
    and no other. *)
Theorem _updateSlots_warnings el w d fields :
  instance w el = Some d ->
  heap w !! _state d = Some (OObject fields) ->
  warnings (trace (_updateSlots validateSlotValue schedule el w).1)
  = warnings (trace w) ++ omap (unknown w el) (domChildren w el).
Proof.
  intros Hi Hh. unfold _updateSlots, allChildrenUpgraded. rewrite Hi.
  destruct (clearSlots_spec el (slots (constructor d)) w d fields Hi Hh)
    as (d1 & fields1 & Hi1 & _ & _ & _ & Hg & Hc & _).
  pose proof (quiet_clearSlots el (slots (constructor d)) w) as [QW _].
  set (w1 := foldl _ w (slots (constructor d))) in *.
  pose proof (map_children_effects validateSlotValue w1 el d1 (domChildren w el) 0
                {| world := w1; autoIncrementMap := ∅;
                   slottedChildrenMap := []; fulfilled := true |}
                (same_dom_refl w1) Hi1) as (_ & _ & MW & _).
  cbn zeta in MW.
  destruct (map_children validateSlotValue el (domChildren w el) 0 _) as [p waiting].
  cbn [fst snd world] in MW.
  destruct (calm_resume validateSlotValue el (schedule waiting) p) as (_ & RW & _).
  set (p' := resume validateSlotValue el (schedule waiting) p) in *.
  assert (warnings (trace (world p'))
          = warnings (trace w) ++ omap (unknown w el) (domChildren w el)) as Hw.
  { rewrite RW, MW, QW. f_equal. apply omap_pointwise.
    intros c. by apply slotOf_same. }
  destruct (fulfilled p'); [|done]. cbn [fst].
  destruct (_invalidate_frame (commit el (slottedChildrenMap p') (world p')) el)
    as (_ & -> & _).
  destruct (calm_commit el (slottedChildrenMap p') (world p')) as (_ & -> & _).
  exact Hw.
Qed.

(** The individual slot of every node after a pass. *)
Lemma _updateSlots_individual el w d fields :
  instance w el = Some d ->
  heap w !! _state d = Some (OObject fields) ->
  NoDup (domChildren w el) ->
  (∀ k c, domChildren w el !! k = Some c ->
     _individualSlot <$> nodes (_updateSlots validateSlotValue schedule el w).1 !! c
     = match slotOf w el c with
       | Some (s, sd) =>
           if individualSlots sd
           then (λ _, Some (s +:+ "-"
                            +:+ pretty (numbered w s (take (S k) (domChildren w el)))))
                  <$> nodes w !! c
           else _individualSlot <$> nodes w !! c
       | None => _individualSlot <$> nodes w !! c
       end)
  ∧ (∀ m, m ∉ domChildren w el ->
       _individualSlot <$> nodes (_updateSlots validateSlotValue schedule el w).1 !! m
       = _individualSlot <$> nodes w !! m).
Proof.
  intros Hi Hh Hnd.
  unfold _updateSlots, allChildrenUpgraded. rewrite Hi.
  destruct (clearSlots_spec el (slots (constructor d)) w d fields Hi Hh)
    as (d1 & fields1 & Hi1 & _ & _ & _ & Hg & Hc & _).
  pose proof (quiet_clearSlots el (slots (constructor d)) w) as [_ QI].
  set (w1 := foldl _ w (slots (constructor d))) in *.
  pose proof (map_children_effects validateSlotValue w1 el d1 (domChildren w el) 0
                {| world := w1; autoIncrementMap := ∅;
                   slottedChildrenMap := []; fulfilled := true |}
                (same_dom_refl w1) Hi1) as (_ & _ & _ & _ & MO & MK).
  cbn zeta in MO, MK. specialize (MK Hnd).
  destruct (map_children validateSlotValue el (domChildren w el) 0 _) as [p waiting].
  cbn [fst snd world autoIncrementMap] in MO, MK.
  destruct (calm_resume validateSlotValue el (schedule waiting) p) as (_ & _ & _ & RI).
  set (p' := resume validateSlotValue el (schedule waiting) p) in *.
  assert (∀ m, _individualSlot
                 <$> nodes (if fulfilled p'
                            then (_invalidate el (commit el (slottedChildrenMap p') (world p')),
                                  true)
                            else (world p', false)).1 !! m
               = _individualSlot <$> nodes (world p) !! m) as Hend.
  { intros m. rewrite <- RI. destruct (fulfilled p'); [|done]. cbn [fst].
    destruct (quiet_invalidate el (commit el (slottedChildrenMap p') (world p'))) as [_ ->].
    by destruct (calm_commit el (slottedChildrenMap p') (world p')) as (_ & _ & _ & ->). }
  split.
  - intros k c Hk. rewrite Hend, (MK k c Hk).
    destruct (slotOf_same w w1 el c Hg Hc) as (-> & _ & Hnum).
    destruct (slotOf w el c) as [[s sd]|]; [|done].
    destruct (individualSlots sd); [|done].
    rewrite Hnum, lookup_empty. cbn [default Nat.add].
    by apply fmap_const_eq with (f := _individualSlot).
  - intros m Hm. rewrite Hend, <- QI. by apply MO.
Qed.

(** The numbers of the individual slots: in a slot that is declared with
    individual slots, the children get "<slot>-1", "<slot>-2", ... in
    document order, whatever number their slot attribute had; a child of
    another slot, or of no declared slot, and every other node keep the
    individual slot they had (it is never taken away). *)
Theorem _updateSlots_numbers el w d fields :
  instance w el = Some d ->
  heap w !! _state d = Some (OObject fields) ->
  NoDup (domChildren w el) ->
  let w' := (_updateSlots validateSlotValue schedule el w).1 in
  (∀ k c cn s sd,
     domChildren w el !! k = Some c -> nodes w !! c = Some cn ->
     slotOf w el c = Some (s, sd) -> individualSlots sd = true ->
     _individualSlot <$> nodes w' !! c
     = Some (Some (s +:+ "-"
                   +:+ pretty (numbered w s (take (S k) (domChildren w el))))))
  ∧ (∀ m, m ∉ domChildren w el
          ∨ (∀ s sd, slotOf w el m = Some (s, sd) -> individualSlots sd = false) ->
       _individualSlot <$> nodes w' !! m = _individualSlot <$> nodes w !! m).
Proof.
  intros Hi Hh Hnd. cbn zeta.
  destruct (_updateSlots_individual el w d fields Hi Hh Hnd) as [Hin Hout].
  split.
  - intros k c cn s sd Hk Hn Hs Hind. by rewrite (Hin k c Hk), Hs, Hind, Hn.
  - intros m Hm.
    destruct (decide (m ∈ domChildren w el)) as [Hel|Hnel]; [|by apply Hout].
    apply list_elem_of_lookup_1 in Hel as [k Hk]. rewrite (Hin k m Hk).
    destruct (slotOf w el m) as [[s sd]|] eqn:Hs; [|done].
    destruct Hm as [Hm|Hm]; [destruct Hm; by eapply list_elem_of_lookup_2|].
    by rewrite (Hm s sd).
Qed.

(** A pass that is rejected (the validation of a child threw) leaves
    every declared slot with an empty array: the slots were cleared at the
    start, and the children are not written. *)
Theorem _updateSlots_rejected el w d fields w' :
  instance w el = Some d ->
  heap w !! _state d = Some (OObject fields) ->
  _updateSlots validateSlotValue schedule el w = (w', false) ->
  ∀ slotName slotData,
    entry slotName (slots (constructor d)) = Some slotData ->
    ∃ arr,
      state_get w' el (slotPropertyName slotName slotData) = VObj arr
      ∧ heap w' !! arr = Some (OArray []).
Proof.
  intros Hi Hh. unfold _updateSlots, allChildrenUpgraded. rewrite Hi.
  destruct (clearSlots_spec el (slots (constructor d)) w d fields Hi Hh)
    as (d1 & fields1 & Hi1 & _ & Hs1 & Hh1 & _ & _ & _ & _ & _ & Hempty & _).
  set (w1 := foldl _ w (slots (constructor d))) in *.
  pose proof (map_children_spec validateSlotValue w1 el (domChildren w el) 0
                {| world := w1; autoIncrementMap := ∅;
                   slottedChildrenMap := []; fulfilled := true |}
                (same_dom_refl w1)) as (Md & _).
  cbn zeta in Md.
  destruct (map_children validateSlotValue el (domChildren w el) 0 _) as [p waiting].
  cbn [fst snd] in Md.
  destruct (resume_spec validateSlotValue el (schedule waiting) p) as (Rd & _).
  set (p' := resume validateSlotValue el (schedule waiting) p) in *.
  destruct (fulfilled p'); [discriminate|]. intros [= <-].
  intros slotName slotData He.
  pose proof (same_dom_trans _ _ _ Md Rd) as (Hheap & _ & _ & _ & _ & Hst).
  destruct (Hempty slotName slotData slotData (entry_elem_of _ _ _ He) He)
    as (arr & Hf & Harr).
  exists arr. split; [|by rewrite Hheap].
  unfold state_get, state_fields. specialize (Hst el). rewrite Hi1 in Hst.
  destruct (instance (world p') el) as [d'|]; [|done]. cbn in Hst.
  injection Hst as Hst. rewrite Hst, Hs1, Hheap, Hh1.
  unfold get_field. by rewrite Hf.
Qed.


End DistributionResults.

Lemma _updateSlots_one_render_witness :
  renderQueue (_updateSlots acceptAll (λ waiting, waiting) 1 family).1
  = renderQueue family ++ [1%positive].
Proof.
  eassert (instance family 1 = Some _) as Hi by (vm_compute; reflexivity).
  assert (_updateSlots acceptAll (λ waiting, waiting) 1 family
          = ((_updateSlots acceptAll (λ waiting, waiting) 1 family).1, true)) as Hr
    by (vm_compute; reflexivity).
  exact (proj1 (_updateSlots_one_render acceptAll (λ waiting, waiting) 1 family _ _ Hi Hr)).
Defined.

Lemma _updateSlots_warnings_witness :
  warnings (trace (_updateSlots acceptAll (λ waiting, waiting) 1 buttonWithFooter).1)
  = [UnknownSlotName "footer" 2].
Proof.
  assert (instance buttonWithFooter 1 = Some newButtonData) as Hi
    by (vm_compute; reflexivity).
  assert (heap buttonWithFooter !! _state newButtonData
          = Some (OObject renderedButtonFields)) as Hh by (vm_compute; reflexivity).
  rewrite (_updateSlots_warnings acceptAll (λ waiting, waiting) 1 buttonWithFooter
             newButtonData renderedButtonFields Hi Hh).
  vm_compute. reflexivity.
Defined.

Lemma _updateSlots_numbers_witness :
  _individualSlot <$> nodes (_updateSlots acceptAll reverse 1 panel).1 !! 3%positive
  = Some (Some "x-2").
Proof.
  assert (instance panel 1 = Some panelData) as Hi by (vm_compute; reflexivity).
  assert (heap panel !! _state panelData = Some (OObject panelFields)) as Hh
    by (vm_compute; reflexivity).
  assert (NoDup (domChildren panel 1)) as Hnd
    by (apply (bool_decide_unpack _); vm_compute; exact I).
  destruct (_updateSlots_numbers acceptAll reverse 1 panel panelData panelFields
              Hi Hh Hnd) as [H _].
  apply (H 1%nat 3%positive
           (element_of "my-item" {[ "slot" := "x-1" ]} (Some 1%positive) []) "x" slotX);
    [vm_compute; reflexivity | vm_compute; reflexivity | vm_compute; reflexivity
    | reflexivity].
Defined.

Lemma _updateSlots_rejected_witness :
  (_updateSlots (λ _ _, None) (λ waiting, waiting) 1 family).2 = false
  ∧ ∃ arr,
      state_get (_updateSlots (λ _ _, None) (λ waiting, waiting) 1 family).1 1 "items"
      = VObj arr
      ∧ heap (_updateSlots (λ _ _, None) (λ waiting, waiting) 1 family).1 !! arr
        = Some (OArray []).
Proof.
  split; [vm_compute; reflexivity|].
  eassert (instance family 1 = Some _) as Hi by (vm_compute; reflexivity).
  eassert (heap family !! 3%positive = Some (OObject _)) as Hh
    by (vm_compute; reflexivity).
  assert (_updateSlots (λ _ _, None) (λ waiting, waiting) 1 family
          = ((_updateSlots (λ _ _, None) (λ waiting, waiting) 1 family).1, false)) as Hr
    by (vm_compute; reflexivity).
  apply (_updateSlots_rejected (λ _ _, None) (λ waiting, waiting) 1 family _ _ _
           Hi Hh Hr "default" watchedSlot).
  vm_compute. reflexivity.
Defined.

(** ** Slot distribution: the document *)

Lemma same_light_refl w : same_light w w.
Proof. done. Qed.

Lemma same_light_trans w1 w2 w3 : same_light w1 w2 -> same_light w2 w3 -> same_light w1 w3.
Proof. intros H1 H2 m. by rewrite H2. Qed.

Lemma same_light_nodes w w' : nodes w' = nodes w -> same_light w w'.
Proof. intros H m. by rewrite H. Qed.

Lemma same_light_update_node n f w :
  (∀ nd, light (f nd) = light nd) -> same_light w (update_node n f w).
Proof.
  intros Hf m. rewrite nodes_update_node. destruct (decide (n = m)); [|done].
  destruct (nodes w !! m) as [nd|]; [|done]. cbn. by rewrite Hf.
Qed.

Lemma same_light_invalidate el w : same_light w (_invalidate el w).
Proof.
  unfold _invalidate. destruct (instance w el) as [d|]; [|done].
  destruct (_invalidated d); [done|]. destruct (_ && _); [|done].
  unfold renderDeferred. eapply same_light_trans; [|by apply same_light_nodes].
  by apply same_light_update_node.
Qed.

Lemma same_light_clearSlot el slotName w : same_light w (_clearSlot el slotName w).
Proof.
  unfold _clearSlot. destruct (instance w el) as [d|]; [|done].
  destruct (entry slotName (slots (constructor d))) as [slotData|]; [|done].
  assert (∀ cs w0, same_light w0
            (foldl (λ w1 c,
                      match isUI5Element w1 c with
                      | Some n => _detachChildPropertyUpdated n w1
                      | None => w1
                      end) w0 cs)) as Hdetach.
  { induction cs as [|c cs IH]; intros w0; [done|]. cbn [foldl].
    eapply same_light_trans; [|apply IH].
    destruct (isUI5Element w0 c); [|done]. by apply same_light_update_node. }
  set (w2 := foldl _ w _).
  pose proof (alloc_fresh (OArray []) w2) as (_ & _ & Hn & _).
  destruct (alloc (OArray []) w2) as [arr w3]. cbn [snd] in Hn.
  eapply same_light_trans; [|apply same_light_invalidate].
  eapply same_light_trans; [apply Hdetach|].
  eapply same_light_trans; [by apply same_light_nodes|].
  apply same_light_nodes.
  unfold state_set. destruct (instance w3 el) as [d3|]; [|done].
  by destruct (heap w3 !! _state d3) as [[|?]|].
Qed.

Lemma same_light_attach el c slotData w :
  same_light w (_attachChildPropertyUpdated el c slotData w).
Proof.
  unfold _attachChildPropertyUpdated. destruct (instance w c) as [cd|]; [|done].
  destruct (listenFor slotData) as [lf|]; [|done].
  eapply same_light_trans; by apply same_light_update_node.
Qed.

Lemma same_light_start el c autoInc w : same_light w (start el c autoInc w).2.
Proof.
  unfold start. destruct (instance w el) as [d|]; [|done].
  destruct (entry (_getSlotName w c) (slots (constructor d))) as [sd|]; [|done].
  assert (∀ (a : gmap string nat) w0,
    same_light w w0 ->
    same_light w
      (match nodes w0 !! c with
       | Some nd =>
           if bool_decide (kind nd = HTMLElementNode)
              && isCustomElement (localName nd)
              && negb (bool_decide (is_Some (customElements w0 !! localName nd)))
           then
             match elementTimeouts w0 !! localName nd with
             | Some timeoutPromise =>
                 (Awaits (_getSlotName w c) sd (localName nd) timeoutPromise, a, w0)
             | None =>
                 (Awaits (_getSlotName w c) sd (localName nd) (now w0 + 1000), a,
                  set_elementTimeouts
                    (<[localName nd := now w0 + 1000]> (elementTimeouts w0))
                    (emit (SetTimeout (localName nd) 1000) w0))
             end
           else (Continues (_getSlotName w c) sd, a, w0)
       | None => (Continues (_getSlotName w c) sd, a, w0)
       end).2) as Hrest.
  { intros a w0 H0. destruct (nodes w0 !! c) as [nd|]; [|done].
    destruct (_ && _); [|done]. by destruct (elementTimeouts w0 !! localName nd). }
  destruct (individualSlots sd); apply Hrest; [|done].
  by apply same_light_update_node.
Qed.

Section DistributionDocument.
Variable validateSlotValue : value -> SlotData -> option value.
Variable schedule : list Pending -> list Pending.

Lemma same_light_finish el c i slotName slotData p :
  same_light (world p) (world (finish validateSlotValue el c i slotName slotData p)).
Proof.
  unfold finish. destruct (validateSlotValue (VNode c) slotData) as [v|]; [|done].
  cbn [world]. destruct (isUI5Element (world p) v); [apply same_light_attach|done].
Qed.

Lemma same_light_map_children el cs : ∀ i p,
  same_light (world p) (world (map_children validateSlotValue el cs i p).1).
Proof.
  induction cs as [|c cs IH]; intros i p; [done|]. cbn [map_children].
  pose proof (same_light_start el c (autoIncrementMap p) (world p)) as Hs.
  destruct (start el c (autoIncrementMap p) (world p)) as [[st autoInc] w1].
  cbn [snd] in Hs.
  destruct st as [|slotName slotData|slotName slotData name timeout].
  - eapply same_light_trans; [exact Hs|]. apply (IH (S i) (Build_Pass _ _ _ _)).
  - eapply same_light_trans; [exact Hs|].
    eapply same_light_trans; [|apply IH].
    apply (same_light_finish el c i slotName slotData (Build_Pass _ _ _ _)).
  - pose proof (IH (S i) {| world := w1; autoIncrementMap := autoInc;
                            slottedChildrenMap := slottedChildrenMap p;
                            fulfilled := fulfilled p |}) as H.
    destruct (map_children validateSlotValue el cs (S i) _) as [p2 waiting].
    cbn [fst] in *. by eapply same_light_trans.
Qed.

Lemma same_light_updateSlots el w :
  same_light w (_updateSlots validateSlotValue schedule el w).1.
Proof.
  unfold _updateSlots.
  assert (same_light w (world (allChildrenUpgraded validateSlotValue el w).1)) as Hmap.
  { unfold allChildrenUpgraded. destruct (instance w el) as [d|]; [|done].
    eapply same_light_trans; [|apply same_light_map_children]. cbn [world].
    generalize (slots (constructor d)) as names. intros names. revert w.
    induction names as [|[s sd] names IH]; intros w; [done|]. cbn [foldl].
    eapply same_light_trans; [apply same_light_clearSlot|apply IH]. }
  destruct (allChildrenUpgraded validateSlotValue el w) as [p waiting].
  cbn [fst] in Hmap.
  assert (∀ ts p0, same_light (world p0) (world (resume validateSlotValue el ts p0)))
    as Hresume.
  { unfold resume. induction ts as [|t ts IH]; intros p0; [done|]. cbn [foldl].
    eapply same_light_trans; [apply same_light_finish|apply IH]. }
  set (p' := resume validateSlotValue el (schedule waiting) p).
  assert (same_light w (world p')) as Hp'.
  { eapply same_light_trans; [exact Hmap|apply Hresume]. }
  destruct (fulfilled p'); [|done]. cbn [fst].
  eapply same_light_trans; [exact Hp'|].
  eapply same_light_trans; [|apply same_light_invalidate].
  apply same_light_nodes.
  generalize (world p'). generalize (slottedChildrenMap p') as slotted.
  unfold commit. induction slotted as [|[slot children] slotted IH]; intros w0; [done|].
  cbn [foldl]. rewrite IH.
  pose proof (alloc_fresh (OArray (child <$> sort children)) w0) as (_ & _ & Hn & _).
  destruct (alloc (OArray (child <$> sort children)) w0) as [arr w1]. cbn [snd] in Hn.
  rewrite <- Hn. unfold state_set. destruct (instance w1 el) as [d1|]; [|done].
  by destruct (heap w1 !! _state d1) as [[|?]|].
Qed.

(** A pass over the slots leaves the document as it is: no node gets or
    loses an attribute, a parent or a child, or changes its kind or name
    (the slot attributes of the children are written later, by the render);
    so every node names the slot it named before. *)
Theorem _updateSlots_keeps_document el w m :
  let w' := (_updateSlots validateSlotValue schedule el w).1 in
  kind <$> nodes w' !! m = kind <$> nodes w !! m
  ∧ localName <$> nodes w' !! m = localName <$> nodes w !! m
  ∧ attributes <$> nodes w' !! m = attributes <$> nodes w !! m
  ∧ parentNode <$> nodes w' !! m = parentNode <$> nodes w !! m
  ∧ childNodes <$> nodes w' !! m = childNodes <$> nodes w !! m
  ∧ _getSlotName w' m = _getSlotName w m.
Proof.
  cbn zeta. pose proof (same_light_updateSlots el w m) as H.
  unfold _getSlotName.
  destruct (nodes (_updateSlots validateSlotValue schedule el w).1 !! m) as [nd'|],
    (nodes w !! m) as [nd|]; try done.
  cbn in H. unfold light in H. injection H as H1 H2 H3 H4 H5. cbn.
  by rewrite H1, H2, H3, H4, H5.
Qed.

End DistributionDocument.

(** ** The properties of a new element *)







(** ** A pass over the slots and the render after it *)

Lemma with_ui5_node n f w m :
  light <$> nodes (update_node n (with_ui5 f) w) !! m = light <$> nodes w !! m
  ∧ _individualSlot <$> nodes (update_node n (with_ui5 f) w) !! m
    = _individualSlot <$> nodes w !! m.
Proof.
  rewrite nodes_update_node. destruct (decide (n = m)); [|done].
  by destruct (nodes w !! m).
Qed.

Lemma isElement_light w w' m :
  light <$> nodes w' !! m = light <$> nodes w !! m -> isElement w' m = isElement w m.
Proof.
  unfold isElement. destruct (nodes w' !! m) as [nd'|], (nodes w !! m) as [nd|]; try done.
  cbn. unfold light. intros [= -> _ _ _ _]. done.
Qed.

Section PassAndRender.
Variable adoptedStyleSheets : bool.
Variable ShadyDOM : bool.
Variable validateSlotValue : value -> SlotData -> option value.
Variable schedule : list Pending -> list Pending.

(** A node after [_render]: of the kind it was, and with the attributes
    that [_assignIndividualSlotsToChildren] leaves. *)
Lemma _render_child el w d nd c cn :
  instance w el = Some d ->
  nodes w !! el = Some nd ->
  nodes w !! c = Some cn ->
  ∃ cn',
    nodes (_render adoptedStyleSheets ShadyDOM el w) !! c = Some cn'
    ∧ kind cn' = kind cn
    ∧ attributes cn'
      = attributes (assigned (filter (λ m, isElement w m) (childNodes nd)) c cn).
Proof.
  intros Hi Hnd Hc. unfold _render. rewrite Hi. cbn zeta.
  set (w1 := update_node el (with_ui5 (with_suppressInvalidation true)) w).
  set (w2 := hook (onBeforeRendering (constructor d)) el "onBeforeRendering" w1).
  set (w3 := hook (_onComponentStateFinalized (constructor d)) el
               "_onComponentStateFinalized" w2).
  set (w4 := update_node el (with_ui5 (with_suppressInvalidation false)) w3).
  set (w5 := update_node el (with_ui5 (with_invalidated false)) w4).
  set (w6 := _updateShadowRoot adoptedStyleSheets ShadyDOM el w5).
  set (w7 := if staticAreaTemplate (constructor d) then emit (UpdateFragment el) w6 else w6).
  assert (∀ present name w0, nodes (hook present el name w0) = nodes w0) as Hhook
    by (intros present name w0; by destruct present).
  assert (∀ m, light <$> nodes w7 !! m = light <$> nodes w !! m
               ∧ _individualSlot <$> nodes w7 !! m = _individualSlot <$> nodes w !! m)
    as H7.
  { intros m.
    assert (nodes w7 = nodes w6) as -> by (subst w7; by destruct (staticAreaTemplate _)).
    unfold w6, _updateShadowRoot.
    destruct (with_ui5_node el
      (with_shadowRoot (Some (if negb adoptedStyleSheets && negb ShadyDOM then 2 else 1)%nat))
      (emit (Render el (state_fields w5 el) (negb adoptedStyleSheets && negb ShadyDOM)) w5)
      m) as [-> ->].
    cbn [emit nodes]. unfold w5.
    destruct (with_ui5_node el (with_invalidated false) w4 m) as [-> ->]. unfold w4.
    destruct (with_ui5_node el (with_suppressInvalidation false) w3 m) as [-> ->].
    unfold w3, w2. rewrite !Hhook. unfold w1. apply with_ui5_node. }
  rewrite Hhook.
  destruct (H7 el) as [Hl7 _]. rewrite Hnd in Hl7.
  destruct (nodes w7 !! el) as [nd7|] eqn:Hnd7; [|done].
  cbn in Hl7. unfold light in Hl7. injection Hl7 as _ _ _ _ Hch.
  rewrite (_assignIndividualSlotsToChildren_nodes el w7 nd7 c Hnd7).
  destruct (H7 c) as [Hlc Hic]. rewrite Hc in Hlc, Hic.
  destruct (nodes w7 !! c) as [cn7|]; [|done].
  cbn in Hlc, Hic. unfold light in Hlc. injection Hlc as Hk _ Ha _ _.
  injection Hic as Hic.
  eexists. split; [done|].
  rewrite Hch.
  assert (filter (λ m, isElement w7 m) (childNodes nd)
          = filter (λ m, isElement w m) (childNodes nd)) as ->.
  { apply list_filter_iff. intros m. rewrite (isElement_light w w7 m); [done|]. apply H7. }
  unfold assigned. rewrite Hic.
  destruct (_individualSlot cn) as [s|]; [|done].
  destruct (_ && _); cbn; [by rewrite Ha|done].
Qed.

(** After a pass the element is still an instance. *)
Lemma _updateSlots_instance el w d :
  instance w el = Some d ->
  is_Some (instance (_updateSlots validateSlotValue schedule el w).1 el).
Proof.
  intros Hi. unfold _updateSlots, allChildrenUpgraded. rewrite Hi.
  destruct (invalidation_clearSlots el d (slots (constructor d)) false w w
              (invalidation_start el d w Hi)) as [b1 H1].
  set (w1 := foldl _ w (slots (constructor d))) in *.
  assert (∃ d1, instance w1 el = Some d1) as [d1 Hi1].
  { destruct H1 as (_ & d1 & H1 & _). by exists d1. }
  pose proof (map_children_effects validateSlotValue w1 el d1 (domChildren w el) 0
                {| world := w1; autoIncrementMap := ∅;
                   slottedChildrenMap := []; fulfilled := true |}
                (same_dom_refl w1) Hi1) as (MQ & MF & _).
  cbn zeta in MQ, MF.
  destruct (map_children validateSlotValue el (domChildren w el) 0 _) as [p waiting].
  cbn [fst snd world] in MQ, MF.
  pose proof (invalidation_flags el d b1 w w1 (world p) H1 MQ (MF el)) as H2.
  pose proof (invalidation_calm el d b1 w _ _ H2
                (calm_resume validateSlotValue el (schedule waiting) p)) as H3.
  set (p' := resume validateSlotValue el (schedule waiting) p) in *.
  destruct (fulfilled p'); cbn [fst].
  - pose proof (invalidation_calm el d b1 w _ _ H3
                  (calm_commit el (slottedChildrenMap p') (world p'))) as H4.
    apply (invalidation_invalidate el d b1) in H4.
    destruct H4 as (_ & d' & -> & _). by eexists.
  - destruct H3 as (_ & d' & -> & _). by eexists.
Qed.

Lemma _getSlotName_node w w' c cn cn' :
  nodes w !! c = Some cn -> nodes w' !! c = Some cn' ->
  kind cn' = kind cn -> attributes cn' = attributes cn ->
  _getSlotName w' c = _getSlotName w c.
Proof. intros H1 H2 Hk Ha. unfold _getSlotName. by rewrite H1, H2, Hk, Ha. Qed.

(** The slot of a child holds through a pass and the render after it, in
    the two ways a child comes to a slot. A child of a slot with individual
    slots gets its numbered name as the slot attribute and still names its
    slot. A child of another slot keeps its slot attribute, unless it carries
    an individual slot from an earlier pass (it is never taken away): then
    the render writes that one back, and the child names the old slot
    again. *)
Theorem slot_after_pass_and_render el w d fields nd k c cn s sd :
  instance w el = Some d ->
  heap w !! _state d = Some (OObject fields) ->
  nodes w !! el = Some nd ->
  NoDup (domChildren w el) ->
  domChildren w el !! k = Some c ->
  c ∈ childNodes nd ->
  nodes w !! c = Some cn ->
  kind cn = HTMLElementNode ->
  slotOf w el c = Some (s, sd) ->
  let w' := _render adoptedStyleSheets ShadyDOM el
              (_updateSlots validateSlotValue schedule el w).1 in
  (individualSlots sd = true ->
   s ≠ "" ->
   forallb (λ a, negb (is_line_terminator a)) (String.list_ascii_of_string s) = true ->
   (attributes <$> nodes w' !! c) ≫= (.!! "slot")
   = Some (s +:+ "-" +:+ pretty (numbered w s (take (S k) (domChildren w el))))
   ∧ _getSlotName w' c = s)
  ∧ (individualSlots sd = false ->
     _individualSlot cn = None ∨ _individualSlot cn = Some "" ->
     attributes <$> nodes w' !! c = Some (attributes cn)
     ∧ _getSlotName w' c = s)
  ∧ (individualSlots sd = false ->
     ∀ old (n : nat),
       _individualSlot cn = Some (old +:+ "-" +:+ pretty n) ->
       old ≠ "" ->
       forallb (λ a, negb (is_line_terminator a)) (String.list_ascii_of_string old) = true ->
       (attributes <$> nodes w' !! c) ≫= (.!! "slot")
       = Some (old +:+ "-" +:+ pretty n)
       ∧ _getSlotName w' c = old).
Proof.
  intros Hi Hh Hnd Hdup Hk Hin Hc Hkind Hs. cbn zeta.
  set (w1 := (_updateSlots validateSlotValue schedule el w).1).
  destruct (_updateSlots_individual validateSlotValue schedule el w d fields Hi Hh Hdup)
    as [Hind _].
  specialize (Hind k c Hk). fold w1 in Hind. rewrite Hs, Hc in Hind.
  pose proof (same_light_updateSlots validateSlotValue schedule el w) as Hlight.
  fold w1 in Hlight.
  destruct (_updateSlots_instance el w d Hi) as [d1 Hi1]. fold w1 in Hi1.
  pose proof (Hlight el) as Hl. rewrite Hnd in Hl.
  destruct (nodes w1 !! el) as [nd1|] eqn:Hnd1; [|done].
  cbn in Hl. unfold light in Hl. injection Hl as _ _ _ _ Hch.
  pose proof (Hlight c) as Hl. rewrite Hc in Hl.
  destruct (nodes w1 !! c) as [cn1|] eqn:Hc1; [|done].
  cbn in Hl, Hind. unfold light in Hl. injection Hl as Hk1 _ Ha1 _ _.
  destruct (_render_child el w1 d1 nd1 c cn1 Hi1 Hnd1 Hc1) as (cn' & Hc' & Hk' & Ha').
  rewrite Hc'. cbn [fmap option_fmap option_map mbind option_bind].
  assert (c ∈ filter (λ m, isElement w1 m) (childNodes nd1)) as Hel.
  { apply list_elem_of_filter. split; [|by rewrite Hch].
    unfold isElement. rewrite Hc1, Hk1, Hkind. done. }
  assert (∀ t, t ≠ "" -> _individualSlot cn1 = Some t ->
            attributes cn' !! "slot" = Some t) as Hset.
  { intros t Ht Hcn1. rewrite Ha'. unfold assigned. rewrite Hcn1.
    rewrite bool_decide_eq_true_2 by done. apply String.eqb_neq in Ht. rewrite Ht.
    cbn. by rewrite lookup_insert_eq. }
  assert (∀ t (n : nat), t ≠ "" ->
            forallb (λ a, negb (is_line_terminator a)) (String.list_ascii_of_string t) = true ->
            _individualSlot cn1 = Some (t +:+ "-" +:+ pretty n) ->
            attributes cn' !! "slot" = Some (t +:+ "-" +:+ pretty n)
            ∧ _getSlotName (_render adoptedStyleSheets ShadyDOM el w1) c = t) as Hnamed.
  { intros t n Ht Hlt Hcn1.
    assert (t +:+ "-" +:+ pretty n ≠ "") as Hne by (by destruct t).
    pose proof (Hset _ Hne Hcn1) as Hattr. split; [done|].
    unfold _getSlotName. rewrite Hc', Hk', Hk1, Hkind, Hattr.
    rewrite match_numeric_suffix_individual by done.
    apply String.eqb_neq in Hne. by rewrite Hne. }
  apply (slotOf_Some w el d) in Hs as [Hs He]; [|done].
  split; [|split].
  - intros Hsd Hne Hlt. rewrite Hsd in Hind. injection Hind as Hind.
    by apply Hnamed.
  - intros Hsd Hnone. rewrite Hsd in Hind. injection Hind as Hind.
    assert (attributes cn' = attributes cn) as Hsame.
    { rewrite Ha', <- Ha1. unfold assigned. rewrite Hind.
      destruct Hnone as [->| ->]; [done|]. cbn. by rewrite andb_false_r. }
    split; [by rewrite Hsame|].
    rewrite Hs. apply (_getSlotName_node w _ c cn cn'); [done|done|congruence|done].
  - intros Hsd old n Hold Hne Hlt. rewrite Hsd in Hind. injection Hind as Hind.
    apply Hnamed; [done|done|congruence].
Qed.

End PassAndRender.

Lemma slot_after_pass_and_render_witness :
  _getSlotName movedChild 2 = "default"
  ∧ (attributes
       <$> nodes (_render true false 1
                    (_updateSlots acceptAll (λ waiting, waiting) 1 movedChild).1)
           !! 2%positive) ≫= (.!! "slot") = Some "x-1"
  ∧ _getSlotName (_render true false 1
                    (_updateSlots acceptAll (λ waiting, waiting) 1 movedChild).1) 2
    = "x".
Proof.
  split; [vm_compute; reflexivity|].
  eassert (instance movedChild 1 = Some _) as Hi by (vm_compute; reflexivity).
  eassert (heap movedChild !! 4%positive = Some (OObject _)) as Hh
    by (vm_compute; reflexivity).
  eassert (nodes movedChild !! 1%positive = Some _) as Hnd by (vm_compute; reflexivity).
  eassert (nodes movedChild !! 2%positive = Some _) as Hc by (vm_compute; reflexivity).
  assert (NoDup (domChildren movedChild 1)) as Hdup
    by (apply (bool_decide_unpack _); vm_compute; exact I).
  assert (domChildren movedChild 1 !! 0%nat = Some 2%positive) as Hk
    by (vm_compute; reflexivity).
  assert (slotOf movedChild 1 2
          = Some ("default", {| propertyName := None; slotType := TNode;
                                individualSlots := false; listenFor := None |})) as Hs
    by (vm_compute; reflexivity).
  match type of Hnd with
  | _ = Some ?nd =>
      assert (2%positive ∈ childNodes nd) as Hin
        by (vm_compute; apply elem_of_cons; left; reflexivity)
  end.
  match type of Hc with
  | _ = Some ?cn => assert (kind cn = HTMLElementNode) as Hkind by reflexivity
  end.
  destruct (slot_after_pass_and_render true false acceptAll (λ waiting, waiting)
              1 movedChild _ _ _ 0%nat 2%positive _ "default" _
              Hi Hh Hnd Hdup Hk Hin Hc Hkind Hs) as (_ & _ & H).
  apply (H eq_refl "x" 1%nat); [vm_compute; reflexivity | discriminate | reflexivity].
Defined.
